(** * Knowledge Q&A: chunker, rate governor, embedding gateway, document store

    A shallow embedding of the TypeScript sources
    - [app/api/documents/route.ts] (upload, list, delete, [chunkText]),
    - [app/api/ask/route.ts] (ask),
    - [lib/rateLimit.ts], [lib/embeddings.ts], [lib/pinecone.ts],
    followed by the properties the specification states about them. *)

From Stdlib Require Import ZArith NArith Lia String Ascii Permutation DecimalString.
From Stdlib Require DecimalNat DecimalPos DecimalZ.
From stdpp Require Import base list gmap strings fin_maps.

Set Default Proof Using "Type".

(* ===================================================================== *)
(** * JavaScript strings *)
(* ===================================================================== *)

(** A JavaScript string is a sequence of UTF-16 code units; [length] counts
    code units.  Code units are kept as [N]. *)
Abbreviation JSString := (list N).

(** [js "abc"] is the JavaScript string with the code units of an ASCII
    literal. *)
Definition js (s : string) : JSString :=
  List.map N_of_ascii (list_ascii_of_string s).

Definition LF : N := 10%N.
Definition CR : N := 13%N.
Definition SP : N := 32%N.

(** The characters matched by [\s] and stripped by [String.prototype.trim]:
    TAB, LF, VT, FF, CR, SPACE, NBSP, U+1680, U+2000..U+200A, U+2028,
    U+2029, U+202F, U+205F, U+3000 and U+FEFF. *)
Definition is_space (c : N) : bool :=
  ((9 <=? c) && (c <=? 13) || (c =? 32) || (c =? 160) || (c =? 5760)
   || (8192 <=? c) && (c <=? 8202) || (c =? 8232) || (c =? 8233)
   || (c =? 8239) || (c =? 8287) || (c =? 12288) || (c =? 65279))%N.

Definition is_LF (c : N) : bool := (c =? LF)%N.

(** Truthiness of a string: [''] is falsy, every other string is truthy. *)
Definition truthy (s : JSString) : bool :=
  match s with [] => false | _ :: _ => true end.

(** [s.slice(i, j)] for [0 <= i]; an end past the string is clamped. *)
Definition slice (s : JSString) (i j : nat) : JSString := take (j - i) (drop i s).

Fixpoint trimStart (s : JSString) : JSString :=
  match s with
  | [] => []
  | c :: s' => if is_space c then trimStart s' else s
  end.

Fixpoint trimEnd (s : JSString) : JSString :=
  match s with
  | [] => []
  | c :: s' =>
      match trimEnd s' with
      | [] => if is_space c then [] else [c]
      | r => c :: r
      end
  end.

(** [s.trim()] *)
Definition trim (s : JSString) : JSString := trimEnd (trimStart s).

(** Strings made of whitespace only, strings without whitespace, and
    strings that [trim] leaves alone. *)
Definition blank (s : JSString) : Prop := Forall (λ c, is_space c = true) s.
Definition spaceless (s : JSString) : Prop := Forall (λ c, is_space c = false) s.
Definition trimmed (s : JSString) : Prop := trim s = s.

(** A string is [solid] when it is empty or shows a character that is not
    whitespace. *)
Definition solid (s : JSString) : Prop := s = [] ∨ ¬ blank s.

(** Adds a character to the first piece of a split under construction. *)
Definition cons_head (c : N) (ps : list JSString) : list JSString :=
  match ps with
  | [] => [[c]]
  | p :: ps' => (c :: p) :: ps'
  end.

(** [s.split(/\s+/)]: the pieces between maximal runs of whitespace.  A
    leading or trailing run leaves an empty first or last piece, and the
    empty string splits into one empty piece.  [in_sep] records that the
    previous character belonged to the separator being skipped. *)
Fixpoint split_ws_from (in_sep : bool) (s : JSString) : list JSString :=
  match s with
  | [] => [[]]
  | c :: s' =>
      if is_space c
      then (if in_sep then split_ws_from true s' else [] :: split_ws_from true s')
      else cons_head c (split_ws_from false s')
  end.

Definition split_ws (s : JSString) : list JSString := split_ws_from false s.

Definition starts_with_LF (s : JSString) : bool :=
  match s with
  | c :: _ => is_LF c
  | [] => false
  end.

(** [s.split(/\n\n+/)]: the pieces between maximal runs of two or more
    line feeds; a single line feed stays inside its piece. *)
Fixpoint split_blank_from (in_sep : bool) (s : JSString) : list JSString :=
  match s with
  | [] => [[]]
  | c :: s' =>
      if is_LF c && in_sep then split_blank_from true s'
      else if is_LF c && starts_with_LF s' then [] :: split_blank_from true s'
      else cons_head c (split_blank_from false s')
  end.

Definition split_blank (s : JSString) : list JSString := split_blank_from false s.

(* ===================================================================== *)
(** * The chunker ([chunkText] in app/api/documents/route.ts) *)
(* ===================================================================== *)

Module Chunker.

(** [for (let i = 0; i < word.length; i += max) result.push(word.slice(i, i + max))].
    The loop is driven by fuel; [sliceLoop_fuel] below shows that
    [length word] is enough whenever [max >= 1] (with [max = 0] the source
    loop does not terminate). *)
Fixpoint sliceLoop (fuel : nat) (word : JSString) (max i : nat) : list JSString :=
  match fuel with
  | O => []
  | S fuel' =>
      if i <? length word
      then slice word i (i + max) :: sliceLoop fuel' word max (i + max)
      else []
  end.

Definition hardSplit (word : JSString) (max : nat) : list JSString :=
  sliceLoop (length word) word max 0.

(** Loop state of [splitByLength]: the [result] array and [current]. *)
Definition splitByLength_step (max : nat) (st : list JSString * JSString)
    (word : JSString) : list JSString * JSString :=
  let '(result, current) := st in
  if max <? length word then
    let result1 := if truthy current then result ++ [trim current] else result in
    (result1 ++ hardSplit word max, [])
  else if max <? length current + length word + 1 then
    ((if truthy current then result ++ [trim current] else result), word)
  else
    (result, current ++ (if truthy current then [SP] else []) ++ word).

Definition splitByLength (str : JSString) (max : nat) : list JSString :=
  let '(result, current) :=
    fold_left (splitByLength_step max) (split_ws str) ([], []) in
  if truthy (trim current) then result ++ [trim current] else result.

(** Loop state of [chunkText]: the [chunks] array and [currentChunk]. *)
Definition chunkText_step (maxLength : nat) (st : list JSString * JSString)
    (para : JSString) : list JSString * JSString :=
  let '(chunks, currentChunk) := st in
  if maxLength <? length para then
    let chunks1 :=
      if truthy currentChunk then chunks ++ [trim currentChunk] else chunks in
    (chunks1 ++ splitByLength para maxLength, [])
  else if (maxLength <? length currentChunk + length para) && truthy currentChunk then
    (chunks ++ [trim currentChunk], para)
  else
    (chunks, currentChunk ++ (if truthy currentChunk then [LF; LF] else []) ++ para).

Definition chunkText_loop (text : JSString) (maxLength : nat)
    : list JSString * JSString :=
  fold_left (chunkText_step maxLength) (split_blank text) ([], []).

Definition chunkText (text : JSString) (maxLength : nat) : list JSString :=
  let '(chunks, currentChunk) := chunkText_loop text maxLength in
  let chunks' :=
    if truthy (trim currentChunk) then chunks ++ [trim currentChunk] else chunks in
  match chunks' with
  | [] => [slice (trim text) 0 maxLength]
  | _ :: _ => chunks'
  end.

End Chunker.

(* ===================================================================== *)
(** * The rate governor (lib/rateLimit.ts) *)
(* ===================================================================== *)

Module RateLimit.

Record RateLimitEntry := { count : Z; resetTime : Z }.

Record RateLimitConfig := { windowMs : Z; maxRequests : Z }.

Record RateLimitResult := { allowed : bool; remaining : Z; resetIn : Z }.

Definition defaultConfig : RateLimitConfig :=
  {| windowMs := 60 * 1000; maxRequests := 30 |}.

Definition uploadRateLimit : RateLimitConfig :=
  {| windowMs := 60 * 1000; maxRequests := 10 |}.

Definition askRateLimit : RateLimitConfig :=
  {| windowMs := 60 * 1000; maxRequests := 20 |}.

Definition healthRateLimit : RateLimitConfig :=
  {| windowMs := 60 * 1000; maxRequests := 60 |}.

(** The headers [getClientIP] reads; [None] is a header that is absent. *)
Record Headers := { x_forwarded_for : option JSString; x_real_ip : option JSString }.

(** [s.split(',')[0]] *)
Fixpoint before_comma (s : JSString) : JSString :=
  match s with
  | [] => []
  | c :: s' => if (c =? 44)%N then [] else c :: before_comma s'
  end.

Definition getClientIP (h : Headers) : JSString :=
  match x_forwarded_for h with
  | Some f =>
      if truthy f then trim (before_comma f)
      else match x_real_ip h with
           | Some r => if truthy r then r else js "unknown"
           | None => js "unknown"
           end
  | None =>
      match x_real_ip h with
      | Some r => if truthy r then r else js "unknown"
      | None => js "unknown"
      end
  end.

(** The periodic clean-up at the head of [checkRateLimit]. *)
Definition cleanup (now : Z) (store : gmap JSString RateLimitEntry)
    : gmap JSString RateLimitEntry :=
  if (10000 <? Z.of_nat (size store))%Z
  then filter (λ kv, ¬ (resetTime kv.2 < now)%Z) store
  else store.

(** [checkRateLimit(ip, config)] at [Date.now() = now], on the module-level
    [rateLimitStore].  The entry is read before the clean-up, as in the
    source; [entry.count++] mutates the object held by the map, and that
    entry is live, so the clean-up has kept it: the update is an insert. *)
Definition checkRateLimit (now : Z) (ip : JSString) (config : RateLimitConfig)
    (store : gmap JSString RateLimitEntry)
    : RateLimitResult * gmap JSString RateLimitEntry :=
  let entry := store !! ip in
  let store1 := cleanup now store in
  let fresh :=
    ({| allowed := true; remaining := maxRequests config - 1;
        resetIn := windowMs config |},
     <[ip := {| count := 1; resetTime := now + windowMs config |}]> store1) in
  match entry with
  | None => fresh
  | Some e =>
      if (resetTime e <? now)%Z then fresh
      else if (maxRequests config <=? count e)%Z then
        ({| allowed := false; remaining := 0; resetIn := resetTime e - now |},
         store1)
      else
        ({| allowed := true; remaining := maxRequests config - (count e + 1);
            resetIn := resetTime e - now |},
         <[ip := {| count := count e + 1; resetTime := resetTime e |}]> store1)
  end.

(** [Math.ceil(resetIn / 1000)], the [Retry-After] header of
    [rateLimitResponse]. *)
Definition retryAfter (resetIn : Z) : Z := (- ((- resetIn) / 1000))%Z.

(** A run of admission checks for one identity: the [i]-th call is made at
    time [nth i times] under [config].  Returns the results in call order
    and the final store. *)
Fixpoint checkMany (ip : JSString) (config : RateLimitConfig) (times : list Z)
    (store : gmap JSString RateLimitEntry)
    : list RateLimitResult * gmap JSString RateLimitEntry :=
  match times with
  | [] => ([], store)
  | now :: times' =>
      let '(r, store1) := checkRateLimit now ip config store in
      let '(rs, store2) := checkMany ip config times' store1 in
      (r :: rs, store2)
  end.

End RateLimit.

(* ===================================================================== *)
(** * The embedding gateway (lib/embeddings.ts) *)
(* ===================================================================== *)

(** A thrown [Error]; only its message is observed. *)
Record Error := { message : JSString }.

Inductive Result (A : Type) : Type :=
| Ok (a : A)
| Err (e : Error).
Arguments Ok {A} a.
Arguments Err {A} e.

Module Embeddings.

Definition MAX_RETRIES : nat := 5.
Definition INITIAL_BACKOFF_MS : Z := 1000.

Section Gateway.
(** An embedding is a [number[]]; its entries are never inspected here. *)
Context {Embedding : Type}.

(** What the provider answers to one [fetch]: the HTTP status, what
    [await response.text()] gives and what
    [(await response.json()).data[0].embedding] gives.  Reading the body
    can fail and so can the path into the parsed value: each of the two is
    the value, or the error thrown. *)
Record Response := {
  status : Z;
  errorText : Result JSString;
  embedding : Result Embedding
}.

(** [fetch] either resolves with a response or rejects. *)
Inductive FetchResult :=
| Resolved (r : Response)
| Rejected (e : Error).

(** [response.ok] *)
Definition ok (r : Response) : bool := ((200 <=? status r) && (status r <=? 299))%Z.

(** The retry test of the source: [status === 429 || status >= 500]. *)
Definition retryable (r : Response) : bool := ((status r =? 429) || (500 <=? status r))%Z.

Inductive Event :=
| EvFetch (attempt : nat)
| EvSleep (ms : Z).

Definition apiError (text : JSString) : Error :=
  {| message := js "NVIDIA API error: " ++ text |}.

(** The [for] loop of [getEmbedding] from [attempt] on, with [remaining]
    iterations left.  [fetch n] is the outcome of the [n]-th request of
    this call; the events are returned in the order they happen. *)
Fixpoint retryLoop (fetch : nat → FetchResult) (remaining attempt : nat)
    (lastError : option Error) : Result Embedding * list Event :=
  match remaining with
  | O =>
      (Err (default (apiError (js "max retries exceeded")) lastError), [])
  | S remaining' =>
      match fetch attempt with
      | Rejected e => (Err e, [EvFetch attempt])
      | Resolved r =>
          if ok r then (embedding r, [EvFetch attempt])
          else
            match errorText r with
            | Err e => (Err e, [EvFetch attempt])
            | Ok text =>
                if retryable r then
                  let backoffMs := (INITIAL_BACKOFF_MS * 2 ^ Z.of_nat attempt)%Z in
                  let '(res, evs) :=
                    retryLoop fetch remaining' (S attempt) (Some (apiError text)) in
                  (res, EvFetch attempt :: EvSleep backoffMs :: evs)
                else (Err (apiError text), [EvFetch attempt])
            end
      end
  end.

(** [getEmbedding(text, inputType)]; [apiKey] is [process.env.NVIDIA_API_KEY].
    The text and input type only travel to the provider, whose answers
    are [fetch]. *)
Definition getEmbedding (apiKey : option JSString) (fetch : nat → FetchResult)
    : Result Embedding * list Event :=
  match apiKey with
  | None => (Err {| message := js "NVIDIA_API_KEY is not set" |}, [])
  | Some k =>
      if truthy k then retryLoop fetch MAX_RETRIES 0 None
      else (Err {| message := js "NVIDIA_API_KEY is not set" |}, [])
  end.

Definition attempts (evs : list Event) : nat :=
  length (omap (λ e, match e with EvFetch a => Some a | _ => None end) evs).

Definition sleeps (evs : list Event) : list Z :=
  omap (λ e, match e with EvSleep ms => Some ms | _ => None end) evs.

(** A transient failure, told by its status: the rate-limit signal 429
    or a server error, 500 and up, with a body that can be read. *)
Definition transient (r : Response) : Prop :=
  (status r = 429 ∨ 500 ≤ status r)%Z ∧ ∃ text, errorText r = Ok text.

(** The provider answers the requests [attempt .. attempt + k - 1] of a
    call with a transient failure. *)
Definition transient_run (fetch : nat → FetchResult) (attempt k : nat) : Prop :=
  ∀ i, i < k → ∃ r, fetch (attempt + i) = Resolved r ∧ transient r.

(** The events of [k] failed attempts from [attempt] on: each request is
    followed by its back-off sleep. *)
Definition backoffTrace (attempt k : nat) : list Event :=
  flat_map (λ i, [EvFetch (attempt + i);
                  EvSleep (INITIAL_BACKOFF_MS * 2 ^ Z.of_nat (attempt + i))])
           (seq 0 k).

(** [Promise.all] over per-text results: every vector in input order, or
    a rejection.  [Promise.all] rejects with the reason of whichever
    call rejects first in time; the reason reported here is that of the
    first failing text in input order. *)
Fixpoint all (rs : list (Result Embedding)) : Result (list Embedding) :=
  match rs with
  | [] => Ok []
  | Ok v :: rs' =>
      match all rs' with
      | Ok vs => Ok (v :: vs)
      | Err e => Err e
      end
  | Err e :: _ => Err e
  end.

(** [getEmbeddingsBatch(texts, inputType)]: [provider j] answers the
    requests made for the [j]-th text. *)
Definition getEmbeddingsBatch (apiKey : option JSString)
    (provider : nat → nat → FetchResult) (texts : list JSString)
    : Result (list Embedding) :=
  all (imap (λ j _, (getEmbedding apiKey (provider j)).1) texts).

End Gateway.

Arguments Response : clear implicits.
Arguments FetchResult : clear implicits.

End Embeddings.

(* ===================================================================== *)
(** * The vector index (lib/pinecone.ts and the index it addresses) *)
(* ===================================================================== *)

Module Pinecone.

Record Metadata := {
  documentName : JSString;
  chunk : JSString;
  chunkIndex : nat;
  uploadedAt : JSString
}.

(** What the index keeps under a record id. *)
Record StoredRecord (Embedding : Type) := {
  values : Embedding;
  metadata : option Metadata
}.
Arguments values {Embedding} _.
Arguments metadata {Embedding} _.

(** The part of the index service that is numerical: vectors are opaque
    values, the service orders a candidate list by similarity to the query
    vector ([rank], best first, a rearrangement of its input) and reports a
    score.  [zeroVector] is [new Array(1024).fill(0)] and [percent] is
    [Math.round((score || 0) * 100)]. *)
Class VectorIndex (Embedding : Type) := {
  zeroVector : Embedding;
  Score : Type;
  score : Embedding → Embedding → Score;
  percent : Score → Z;
  rank : Embedding → list (JSString * StoredRecord Embedding)
         → list (JSString * StoredRecord Embedding);
  rank_perm : ∀ v l, rank v l ≡ₚ l
}.

(** The handle returned by [getIndex]: the bare index, which addresses
    the default namespace, or the index narrowed to a namespace with
    [index.namespace(ns)]. *)
Inductive IndexHandle :=
| WholeIndex
| Namespaced (ns : JSString).

(** The name of the default namespace.  The client addresses the default
    namespace through the bare index and under this name; the empty name
    stands for it as well. *)
Definition DEFAULT_NAMESPACE : JSString := js "__default__".

(** The name under which the service keeps the records of a namespace. *)
Definition namespaceKey (ns : JSString) : JSString :=
  if truthy ns then ns else DEFAULT_NAMESPACE.

(** The namespace a handle addresses. *)
Definition target (h : IndexHandle) : JSString :=
  match h with
  | WholeIndex => DEFAULT_NAMESPACE
  | Namespaced ns => namespaceKey ns
  end.

(** [getIndex(namespace)]; [apiKey] is [process.env.PINECONE_API_KEY], read
    by [getPinecone]. *)
Definition getIndex (apiKey : option JSString) (namespace : JSString)
    : Result IndexHandle :=
  match apiKey with
  | Some k =>
      if truthy k
      then Ok (if truthy namespace then Namespaced namespace else WholeIndex)
      else Err {| message := js "PINECONE_API_KEY is not set" |}
  | None => Err {| message := js "PINECONE_API_KEY is not set" |}
  end.

(** What a caller hands to [index.deleteMany]: an object with the field
    [ids], or an array in the place of that object. *)
Inductive DeleteManyArgument :=
| WithIds (ids : list JSString)
| BareArray (ids : list JSString).

Section Index.
Context {Embedding : Type} `{!VectorIndex Embedding}.

(** The index: namespace name to partition, partition: record id to
    record.  A namespace that was never written is an empty partition;
    the empty name and [DEFAULT_NAMESPACE] name the same partition. *)
Definition partition (st : gmap JSString (gmap JSString (StoredRecord Embedding)))
    (ns : JSString) : gmap JSString (StoredRecord Embedding) :=
  default ∅ (st !! namespaceKey ns).

(** [index.upsert({ records })]: each record replaces the one stored
    under its id, if any. *)
Definition upsert (h : IndexHandle)
    (records : list (JSString * StoredRecord Embedding))
    (st : gmap JSString (gmap JSString (StoredRecord Embedding)))
    : gmap JSString (gmap JSString (StoredRecord Embedding)) :=
  <[target h := fold_left (λ p r, <[r.1 := r.2]> p) records (partition st (target h))]> st.

(** [index.deleteMany(options)].  The client takes the ids to delete
    from the [ids] field of its argument, as [upsert] takes the records
    from the [records] field.  An array handed over as the argument itself
    has no such field: the request then names no id, the service removes
    nothing and the call resolves. *)
Definition deleteMany (h : IndexHandle) (options : DeleteManyArgument)
    (st : gmap JSString (gmap JSString (StoredRecord Embedding)))
    : gmap JSString (gmap JSString (StoredRecord Embedding)) :=
  match options with
  | WithIds ids =>
      <[target h := fold_left (λ p i, delete i p) ids (partition st (target h))]> st
  | BareArray _ => st
  end.

Record Match := {
  m_id : JSString;
  m_score : Score;
  m_metadata : option Metadata
}.

(** The filter [{ documentName: { $eq: name } }]; [None] is no filter. *)
Definition passes (flt : option JSString) (r : JSString * StoredRecord Embedding) : bool :=
  match flt with
  | None => true
  | Some name =>
      match metadata r.2 with
      | Some md => bool_decide (documentName md = name)
      | None => false
      end
  end.

(** [index.query({ vector, topK, includeMetadata: true, filter })]: the
    [topK] best of the handle's partition among the records that pass
    the filter. *)
Definition query (h : IndexHandle) (vector : Embedding) (topK : nat)
    (flt : option JSString)
    (st : gmap JSString (gmap JSString (StoredRecord Embedding)))
    : list Match :=
  let candidates :=
    List.filter (passes flt) (map_to_list (partition st (target h))) in
  (λ r, {| m_id := r.1; m_score := score vector (values r.2);
           m_metadata := metadata r.2 |})
    <$> take topK (rank vector candidates).

(** [index.describeIndexStats().totalRecordCount]: the service reports
    the record count of the whole index, whatever handle asks. *)
Definition totalRecordCount
    (st : gmap JSString (gmap JSString (StoredRecord Embedding))) : nat :=
  map_fold (λ _ p acc, size p + acc) 0 st.

End Index.

Arguments Match Embedding {_}.

End Pinecone.

(** A JSON response: 200 with a body, an error status with its [error]
    message, or the 429 of [rateLimitResponse] with its [Retry-After]. *)
Inductive HttpResponse (A : Type) : Type :=
| Success (body : A)
| Failure (status : Z) (error : JSString)
| TooManyRequests (retryAfterSeconds : Z).
Arguments Success {A} body.
Arguments Failure {A} status error.
Arguments TooManyRequests {A} retryAfterSeconds.

Definition mapBody {A B} (f : A → B) (r : HttpResponse A) : HttpResponse B :=
  match r with
  | Success body => Success (f body)
  | Failure status error => Failure status error
  | TooManyRequests retryAfterSeconds => TooManyRequests retryAfterSeconds
  end.

(** [process.env] *)
Record Env := {
  NVIDIA_API_KEY : option JSString;
  PINECONE_API_KEY : option JSString
}.

(** The process state shared by all requests: the rate-limit table and the
    remote index. *)
Record Server (Embedding : Type) := {
  rateLimitStore : gmap JSString RateLimit.RateLimitEntry;
  index : gmap JSString (gmap JSString (Pinecone.StoredRecord Embedding))
}.
Arguments rateLimitStore {Embedding} _.
Arguments index {Embedding} _.

(* ===================================================================== *)
(** * The documents route (app/api/documents/route.ts) *)
(* ===================================================================== *)

Module Documents.
Import RateLimit Embeddings Pinecone.

(** An uploaded [File]: its name and what reading it yields in the way its
    extension selects ([PDFParse.getText], [extractPptxText],
    [mammoth.extractRawText], which may throw, or [file.text()]). *)
Record File := { name : JSString; raw : Result JSString }.

(** [toLowerCase] on the ASCII letters; no other character lowers to a
    letter of the extensions tested below. *)
Definition toLowerCase (s : JSString) : JSString :=
  (λ c, if ((65 <=? c) && (c <=? 90))%N then (c + 32)%N else c) <$> s.

Definition endsWith (s suffix : JSString) : bool :=
  (length suffix <=? length s)
  && bool_decide (drop (length s - length suffix) s = suffix).

(** [.replace(/\r\n/g, '\n')] *)
Fixpoint replace_crlf (s : JSString) : JSString :=
  match s with
  | c :: ((d :: s'') as s') =>
      if (c =? CR)%N && (d =? LF)%N then LF :: replace_crlf s''
      else c :: replace_crlf s'
  | _ => s
  end.

(** [.replace(/\n{3,}/g, '\n\n')]; [run] is the number of line feeds that
    immediately precede. *)
Fixpoint collapse_from (run : nat) (s : JSString) : JSString :=
  match s with
  | [] => []
  | c :: s' =>
      if is_LF c
      then (if 2 <=? run then collapse_from (S run) s'
            else LF :: collapse_from (S run) s')
      else c :: collapse_from 0 s'
  end.

Definition collapse_newlines (s : JSString) : JSString := collapse_from 0 s.

(** The clean-up shared by the PDF, PPTX and DOCX branches; an empty
    result and a parser failure are both rethrown by the branch's [catch]
    with its prefix. *)
Definition cleaned (prefix emptyMessage : string) (r : Result JSString)
    : Result JSString :=
  match r with
  | Err e => Err {| message := js prefix ++ message e |}
  | Ok text =>
      let cleanedText := trim (collapse_newlines (replace_crlf text)) in
      if truthy cleanedText then Ok cleanedText
      else Err {| message := js prefix ++ js emptyMessage |}
  end.

Definition extractTextFromFile (file : File) : Result JSString :=
  let fileName := toLowerCase (name file) in
  if endsWith fileName (js ".pdf") then
    cleaned "Failed to parse PDF: "
      "PDF appears to be empty or contains only images" (raw file)
  else if endsWith fileName (js ".pptx") then
    cleaned "Failed to parse PowerPoint: "
      "PowerPoint appears to be empty or contains only images" (raw file)
  else if endsWith fileName (js ".docx") then
    cleaned "Failed to parse Word document: "
      "Word document appears to be empty" (raw file)
  else raw file.

Definition decimalZ (z : Z) : JSString := js (NilZero.string_of_int (Z.to_int z)).
Definition decimal (n : nat) : JSString := js (NilZero.string_of_uint (Nat.to_uint n)).

Definition BATCH_SIZE : nat := 5.

Section Routes.
Context {Embedding : Type} `{!VectorIndex Embedding}.

(** What the world supplies during one upload: [Date.now()] in the rate
    limiter and at [uploadTimestamp], [new Date().toISOString()] for the
    record of each chunk, and the provider's answers, [provider n k]
    being the answer to the [k]-th request made for chunk [n]. *)
Record UploadWorld := {
  now : Z;
  uploadTimestamp : Z;
  isoString : nat → JSString;
  provider : nat → nat → FetchResult Embedding
}.

Definition record (w : UploadWorld) (fileName : JSString) (ordinal : nat)
    (text : JSString) (v : Embedding) : JSString * StoredRecord Embedding :=
  (fileName ++ js "-" ++ decimalZ (uploadTimestamp w) ++ js "-" ++ decimal ordinal,
   {| values := v;
      metadata := Some {| documentName := fileName; chunk := text;
                          chunkIndex := ordinal;
                          uploadedAt := isoString w ordinal |} |}).

(** [for (let i = 0; i < chunks.length; i += BATCH_SIZE) ...]: embeds
    batch after batch and collects the records in [vectors]; a rejected
    batch leaves the loop.  [length chunks] iterations of fuel cover the
    loop ([embedLoop_fuel] below). *)
Fixpoint embedLoop (env : Env) (w : UploadWorld) (fileName : JSString)
    (chunks : list JSString) (fuel i : nat)
    (vectors : list (JSString * StoredRecord Embedding))
    : Result (list (JSString * StoredRecord Embedding)) :=
  match fuel with
  | O => Ok vectors
  | S fuel' =>
      if i <? length chunks then
        let batch := take BATCH_SIZE (drop i chunks) in
        match getEmbeddingsBatch (NVIDIA_API_KEY env) (λ j, provider w (i + j)) batch with
        | Err e => Err e
        | Ok embeddings =>
            embedLoop env w fileName chunks fuel' (i + BATCH_SIZE)
              (vectors ++ imap (λ j cv, record w fileName (i + j) cv.1 cv.2)
                               (zip batch embeddings))
        end
      else Ok vectors
  end.

Record Uploaded := { u_documentName : JSString; chunksCount : nat }.

Definition withStore (s : Server Embedding)
    (store : gmap JSString RateLimitEntry) : Server Embedding :=
  {| rateLimitStore := store; index := index s |}.

Definition withIndex (s : Server Embedding)
    (ix : gmap JSString (gmap JSString (StoredRecord Embedding)))
    : Server Embedding :=
  {| rateLimitStore := rateLimitStore s; index := ix |}.

(** [POST]: upload one document.  [file] is [formData.get('file')]. *)
Definition POST (env : Env) (w : UploadWorld) (h : Headers)
    (file : option File) (s : Server Embedding)
    : HttpResponse Uploaded * Server Embedding :=
  let ip := getClientIP h in
  let '(rl, store) := checkRateLimit (now w) ip uploadRateLimit (rateLimitStore s) in
  let s := withStore s store in
  if negb (allowed rl) then (TooManyRequests (retryAfter (resetIn rl)), s)
  else
    match file with
    | None => (Failure 400 (js "No file provided"), s)
    | Some file =>
        match extractTextFromFile file with
        | Err e => (Failure 400 (message e), s)
        | Ok text =>
            if negb (truthy (trim text)) then (Failure 400 (js "File is empty"), s)
            else
              let chunks := Chunker.chunkText text 2000 in
              match getIndex (PINECONE_API_KEY env) ip with
              | Err e => (Failure 500 (message e), s)
              | Ok ix =>
                  match embedLoop env w (name file) chunks (length chunks) 0 [] with
                  | Err e => (Failure 500 (message e), s)
                  | Ok vectors =>
                      (Success {| u_documentName := name file;
                                  chunksCount := length chunks |},
                       withIndex s (upsert ix vectors (index s)))
                  end
              end
        end
    end.

Record DocumentSummary := { d_name : JSString; d_uploadedAt : JSString; chunks : nat }.

(** One turn of the aggregation loop of [GET] over the [documents] map,
    kept in insertion order. *)
Definition aggregate_step (documents : list DocumentSummary) (m : Match Embedding)
    : list DocumentSummary :=
  match m_metadata m with
  | None => documents
  | Some md =>
      let name := documentName md in
      if truthy name then
        if bool_decide (name ∈ d_name <$> documents) then
          (λ d, if bool_decide (d_name d = name)
                then {| d_name := d_name d; d_uploadedAt := d_uploadedAt d;
                        chunks := S (chunks d) |}
                else d) <$> documents
        else
          documents ++ [{| d_name := name;
                           d_uploadedAt := if truthy (uploadedAt md)
                                           then uploadedAt md else js "Unknown";
                           chunks := 1 |}]
      else documents
  end.

Record Listing := { documents : list DocumentSummary; totalVectors : nat }.

(** [GET]: list the documents. *)
Definition GET (env : Env) (now : Z) (h : Headers) (s : Server Embedding)
    : HttpResponse Listing * Server Embedding :=
  let ip := getClientIP h in
  let '(rl, store) := checkRateLimit now ip defaultConfig (rateLimitStore s) in
  let s := withStore s store in
  if negb (allowed rl) then (TooManyRequests (retryAfter (resetIn rl)), s)
  else
    match getIndex (PINECONE_API_KEY env) ip with
    | Err e => (Failure 500 (message e), s)
    | Ok ix =>
        let total := totalRecordCount (index s) in
        let matches := query ix zeroVector 100 None (index s) in
        (Success {| documents := fold_left aggregate_step matches [];
                    totalVectors := total |}, s)
    end.

Record Deleted := { deletedChunks : nat }.

(** [DELETE]: delete a document; [documentName] is the field of the JSON
    body, [None] when it is missing. *)
Definition DELETE (env : Env) (now : Z) (h : Headers)
    (documentName : option JSString) (s : Server Embedding)
    : HttpResponse Deleted * Server Embedding :=
  let ip := getClientIP h in
  let '(rl, store) := checkRateLimit now ip defaultConfig (rateLimitStore s) in
  let s := withStore s store in
  if negb (allowed rl) then (TooManyRequests (retryAfter (resetIn rl)), s)
  else
    match documentName with
    | None => (Failure 400 (js "Document name is required"), s)
    | Some documentName =>
        if negb (truthy documentName)
        then (Failure 400 (js "Document name is required"), s)
        else
          match getIndex (PINECONE_API_KEY env) ip with
          | Err e => (Failure 500 (message e), s)
          | Ok ix =>
              let matches := query ix zeroVector 1000 (Some documentName) (index s) in
              match matches with
              | [] => (Failure 404 (js "Document not found"), s)
              | _ :: _ =>
                  let idsToDelete := m_id <$> matches in
                  (Success {| deletedChunks := length idsToDelete |},
                   withIndex s (deleteMany ix (BareArray idsToDelete) (index s)))
              end
          end
    end.

End Routes.

Arguments UploadWorld : clear implicits.

End Documents.

(* ===================================================================== *)
(** * The ask route (app/api/ask/route.ts) *)
(* ===================================================================== *)

Module Ask.
Import RateLimit Embeddings Pinecone.

Section Route.
Context {Embedding : Type} `{!VectorIndex Embedding}.

Record Source := { s_documentName : JSString; s_chunk : JSString; s_score : Score }.

Record SourceTag := {
  t_documentName : JSString;
  t_chunk : JSString;
  relevanceScore : Z
}.

Record Answer := { answer : JSString; sources : list SourceTag }.

(** What the world supplies during one question: [Date.now()], the
    provider's answers to the requests for the question's embedding, and
    [generateAnswer] (lib/llm.ts, the answer-generation service). *)
Record AskWorld := {
  now : Z;
  fetch : nat → FetchResult Embedding;
  generateAnswer : JSString → list Source → Result JSString
}.

(** [POST]: answer a question; [question] is the field of the JSON body,
    [None] when it is missing or not a string. *)
Definition POST (env : Env) (w : AskWorld) (h : Headers)
    (question : option JSString) (s : Server Embedding)
    : HttpResponse Answer * Server Embedding :=
  let ip := getClientIP h in
  let '(rl, store) := checkRateLimit (now w) ip askRateLimit (rateLimitStore s) in
  let s := {| rateLimitStore := store; index := index s |} in
  if negb (allowed rl) then (TooManyRequests (retryAfter (resetIn rl)), s)
  else
    match question with
    | None => (Failure 400 (js "Question is required"), s)
    | Some question =>
        if negb (truthy question) then (Failure 400 (js "Question is required"), s)
        else
          let trimmedQuestion := trim question in
          if negb (truthy trimmedQuestion)
          then (Failure 400 (js "Question cannot be empty"), s)
          else if 1000 <? length trimmedQuestion
          then (Failure 400 (js "Question is too long (max 1000 characters)"), s)
          else
            match (getEmbedding (NVIDIA_API_KEY env) (fetch w)).1 with
            | Err e => (Failure 500 (message e), s)
            | Ok questionEmbedding =>
                match getIndex (PINECONE_API_KEY env) ip with
                | Err e => (Failure 500 (message e), s)
                | Ok ix =>
                    match query ix questionEmbedding 5 None (index s) with
                    | [] =>
                        (Success {| answer := js "No documents found. Please upload some documents first.";
                                    sources := [] |}, s)
                    | matches =>
                        let sources :=
                          omap (λ m : Match Embedding,
                                  (λ md, {| s_documentName := documentName md;
                                            s_chunk := chunk md;
                                            s_score := m_score m |})
                                    <$> m_metadata m) matches in
                        match generateAnswer w trimmedQuestion sources with
                        | Err e => (Failure 500 (message e), s)
                        | Ok answer =>
                            (Success {| answer := answer;
                                        sources :=
                                          (λ src, {| t_documentName := s_documentName src;
                                                     t_chunk := s_chunk src;
                                                     relevanceScore := percent (s_score src) |})
                                            <$> sources |}, s)
                        end
                    end
                end
            end
    end.

End Route.

Arguments AskWorld Embedding {_}.

End Ask.

(** A concrete index service for evaluating the routes on examples:
    vectors are lists of integers, the ranking keeps the order in which the
    partition enumerates its records and every score is [0]. *)
#[export] Instance enumerationOrder : Pinecone.VectorIndex (list Z) := {|
  Pinecone.zeroVector := replicate 1024 0%Z;
  Pinecone.Score := Z;
  Pinecone.score := λ _ _, 0%Z;
  Pinecone.percent := λ z, z;
  Pinecone.rank := λ _ l, l;
  Pinecone.rank_perm := λ _ l, reflexivity l
|}.

(** ** Sample data for the examples *)

Module Sample.
Import RateLimit Embeddings Pinecone Documents.

Definition env : Env :=
  {| NVIDIA_API_KEY := Some (js "nvapi-key"); PINECONE_API_KEY := Some (js "pc-key") |}.

(** Two callers. *)
Definition alice : Headers :=
  {| x_forwarded_for := Some (js "203.0.113.7, 10.0.0.1"); x_real_ip := None |}.
Definition bob : Headers :=
  {| x_forwarded_for := None; x_real_ip := Some (js "198.51.100.4") |}.

Definition emptyServer : Server (list Z) := {| rateLimitStore := ∅; index := ∅ |}.

(** What reading a body that is not the expected JSON throws. *)
Definition notJSON : Error := {| message := js "Unexpected token" |}.

(** Fails with status 503 on the first request, with status 429 on the
    second, and then succeeds. *)
Definition twiceBusy (attempt : nat) : FetchResult (list Z) :=
  match attempt with
  | 0 => Resolved {| status := 503; errorText := Ok (js "unavailable");
                     embedding := Err notJSON |}
  | 1 => Resolved {| status := 429; errorText := Ok (js "slow down");
                     embedding := Err notJSON |}
  | _ => Resolved {| status := 200; errorText := Ok []; embedding := Ok [1; 2; 3]%Z |}
  end.

(** A provider that answers every request with status 503. *)
Definition unavailable (attempt : nat) : FetchResult (list Z) :=
  Resolved {| status := 503; errorText := Ok (js "unavailable");
              embedding := Err notJSON |}.

(** A provider that refuses every request with status 400. *)
Definition refusing : UploadWorld (list Z) :=
  {| now := 0; uploadTimestamp := 1700000000000;
     isoString := λ _, js "2023-11-14T22:13:20.000Z";
     provider := λ _ _, Resolved {| status := 400; errorText := Ok (js "bad request");
                                    embedding := Err notJSON |} |}.

(** A provider that answers every request with a vector. *)
Definition answering : UploadWorld (list Z) :=
  {| now := 0; uploadTimestamp := 1700000000000;
     isoString := λ _, js "2023-11-14T22:13:20.000Z";
     provider := λ n _, Resolved {| status := 200; errorText := Ok [];
                                    embedding := Ok [Z.of_nat n] |} |}.

Definition notes : File := {| name := js "notes.txt"; raw := Ok (js "hello") |}.

(** The records of one document of 1001 chunks, as an upload writes them. *)
Definition bigDocument : gmap JSString (StoredRecord (list Z)) :=
  list_to_map
    ((λ i, record answering (js "big.txt") i (js "text") [Z.of_nat i]) <$> seq 0 1001).

Definition bigServer : Server (list Z) :=
  {| rateLimitStore := ∅; index := {[ getClientIP alice := bigDocument ]} |}.

End Sample.

(** ** Notions used to state further properties *)

(** The characters of a string that are not whitespace, in order. *)
Definition visible (s : JSString) : JSString := filter (λ c, is_space c = false) s.

(** Two, respectively three, line feeds in a row somewhere in the string. *)
Definition has_blank_line (s : JSString) : Prop :=
  ∃ pre post, s = pre ++ [LF; LF] ++ post.
Definition has_triple_LF (s : JSString) : Prop :=
  ∃ pre post, s = pre ++ [LF; LF; LF] ++ post.

(** The code units of the decimal digits. *)
Definition digit (c : N) : Prop := (48 ≤ c ≤ 57)%N.

(** The number of line feeds a string starts with. *)
Fixpoint leadingLF (s : JSString) : nat :=
  match s with
  | c :: s' => if is_LF c then S (leadingLF s') else 0
  | [] => 0
  end.

(** The file names [extractTextFromFile] hands to a parser. *)
Definition parsedKind (fileName : JSString) : bool :=
  Documents.endsWith (Documents.toLowerCase fileName) (js ".pdf")
  || Documents.endsWith (Documents.toLowerCase fileName) (js ".pptx")
  || Documents.endsWith (Documents.toLowerCase fileName) (js ".docx").

Section Counting.
Import Pinecone.
Context {Embedding : Type} `{!VectorIndex Embedding}.

(** A match that carries the document name [n], and their number in a
    query result. *)
Definition mentions (n : JSString) (m : Match Embedding) : bool :=
  match m_metadata m with
  | Some md => bool_decide (documentName md = n)
  | None => false
  end.

Definition countNamed (n : JSString) (ms : list (Match Embedding)) : nat :=
  length (List.filter (mentions n) ms).

End Counting.

Section Endings.
Import Embeddings.
Context {Embedding : Type}.

(** How a call of the retry loop can end: with what reading the body of
    an ok response gives, with the error of a response that is neither ok
    nor transient, with the error thrown while reading a failure's body,
    with the rejection of [fetch], or, the attempts used up, with the
    error of the last transient failure. *)
Inductive Ending (fetch : nat → FetchResult Embedding) (attempt remaining : nat) (lastError : option Error)
    : Result Embedding → Prop :=
| Answered k r :
    k < remaining → transient_run fetch attempt k →
    fetch (attempt + k) = Resolved r → (200 ≤ status r ≤ 299)%Z →
    Ending fetch attempt remaining lastError (embedding r)
| Refused k r text :
    k < remaining → transient_run fetch attempt k →
    fetch (attempt + k) = Resolved r →
    (status r < 200 ∨ 299 < status r < 500)%Z → status r ≠ 429%Z →
    errorText r = Ok text →
    Ending fetch attempt remaining lastError (Err (apiError text))
| Unreadable k r e :
    k < remaining → transient_run fetch attempt k →
    fetch (attempt + k) = Resolved r →
    (status r < 200 ∨ 299 < status r)%Z → errorText r = Err e →
    Ending fetch attempt remaining lastError (Err e)
| Unreachable k e :
    k < remaining → transient_run fetch attempt k →
    fetch (attempt + k) = Rejected e →
    Ending fetch attempt remaining lastError (Err e)
| Exhausted r text :
    0 < remaining → transient_run fetch attempt remaining →
    fetch (attempt + remaining - 1) = Resolved r → errorText r = Ok text →
    Ending fetch attempt remaining lastError (Err (apiError text))
| NoAttempt :
    remaining = 0 →
    Ending fetch attempt remaining lastError
      (Err (default (apiError (js "max retries exceeded")) lastError)).

End Endings.

(* ===================================================================== *)
(** * Facts about strings *)
(* ===================================================================== *)

Section StringFacts.
Implicit Types (s t : JSString) (c : N).

Lemma is_LF_space c : is_LF c = true → is_space c = true.
Proof. unfold is_LF. intros ->%N.eqb_eq. reflexivity. Qed.

Lemma trimStart_nil s : trimStart s = [] ↔ blank s.
Proof.
  unfold blank. induction s as [|c s IH]; simpl.
  - split; [constructor | done].
  - destruct (is_space c) eqn:Hc.
    + rewrite IH. split; [by constructor | by inversion 1].
    + split; [done | inversion 1; congruence].
Qed.

Lemma trimEnd_nil s : trimEnd s = [] ↔ blank s.
Proof.
  unfold blank. induction s as [|c s IH]; simpl.
  - split; [constructor | done].
  - destruct (trimEnd s) eqn:Hs.
    + destruct (is_space c) eqn:Hc.
      * split; [intros _; constructor; [done | by apply IH] | done].
      * split; [done | inversion 1; congruence].
    + split; [done |]. inversion 1 as [|? ? ? Hs']; subst.
      apply IH in Hs'. done.
Qed.

Lemma trimStart_head s :
  trimStart s = [] ∨ ∃ c r, trimStart s = c :: r ∧ is_space c = false.
Proof.
  induction s as [|c s IH]; simpl; [by left |].
  destruct (is_space c) eqn:Hc; [done | right; eauto].
Qed.

Lemma trimStart_blank_prefix s : ∃ pre, s = pre ++ trimStart s ∧ blank pre.
Proof.
  induction s as [|c s (pre & Hpre & Hb)]; simpl.
  - exists []. split; [done | constructor].
  - destruct (is_space c) eqn:Hc.
    + exists (c :: pre). split; [simpl; congruence | by constructor].
    + exists []. split; [done | constructor].
Qed.

Lemma trim_nil s : trim s = [] ↔ blank s.
Proof.
  unfold trim. rewrite trimEnd_nil. split.
  - intros Hb. destruct (trimStart_head s) as [Hn | (c & r & Hr & Hc)].
    + by apply trimStart_nil.
    + rewrite Hr in Hb. inversion Hb; congruence.
  - intros Hb. apply trimStart_nil in Hb. rewrite Hb. constructor.
Qed.

Lemma trimEnd_cons_nonspace c s :
  is_space c = false → trimEnd (c :: s) = c :: trimEnd s.
Proof. intros Hc. simpl. rewrite Hc. by destruct (trimEnd s). Qed.

Lemma trimEnd_idemp s : trimEnd (trimEnd s) = trimEnd s.
Proof.
  induction s as [|c s IH]; simpl; [done |].
  destruct (trimEnd s) as [|d r] eqn:Hs.
  - destruct (is_space c) eqn:Hc; simpl; [done | by rewrite Hc].
  - change (trimEnd (c :: d :: r)) with
      (match trimEnd (d :: r) with
       | [] => if is_space c then [] else [c]
       | r' => c :: r'
       end).
    by rewrite IH.
Qed.

Lemma trim_idemp s : trim (trim s) = trim s.
Proof.
  unfold trim. destruct (trimStart_head s) as [-> | (c & r & -> & Hc)]; [done |].
  rewrite (trimEnd_cons_nonspace c r Hc). simpl trimStart. rewrite Hc.
  by rewrite (trimEnd_cons_nonspace _ _ Hc), trimEnd_idemp.
Qed.

Lemma trimmed_trim s : trimmed (trim s).
Proof. apply trim_idemp. Qed.

Lemma spaceless_trimmed s : spaceless s → trimmed s.
Proof.
  unfold spaceless, trimmed, trim. intros Hs.
  assert (trimStart s = s) as ->.
  { destruct Hs as [|c s Hc _]; simpl; [done | by rewrite Hc]. }
  induction Hs as [|c s Hc _ IH]; [done |].
  by rewrite (trimEnd_cons_nonspace _ _ Hc), IH.
Qed.

Lemma spaceless_slice s i j : spaceless s → spaceless (slice s i j).
Proof. intros Hs. by apply Forall_take, Forall_drop. Qed.

Lemma spaceless_blank_nil s : spaceless s → blank s → s = [].
Proof.
  destruct s as [|c s]; [done |]. inversion 1; inversion 1; congruence.
Qed.

Lemma blank_app s t : blank (s ++ t) ↔ blank s ∧ blank t.
Proof. apply Forall_app. Qed.

Lemma length_trimStart s : length (trimStart s) ≤ length s.
Proof.
  induction s as [|c s IH]; simpl; [done |].
  destruct (is_space c); simpl; lia.
Qed.

Lemma length_trimEnd s : length (trimEnd s) ≤ length s.
Proof.
  induction s as [|c s IH]; simpl; [done |].
  destruct (trimEnd s); [destruct (is_space c) |]; simpl in *; lia.
Qed.

Lemma length_trim s : length (trim s) ≤ length s.
Proof.
  unfold trim. etrans; [apply length_trimEnd | apply length_trimStart].
Qed.

Lemma cons_head_Forall (P : JSString → Prop) c ps :
  (∀ p, P p → P (c :: p)) → P [c] → Forall P ps → Forall P (cons_head c ps).
Proof.
  intros Hc H1 [|p ps' Hp Hps]; simpl; constructor; auto.
Qed.

Lemma split_ws_from_spaceless b s : Forall spaceless (split_ws_from b s).
Proof.
  revert b. induction s as [|c s IH]; intros b; simpl.
  - repeat constructor.
  - destruct (is_space c) eqn:Hc.
    + destruct b; [apply IH | constructor; [constructor | apply IH]].
    + apply cons_head_Forall; [| | apply IH].
      * intros p Hp. by constructor.
      * by repeat constructor.
Qed.

Lemma split_ws_spaceless s : Forall spaceless (split_ws s).
Proof. apply split_ws_from_spaceless. Qed.

Lemma split_ws_from_all_nil b s :
  Forall (λ w, w = []) (split_ws_from b s) → blank s.
Proof.
  revert b. induction s as [|c s IH]; intros b; simpl; [constructor |].
  destruct (is_space c) eqn:Hc.
  - destruct b; intros H; constructor; try done.
    + by apply (IH true).
    + inversion H; subst. by apply (IH true).
  - destruct (split_ws_from false s); simpl; inversion 1; done.
Qed.

Lemma split_blank_from_blank b s :
  Forall blank (split_blank_from b s) → blank s.
Proof.
  revert b. induction s as [|c s IH]; intros b; simpl; [constructor |].
  destruct (is_LF c && b) eqn:H1.
  { apply andb_true_iff in H1 as [Hc ->]. intros H.
    constructor; [by apply is_LF_space | by apply (IH true)]. }
  destruct (is_LF c && starts_with_LF s) eqn:H2.
  { apply andb_true_iff in H2 as [Hc _]. inversion 1; subst.
    constructor; [by apply is_LF_space | by apply (IH true)]. }
  destruct (split_blank_from false s) as [|p ps] eqn:Hs; simpl.
  - inversion 1 as [|? ? Hb _]; subst. inversion Hb; subst.
    constructor; [done |]. apply (IH false). rewrite Hs. constructor.
  - inversion 1 as [|? ? Hb Hps]; subst. inversion Hb; subst.
    constructor; [done |]. apply (IH false). rewrite Hs. by constructor.
Qed.

Lemma split_blank_blank s : Forall blank (split_blank s) → blank s.
Proof. apply split_blank_from_blank. Qed.

Lemma blank_split_ws_from b s :
  blank s → Forall (λ w, w = []) (split_ws_from b s).
Proof.
  intros Hs. revert b. induction Hs as [|c s Hc _ IH]; intros b; simpl.
  - by repeat constructor.
  - rewrite Hc. destruct b; [apply IH | constructor; [done | apply IH]].
Qed.

Lemma blank_split_blank_from b s :
  blank s → Forall blank (split_blank_from b s).
Proof.
  intros Hs. revert b. induction Hs as [|c s Hc _ IH]; intros b; simpl.
  - by repeat constructor.
  - destruct (is_LF c && b); [apply IH |].
    destruct (is_LF c && starts_with_LF s).
    + constructor; [constructor | apply IH].
    + apply cons_head_Forall; [| | apply IH].
      * intros p Hp. by constructor.
      * by repeat constructor.
Qed.

End StringFacts.

(* ===================================================================== *)
(** * Facts about the chunker *)
(* ===================================================================== *)

Section ChunkerFacts.
Import Chunker.
Implicit Types (s t word para text current : JSString) (max : nat).

(** Loop invariants for [fold_left]: the invariant may mention the items
    consumed so far. *)
Lemma fold_left_inv {A B} (f : A → B → A) (I : list B → A → Prop) l a :
  I [] a →
  (∀ pre b a, I pre a → b ∈ l → I (pre ++ [b]) (f a b)) →
  I l (fold_left f l a).
Proof.
  induction l as [|x l IH] using rev_ind; intros H0 Hstep; [done |].
  rewrite fold_left_app. simpl. apply Hstep.
  - apply IH; [done |]. intros pre b a' Ha Hb. apply Hstep; [done |].
    apply elem_of_app. by left.
  - apply elem_of_app. right. by apply list_elem_of_singleton.
Qed.

Lemma Forall_push (P : JSString → Prop) (b : bool) result x :
  Forall P result → (b = true → P x) →
  Forall P (if b then result ++ [x] else result).
Proof.
  intros Hr Hx. destruct b; [|done].
  apply Forall_app. split; [done | constructor; auto].
Qed.

Lemma push_nil (b : bool) (result : list JSString) x :
  (if b then result ++ [x] else result) = [] → b = false ∧ result = [].
Proof. destruct b; [by destruct result | done]. Qed.

Lemma truthy_true s : truthy s = true ↔ s ≠ [].
Proof. by destruct s. Qed.

Lemma truthy_false s : truthy s = false ↔ s = [].
Proof. by destruct s. Qed.

Lemma sliceLoop_Forall (P : JSString → Prop) word max fuel i :
  (∀ i, i < length word → P (slice word i (i + max))) →
  Forall P (sliceLoop fuel word max i).
Proof.
  intros HP. revert i. induction fuel as [|fuel IH]; intros i; simpl; [constructor |].
  destruct (Nat.ltb_spec i (length word)); [|constructor].
  constructor; [by apply HP | apply IH].
Qed.

(** With [max >= 1] the slicing loop ends on its own: any fuel from
    [length word - i] on gives the same pieces. *)
Lemma sliceLoop_fuel word max fuel1 fuel2 i :
  1 ≤ max → length word - i ≤ fuel1 → length word - i ≤ fuel2 →
  sliceLoop fuel1 word max i = sliceLoop fuel2 word max i.
Proof.
  intros Hmax. revert fuel2 i.
  induction fuel1 as [|fuel1 IH]; intros [|fuel2] i H1 H2; simpl; try done.
  - destruct (Nat.ltb_spec i (length word)); [lia | done].
  - destruct (Nat.ltb_spec i (length word)); [lia | done].
  - destruct (Nat.ltb_spec i (length word)); [|done].
    f_equal. apply IH; lia.
Qed.

Lemma slice_nonempty word max i :
  1 ≤ max → i < length word → slice word i (i + max) ≠ [].
Proof.
  intros Hmax Hi Hnil. apply (f_equal length) in Hnil.
  unfold slice in Hnil. rewrite length_take, length_drop in Hnil.
  simpl in Hnil. lia.
Qed.

Lemma slice_length word max i : length (slice word i (i + max)) ≤ max.
Proof. unfold slice. rewrite length_take. lia. Qed.

Lemma hardSplit_not_nil word max : 0 < length word → hardSplit word max ≠ [].
Proof.
  unfold hardSplit. destruct word as [|c word]; simpl; [lia | done].
Qed.

(** The pieces of a hard split put together give the word back. *)
Lemma sliceLoop_concat word max fuel i :
  1 ≤ max → length word - i ≤ fuel →
  concat (sliceLoop fuel word max i) = drop i word.
Proof.
  intros Hmax. revert i. induction fuel as [|fuel IH]; intros i Hf; simpl.
  - rewrite drop_ge; [done | lia].
  - destruct (Nat.ltb_spec i (length word)).
    + simpl. rewrite IH by lia. unfold slice.
      replace (i + max - i) with max by lia.
      rewrite <- (take_drop max (drop i word)) at 2.
      by rewrite drop_drop.
    + rewrite drop_ge; [done | lia].
Qed.

Lemma hardSplit_concat word max : 1 ≤ max → concat (hardSplit word max) = word.
Proof. intros Hmax. unfold hardSplit. rewrite sliceLoop_concat; [done.. | lia]. Qed.

(** ** [splitByLength] *)

Lemma splitByLength_trimmed str max : Forall trimmed (splitByLength str max).
Proof.
  unfold splitByLength.
  pose proof (fold_left_inv (splitByLength_step max)
    (λ _ st, Forall trimmed st.1) (split_ws str) ([], [])) as Hinv.
  destruct (fold_left _ _ _) as [result current]. simpl in Hinv.
  apply Forall_push; [|intros _; apply trimmed_trim].
  apply Hinv; [constructor |]. clear.
  intros _ word [result current] Hr Hw. simpl in Hr.
  assert (spaceless word) as Hsp.
  { by eapply (proj1 (Forall_forall _ _) (split_ws_spaceless str)). }
  unfold splitByLength_step.
  destruct (max <? length word); [|destruct (max <? _)]; simpl; [| |done].
  - apply Forall_app. split.
    + apply Forall_push; [done | intros _; apply trimmed_trim].
    + apply sliceLoop_Forall. intros i _.
      by apply spaceless_trimmed, spaceless_slice.
  - apply Forall_push; [done | intros _; apply trimmed_trim].
Qed.

Lemma solid_trim s : solid s → truthy s = true → trim s ≠ [].
Proof.
  intros [-> | Hs]; [done |]. intros _ Hn. by apply Hs, trim_nil.
Qed.

Lemma solid_cons c s : is_space c = false → solid (c :: s).
Proof. intros Hc. right. inversion 1; congruence. Qed.

Lemma solid_spaceless s : spaceless s → solid s.
Proof.
  intros Hs. destruct s as [|c s]; [by left | right].
  intros Hb. by pose proof (spaceless_blank_nil _ Hs Hb).
Qed.

Lemma solid_join current sep s :
  solid current → solid s →
  solid (current ++ (if truthy current then sep else []) ++ s).
Proof.
  intros [-> | Hc] Hs; [done |]. right.
  intros [Hb _]%blank_app. done.
Qed.

Lemma splitByLength_nonempty str max :
  1 ≤ max → Forall (λ c, c ≠ []) (splitByLength str max).
Proof.
  intros Hmax. unfold splitByLength.
  pose proof (fold_left_inv (splitByLength_step max)
    (λ _ st, Forall (λ c, c ≠ []) st.1 ∧ solid st.2) (split_ws str) ([], [])) as Hinv.
  destruct (fold_left _ _ _) as [result current]. simpl in Hinv.
  destruct Hinv as [Hr Hc].
  { split; [constructor | by left]. }
  { clear -Hmax.
    intros _ word [result current] [Hr Hc] Hw. simpl in Hr, Hc.
    assert (spaceless word) as Hsp.
    { by eapply (proj1 (Forall_forall _ _) (split_ws_spaceless str)). }
    unfold splitByLength_step.
    destruct (Nat.ltb_spec max (length word)); [|destruct (max <? _)]; simpl.
    - split; [|by left]. apply Forall_app. split.
      + apply Forall_push; [done | by apply solid_trim].
      + apply sliceLoop_Forall. intros i Hi. by apply slice_nonempty.
    - split; [|by apply solid_spaceless].
      apply Forall_push; [done | by apply solid_trim].
    - split; [done |]. by apply solid_join, solid_spaceless. }
  apply Forall_push; [done |]. by intros ?%truthy_true.
Qed.

Lemma splitByLength_nil str max : splitByLength str max = [] → blank str.
Proof.
  unfold splitByLength.
  pose proof (fold_left_inv (splitByLength_step max)
    (λ pre st, st.1 = [] → blank st.2 → Forall (λ w, w = []) pre)
    (split_ws str) ([], [])) as Hinv.
  destruct (fold_left _ _ _) as [result current]. simpl in Hinv.
  intros [Ht ->]%push_nil. apply truthy_false, trim_nil in Ht.
  apply (split_ws_from_all_nil false). apply Hinv; [done | | done | done].
  clear. intros pre word [result current] IH Hw. simpl in IH.
  assert (spaceless word) as Hsp.
  { by eapply (proj1 (Forall_forall _ _) (split_ws_spaceless str)). }
  unfold splitByLength_step.
  destruct (Nat.ltb_spec max (length word)); [|destruct (max <? _)]; simpl.
  - intros [_ Hh]%app_eq_nil. apply hardSplit_not_nil in Hh; [done | lia].
  - intros [Ht ->]%push_nil Hb. apply truthy_false in Ht as ->.
    apply Forall_app. split; [apply IH; [done | constructor] |].
    constructor; [by apply spaceless_blank_nil | constructor].
  - intros -> [Hb1 [_ Hb2]%blank_app]%blank_app.
    apply Forall_app. split; [by apply IH |].
    constructor; [by apply spaceless_blank_nil | constructor].
Qed.

(** ** [chunkText] *)

Lemma chunkText_loop_nil text maxLength chunks currentChunk :
  chunkText_loop text maxLength = (chunks, currentChunk) →
  chunks = [] → blank currentChunk → blank text.
Proof.
  unfold chunkText_loop.
  pose proof (fold_left_inv (chunkText_step maxLength)
    (λ pre st, st.1 = [] → blank st.2 → Forall blank pre)
    (split_blank text) ([], [])) as Hinv.
  intros Heq. rewrite Heq in Hinv. simpl in Hinv.
  intros Hc Hb. apply split_blank_blank. apply Hinv; [done | | done | done].
  clear. intros pre para [chunks cc] IH _. simpl in IH.
  unfold chunkText_step.
  destruct (maxLength <? length para); [|destruct (_ && _) eqn:Hcond]; simpl.
  - intros [[Ht ->]%push_nil Hs]%app_eq_nil _.
    apply truthy_false in Ht as ->. apply splitByLength_nil in Hs.
    apply Forall_app. split; [apply IH; [done | constructor] | by constructor].
  - intros Hn. by destruct chunks.
  - intros -> [Hb1 [_ Hb2]%blank_app]%blank_app.
    apply Forall_app. split; [by apply IH | by constructor].
Qed.

Lemma chunkText_loop_trimmed text maxLength chunks currentChunk :
  chunkText_loop text maxLength = (chunks, currentChunk) → Forall trimmed chunks.
Proof.
  unfold chunkText_loop. intros Hloop.
  pose proof (fold_left_inv (chunkText_step maxLength)
    (λ _ st, Forall trimmed st.1) (split_blank text) ([], [])) as Hinv.
  rewrite Hloop in Hinv. apply Hinv; [constructor |]. clear.
  intros _ para [chunks cc] Hr _. simpl in Hr. unfold chunkText_step.
  destruct (maxLength <? length para); [|destruct (_ && _)]; simpl; [| |done].
  - apply Forall_app. split; [|apply splitByLength_trimmed].
    apply Forall_push; [done | intros _; apply trimmed_trim].
  - apply Forall_app. split; [done |]. constructor; [apply trimmed_trim | constructor].
Qed.

Lemma chunkText_nonempty text maxLength :
  1 ≤ maxLength →
  trim text ≠ [] →
  Forall solid (split_blank text) →
  Forall (λ c, c ≠ []) (chunkText text maxLength).
Proof.
  intros Hmax Htext Hparas. unfold chunkText.
  destruct (chunkText_loop text maxLength) as [chunks cc] eqn:Hloop.
  assert (Forall (λ c, c ≠ []) chunks) as Hchunks.
  { unfold chunkText_loop in Hloop.
    pose proof (fold_left_inv (chunkText_step maxLength)
      (λ _ st, Forall (λ c, c ≠ []) st.1 ∧ solid st.2)
      (split_blank text) ([], [])) as Hinv.
    rewrite Hloop in Hinv. apply Hinv; [split; [constructor | by left] |].
    clear -Hmax Hparas.
    intros _ para [chunks cc] [Hr Hc] Hp. simpl in Hr, Hc.
    assert (solid para) as Hsol by by eapply (proj1 (Forall_forall _ _) Hparas).
    unfold chunkText_step.
    destruct (maxLength <? length para); [|destruct (_ && _) eqn:Hcond]; simpl.
    - split; [|by left]. apply Forall_app. split.
      + apply Forall_push; [done | by apply solid_trim].
      + by apply splitByLength_nonempty.
    - apply andb_true_iff in Hcond as [_ Ht]. split; [|done].
      apply Forall_app. split; [done |].
      constructor; [by apply solid_trim | constructor].
    - split; [done |]. by apply solid_join. }
  destruct (if truthy (trim cc) then chunks ++ [trim cc] else chunks)
    as [|c chunks'] eqn:Hfinal.
  - apply push_nil in Hfinal as [Ht ->]. apply truthy_false, trim_nil in Ht.
    pose proof (chunkText_loop_nil _ _ _ _ Hloop eq_refl Ht) as Hb.
    by apply trim_nil in Hb.
  - rewrite <- Hfinal. apply Forall_push; [done |]. by intros ?%truthy_true.
Qed.

(** ** Whitespace-only input *)

Lemma splitByLength_blank str max : blank str → splitByLength str max = [].
Proof.
  intros Hb. unfold splitByLength.
  pose proof (fold_left_inv (splitByLength_step max)
    (λ _ st, st = ([], [])) (split_ws str) ([], [])) as Hinv.
  rewrite Hinv; [done.. |]. clear Hinv.
  intros _ word st -> Hw.
  assert (word = []) as ->.
  { by eapply (proj1 (Forall_forall _ _) (blank_split_ws_from false str Hb)). }
  unfold splitByLength_step. simpl. by destruct (max <? 1).
Qed.

Lemma chunkText_blank text maxLength :
  blank text → Forall (λ c, c = []) (chunkText text maxLength).
Proof.
  intros Hb. unfold chunkText.
  destruct (chunkText_loop text maxLength) as [chunks cc] eqn:Hloop.
  assert (Forall (λ c, c = []) chunks ∧ blank cc) as [Hchunks Hcc].
  { unfold chunkText_loop in Hloop.
    pose proof (fold_left_inv (chunkText_step maxLength)
      (λ _ st, Forall (λ c, c = []) st.1 ∧ blank st.2)
      (split_blank text) ([], [])) as Hinv.
    rewrite Hloop in Hinv. apply Hinv; [split; constructor |].
    clear -Hb. intros _ para [chunks cc] [Hr Hc] Hp. simpl in Hr, Hc.
    assert (blank para) as Hpara.
    { by eapply (proj1 (Forall_forall _ _) (blank_split_blank_from false text Hb)). }
    unfold chunkText_step.
    destruct (maxLength <? length para); [|destruct (_ && _)]; simpl.
    - split; [|constructor]. rewrite splitByLength_blank, app_nil_r by done.
      apply Forall_push; [done | intros _; by apply trim_nil].
    - split; [|done]. apply Forall_app. split; [done |].
      constructor; [by apply trim_nil | constructor].
    - split; [done |]. apply blank_app. split; [done |].
      apply blank_app. split; [|done].
      destruct (truthy cc); by repeat constructor. }
  apply trim_nil in Hcc. rewrite Hcc. simpl.
  destruct chunks as [|c chunks]; [|done].
  apply trim_nil in Hb. rewrite Hb. unfold slice. rewrite drop_nil, take_nil.
  by constructor.
Qed.

(** ** Lengths *)

Lemma splitByLength_length str max :
  Forall (λ c, length c ≤ max) (splitByLength str max).
Proof.
  unfold splitByLength.
  pose proof (fold_left_inv (splitByLength_step max)
    (λ _ st, Forall (λ c, length c ≤ max) st.1 ∧ length st.2 ≤ max)
    (split_ws str) ([], [])) as Hinv.
  destruct (fold_left _ _ _) as [result current]. simpl in Hinv.
  destruct Hinv as [Hr Hc].
  { split; [constructor | simpl; lia]. }
  { clear. intros _ word [result current] [Hr Hc] _. simpl in Hr, Hc.
    unfold splitByLength_step.
    destruct (Nat.ltb_spec max (length word));
      [|destruct (Nat.ltb_spec max (length current + length word + 1))]; simpl.
    - split; [|lia]. apply Forall_app. split.
      + apply Forall_push; [done |]. intros _.
        pose proof (length_trim current). lia.
      + apply sliceLoop_Forall. intros i _. apply slice_length.
    - split; [|lia]. apply Forall_push; [done |]. intros _.
      pose proof (length_trim current). lia.
    - split; [done |]. rewrite !length_app.
      destruct (truthy current); simpl; lia. }
  apply Forall_push; [done |]. intros _. pose proof (length_trim current). lia.
Qed.

(** The paragraph packer compares [currentChunk.length + para.length]
    with the limit and then joins with two line feeds: a chunk can pass
    the limit, by two characters at most. *)
Lemma chunkText_length text maxLength :
  Forall (λ c, length c ≤ maxLength + 2) (chunkText text maxLength).
Proof.
  unfold chunkText.
  destruct (chunkText_loop text maxLength) as [chunks cc] eqn:Hloop.
  assert (Forall (λ c, length c ≤ maxLength + 2) chunks
          ∧ length cc ≤ maxLength + 2) as [Hchunks Hcc].
  { unfold chunkText_loop in Hloop.
    pose proof (fold_left_inv (chunkText_step maxLength)
      (λ _ st, Forall (λ c, length c ≤ maxLength + 2) st.1
               ∧ length st.2 ≤ maxLength + 2)
      (split_blank text) ([], [])) as Hinv.
    rewrite Hloop in Hinv. apply Hinv; [split; [constructor | simpl; lia] |].
    clear. intros _ para [chunks cc] [Hr Hc] _. simpl in Hr, Hc.
    unfold chunkText_step.
    destruct (Nat.ltb_spec maxLength (length para)); simpl.
    - split; [|lia]. apply Forall_app. split.
      + apply Forall_push; [done |]. intros _.
        pose proof (length_trim cc). lia.
      + eapply Forall_impl; [apply splitByLength_length |]. simpl. lia.
    - destruct (Nat.ltb_spec maxLength (length cc + length para)); simpl.
      + destruct cc as [|c cc]; simpl in *.
        * split; [done | lia].
        * split; [|lia]. apply Forall_app. split; [done |].
          constructor; [|constructor].
          pose proof (length_trim (c :: cc)). simpl in *. lia.
      + split; [done |]. rewrite !length_app.
        destruct (truthy cc); simpl; lia. }
  destruct (if truthy (trim cc) then chunks ++ [trim cc] else chunks)
    as [|c chunks'] eqn:Hfinal.
  - constructor; [|constructor]. pose proof (slice_length (trim text) maxLength 0).
    simpl in *. lia.
  - rewrite <- Hfinal. apply Forall_push; [done |]. intros _.
    pose proof (length_trim cc). lia.
Qed.

End ChunkerFacts.

(* ===================================================================== *)
(** * Facts about the rate governor *)
(* ===================================================================== *)

Section RateLimitFacts.
Import RateLimit.
Implicit Types (store : gmap JSString RateLimitEntry) (ip : JSString)
  (config : RateLimitConfig) (now : Z) (e : RateLimitEntry).

(** The clean-up keeps every entry whose window has not elapsed. *)
Lemma cleanup_lookup_live now store ip e :
  store !! ip = Some e → (now ≤ resetTime e)%Z → cleanup now store !! ip = Some e.
Proof.
  intros Hip Hlive. unfold cleanup. destruct (_ <? _)%Z; [|done].
  apply map_lookup_filter_Some. split; [done | simpl; lia].
Qed.

Lemma checkRateLimit_fresh now ip config store :
  store !! ip = None →
  checkRateLimit now ip config store =
    ({| allowed := true; remaining := maxRequests config - 1;
        resetIn := windowMs config |},
     <[ip := {| count := 1; resetTime := now + windowMs config |}]> (cleanup now store)).
Proof. intros Hip. unfold checkRateLimit. by rewrite Hip. Qed.

Lemma checkRateLimit_elapsed now ip config store e :
  store !! ip = Some e → (resetTime e < now)%Z →
  checkRateLimit now ip config store =
    ({| allowed := true; remaining := maxRequests config - 1;
        resetIn := windowMs config |},
     <[ip := {| count := 1; resetTime := now + windowMs config |}]> (cleanup now store)).
Proof.
  intros Hip Hlt. unfold checkRateLimit. rewrite Hip.
  by destruct (Z.ltb_spec (resetTime e) now); [|lia].
Qed.

Lemma checkRateLimit_denied now ip config store e :
  store !! ip = Some e → (now ≤ resetTime e)%Z → (maxRequests config ≤ count e)%Z →
  checkRateLimit now ip config store =
    ({| allowed := false; remaining := 0; resetIn := resetTime e - now |},
     cleanup now store).
Proof.
  intros Hip Hlive Hfull. unfold checkRateLimit. rewrite Hip.
  destruct (Z.ltb_spec (resetTime e) now); [lia |].
  by destruct (Z.leb_spec (maxRequests config) (count e)); [|lia].
Qed.

Lemma checkRateLimit_counted now ip config store e :
  store !! ip = Some e → (now ≤ resetTime e)%Z → (count e < maxRequests config)%Z →
  checkRateLimit now ip config store =
    ({| allowed := true; remaining := maxRequests config - (count e + 1);
        resetIn := resetTime e - now |},
     <[ip := {| count := count e + 1; resetTime := resetTime e |}]> (cleanup now store)).
Proof.
  intros Hip Hlive Hroom. unfold checkRateLimit. rewrite Hip.
  destruct (Z.ltb_spec (resetTime e) now); [lia |].
  by destruct (Z.leb_spec (maxRequests config) (count e)); [lia |].
Qed.

(** A run of calls inside a live window: the window end stays put, the
    counter climbs to the limit and stops there. *)
Lemma checkMany_live ip config times :
  ∀ store e rs store',
    store !! ip = Some e →
    Forall (λ t, t ≤ resetTime e)%Z times →
    checkMany ip config times store = (rs, store') →
    length rs = length times
    ∧ (∀ i r, rs !! i = Some r →
         allowed r = bool_decide (count e + Z.of_nat i < maxRequests config)%Z)
    ∧ (∀ i r t, rs !! i = Some r → times !! i = Some t →
         resetIn r = (resetTime e - t)%Z)
    ∧ ∃ e', store' !! ip = Some e'
            ∧ resetTime e' = resetTime e
            ∧ count e' = Z.max (count e)
                           (Z.min (count e + Z.of_nat (length times))
                                  (maxRequests config)).
Proof.
  induction times as [|t times IH]; intros store e rs store' Hip Hlive Hrun.
  - simpl in Hrun. injection Hrun as <- <-.
    split; [done |]. split; [done |]. split; [done |].
    exists e. split; [done |]. split; [done |]. simpl. lia.
  - apply Forall_cons in Hlive as [Ht Hlive]. simpl in Hrun.
    destruct (checkRateLimit t ip config store) as [r0 store1] eqn:Hstep.
    destruct (checkMany ip config times store1) as [rs1 store2] eqn:Hrest.
    injection Hrun as <- <-.
    destruct (Z_lt_le_dec (count e) (maxRequests config)) as [Hroom | Hfull].
    + rewrite (checkRateLimit_counted _ _ _ _ _ Hip Ht Hroom) in Hstep.
      injection Hstep as <- <-.
      destruct (IH _ {| count := count e + 1; resetTime := resetTime e |} _ _
                  (lookup_insert_eq _ _ _) Hlive Hrest)
        as (Hlen & Hallow & Hreset & e' & He' & Hre' & Hce').
      simpl in *. split; [by rewrite Hlen |].
      split; [|split].
      * intros [|i] r Hr; simpl in Hr.
        -- injection Hr as <-. simpl. rewrite bool_decide_eq_true_2; [done | lia].
        -- rewrite (Hallow _ _ Hr). apply bool_decide_ext. lia.
      * intros [|i] r t' Hr Ht'; simpl in Hr, Ht'.
        -- by injection Hr as <-; injection Ht' as <-.
        -- by eapply Hreset.
      * exists e'. split; [done |]. split; [done |]. lia.
    + rewrite (checkRateLimit_denied _ _ _ _ _ Hip Ht Hfull) in Hstep.
      injection Hstep as <- <-.
      destruct (IH _ e _ _ (cleanup_lookup_live _ _ _ _ Hip Ht) Hlive Hrest)
        as (Hlen & Hallow & Hreset & e' & He' & Hre' & Hce').
      split; [simpl; by rewrite Hlen |].
      split; [|split].
      * intros [|i] r Hr; simpl in Hr.
        -- injection Hr as <-. simpl. rewrite bool_decide_eq_false_2; [done | lia].
        -- rewrite (Hallow _ _ Hr). apply bool_decide_ext. lia.
      * intros [|i] r t' Hr Ht'; simpl in Hr, Ht'.
        -- by injection Hr as <-; injection Ht' as <-.
        -- by eapply Hreset.
      * exists e'. split; [done |]. split; [done |]. simpl length. lia.
Qed.

End RateLimitFacts.

(* ===================================================================== *)
(** * Facts about the embedding gateway *)
(* ===================================================================== *)

Section GatewayFacts.
Import Embeddings.
Context {Embedding : Type}.
Implicit Types (fetch : nat → FetchResult Embedding) (r : Response Embedding).

Lemma retryable_not_ok r : retryable r = true → ok r = false.
Proof.
  unfold retryable, ok. intros H. apply andb_false_iff.
  apply orb_true_iff in H as [H%Z.eqb_eq | H%Z.leb_le].
  - right. apply Z.leb_gt. lia.
  - right. apply Z.leb_gt. lia.
Qed.

(** The retry test of the source, by status. *)
Lemma retryable_iff r : retryable r = true ↔ (status r = 429 ∨ 500 ≤ status r)%Z.
Proof.
  unfold retryable. rewrite orb_true_iff, Z.eqb_eq, Z.leb_le. done.
Qed.

Lemma ok_iff r : ok r = true ↔ (200 ≤ status r ≤ 299)%Z.
Proof. unfold ok. rewrite andb_true_iff, !Z.leb_le. done. Qed.

Lemma transient_step r :
  transient r → ∃ text, ok r = false ∧ errorText r = Ok text ∧ retryable r = true.
Proof.
  intros [Hstatus [text Htext]]. exists text.
  apply retryable_iff in Hstatus. by rewrite (retryable_not_ok _ Hstatus).
Qed.

Lemma backoffTrace_S attempt k :
  backoffTrace attempt (S k)
  = EvFetch attempt :: EvSleep (INITIAL_BACKOFF_MS * 2 ^ Z.of_nat attempt)
      :: backoffTrace (S attempt) k.
Proof.
  unfold backoffTrace. simpl. rewrite Nat.add_0_r. do 2 f_equal.
  rewrite <- seq_shift, flat_map_concat_map, map_map, <- flat_map_concat_map.
  apply flat_map_ext. intros i. by rewrite Nat.add_succ_r.
Qed.

Lemma attempts_backoffTrace attempt k (evs : list (@Event)) :
  attempts (backoffTrace attempt k ++ evs) = k + attempts evs.
Proof.
  revert attempt. induction k as [|k IH]; intros attempt; [done |].
  rewrite backoffTrace_S. unfold attempts in *. simpl. by rewrite IH.
Qed.

Lemma sleeps_backoffTrace attempt k (evs : list (@Event)) :
  sleeps (backoffTrace attempt k ++ evs)
  = ((λ i, INITIAL_BACKOFF_MS * 2 ^ Z.of_nat (attempt + i))%Z <$> seq 0 k) ++ sleeps evs.
Proof.
  revert attempt. induction k as [|k IH]; intros attempt; [done |].
  rewrite backoffTrace_S. unfold sleeps in *. simpl. rewrite IH, Nat.add_0_r.
  do 2 f_equal. rewrite <- seq_shift, <- list_fmap_compose.
  apply list_fmap_ext. intros _ i _. simpl. by rewrite Nat.add_succ_r.
Qed.

(** A run of [k] retryable failures takes the loop through [k] requests
    and [k] sleeps, and leaves the last failure as [lastError]. *)
Lemma retryLoop_transient_run fetch k :
  ∀ remaining attempt lastError,
    transient_run fetch attempt k →
    ∃ lastError',
      (k = 0 → lastError' = lastError)
      ∧ (∀ r text, 0 < k → fetch (attempt + k - 1) = Resolved r →
           errorText r = Ok text → lastError' = Some (apiError text))
      ∧ retryLoop fetch (k + remaining) attempt lastError
        = ((retryLoop fetch remaining (attempt + k) lastError').1,
           backoffTrace attempt k
             ++ (retryLoop fetch remaining (attempt + k) lastError').2).
Proof.
  induction k as [|k IH]; intros remaining attempt lastError Hrun.
  - exists lastError. split; [done |]. split; [lia |].
    rewrite Nat.add_0_r. simpl. by destruct (retryLoop _ _ _ _).
  - destruct (Hrun 0 ltac:(lia)) as (r0 & Hr0 & Ht0).
    rewrite Nat.add_0_r in Hr0.
    destruct (transient_step _ Ht0) as (text0 & Hok0 & Htext0 & Hretry0).
    destruct (IH remaining (S attempt) (Some (apiError text0)))
      as (lastError' & Hzero & Hlast & Heq).
    { intros i Hi. destruct (Hrun (S i) ltac:(lia)) as (r & Hr & Ht).
      exists r. split; [|done]. by rewrite <- Hr, Nat.add_succ_r. }
    exists lastError'. split; [lia |]. split.
    + intros r text _ Hr Htext. destruct k as [|k].
      * rewrite Hzero by done. f_equal. f_equal.
        replace (attempt + 1 - 1) with attempt in Hr by lia. congruence.
      * apply (Hlast r); [lia | | done]. rewrite <- Hr. f_equal. lia.
    + rewrite backoffTrace_S. simpl retryLoop at 1. rewrite Hr0.
      rewrite Hok0, Htext0, Hretry0, Heq.
      replace (S attempt + k) with (attempt + S k) by lia. done.
Qed.

Lemma all_Err (rs : list (Result Embedding)) j e :
  rs !! j = Some (Err e) → ∃ e', all rs = Err e'.
Proof.
  revert j. induction rs as [|[v|e0] rs IH]; intros [|j] Hj; simpl in *; try done.
  - destruct (IH _ Hj) as [e' ->]. eauto.
  - eauto.
  - eauto.
Qed.

Lemma all_Ok_length (rs : list (Result Embedding)) vs :
  all rs = Ok vs → length vs = length rs.
Proof.
  revert vs. induction rs as [|[v|e0] rs IH]; intros vs; simpl.
  - by intros [= <-].
  - destruct (all rs); [|done]. intros [= <-]. simpl. by rewrite (IH _ eq_refl).
  - done.
Qed.

End GatewayFacts.

(* ===================================================================== *)
(** * Facts about the index and the routes *)
(* ===================================================================== *)

Section IndexFacts.
Import RateLimit Embeddings Pinecone.
Context {Embedding : Type} `{!VectorIndex Embedding}.
Implicit Types (st : gmap JSString (gmap JSString (StoredRecord Embedding)))
  (P : gmap JSString (StoredRecord Embedding)) (h : IndexHandle)
  (ns ip k : JSString) (ids : list JSString).

Lemma namespaceKey_truthy ns : truthy (namespaceKey ns) = true.
Proof. unfold namespaceKey. by destruct (truthy ns) eqn:Hns. Qed.

Lemma namespaceKey_idemp ns : namespaceKey (namespaceKey ns) = namespaceKey ns.
Proof. unfold namespaceKey at 1. by rewrite namespaceKey_truthy. Qed.

Lemma namespaceKey_idemp_truthy ns : truthy ns = true → namespaceKey ns = ns.
Proof. unfold namespaceKey. by intros ->. Qed.

Lemma target_key h : namespaceKey (target h) = target h.
Proof. destruct h as [|ns]; [done | apply namespaceKey_idemp]. Qed.

Lemma partition_key st ns : partition st (namespaceKey ns) = partition st ns.
Proof. unfold partition. by rewrite namespaceKey_idemp. Qed.

(** The handle [getIndex] returns for an identity addresses the namespace
    of that identity: the default namespace for the empty identity. *)
Lemma getIndex_target apiKey ip ix :
  getIndex apiKey ip = Ok ix → target ix = namespaceKey ip.
Proof.
  unfold getIndex. destruct apiKey as [key|]; [|done].
  destruct (truthy key); [|done]. intros [= <-].
  destruct (truthy ip) eqn:Hip; cbn [target].
  - reflexivity.
  - unfold namespaceKey. by rewrite Hip.
Qed.

Lemma getIndex_partition apiKey ip ix st :
  getIndex apiKey ip = Ok ix → partition st (target ix) = partition st ip.
Proof. intros ->%getIndex_target. apply partition_key. Qed.

Lemma partition_upsert_ne h records st ns :
  namespaceKey ns ≠ target h → partition (upsert h records st) ns = partition st ns.
Proof. intros Hne. unfold partition, upsert. by rewrite lookup_insert_ne. Qed.

Lemma query_partition h vector topK flt st1 st2 :
  partition st1 (target h) = partition st2 (target h) →
  query h vector topK flt st1 = query h vector topK flt st2.
Proof. intros Heq. unfold query. by rewrite Heq. Qed.

End IndexFacts.

Section UploadFacts.
Import RateLimit Embeddings Pinecone Documents.
Context {Embedding : Type} `{!VectorIndex Embedding}.

(** A chunk whose embedding fails makes the whole embedding loop fail,
    whatever was collected before; [length chunks - i] iterations of
    fuel reach it. *)
Lemma embedLoop_fails env (w : UploadWorld Embedding) fileName chunks n e :
  n < length chunks →
  (getEmbedding (NVIDIA_API_KEY env) (provider w n)).1 = Err e →
  ∀ fuel i vectors,
    i ≤ n → length chunks - i ≤ fuel →
    ∃ e', embedLoop env w fileName chunks fuel i vectors = Err e'.
Proof.
  intros Hn Hfail. induction fuel as [|fuel IH]; intros i vectors Hi Hfuel; [lia |].
  simpl. destruct (Nat.ltb_spec i (length chunks)); [|lia].
  destruct (getEmbeddingsBatch _ _ _) as [embeddings|e0] eqn:Hbatch; [|eauto].
  destruct (decide (n < i + BATCH_SIZE)) as [Hin|Hout].
  - exfalso. unfold getEmbeddingsBatch in Hbatch.
    destruct (all_Err (imap (λ j _, (getEmbedding (NVIDIA_API_KEY env)
                                        (provider w (i + j))).1)
                            (take BATCH_SIZE (drop i chunks))) (n - i) e)
      as [e' He'].
    + rewrite list_lookup_imap.
      destruct (lookup_lt_is_Some_2 (take BATCH_SIZE (drop i chunks)) (n - i))
        as [c Hc].
      { rewrite length_take, length_drop. unfold BATCH_SIZE in *. lia. }
      rewrite Hc. simpl. replace (i + (n - i)) with n by lia. by rewrite Hfail.
    + congruence.
  - apply IH; unfold BATCH_SIZE in *; lia.
Qed.

(** The embedding loop ends on its own: any fuel from [length chunks - i]
    on gives the same outcome. *)
Lemma embedLoop_fuel env (w : UploadWorld Embedding) fileName chunks fuel1 fuel2 :
  ∀ i vectors,
    length chunks - i ≤ fuel1 → length chunks - i ≤ fuel2 →
    embedLoop env w fileName chunks fuel1 i vectors
    = embedLoop env w fileName chunks fuel2 i vectors.
Proof.
  revert fuel2. induction fuel1 as [|fuel1 IH]; intros [|fuel2] i vectors H1 H2;
    simpl; try done.
  - destruct (Nat.ltb_spec i (length chunks)); [lia | done].
  - destruct (Nat.ltb_spec i (length chunks)); [lia | done].
  - destruct (Nat.ltb_spec i (length chunks)); [|done].
    destruct (getEmbeddingsBatch _ _ _); [|done].
    apply IH; unfold BATCH_SIZE; lia.
Qed.

(** An upload that answers with success has embedded every chunk. *)
Lemma POST_success_all_embedded env (w : UploadWorld Embedding) h file s text body :
  extractTextFromFile file = Ok text →
  (Documents.POST env w h (Some file) s).1 = Success body →
  ∀ n, n < length (Chunker.chunkText text 2000) →
    ∃ v, (getEmbedding (NVIDIA_API_KEY env) (provider w n)).1 = Ok v.
Proof.
  intros Htext Hok n Hn.
  destruct (getEmbedding (NVIDIA_API_KEY env) (provider w n)).1 as [v|e] eqn:Hn'; [eauto |].
  exfalso. revert Hok. unfold Documents.POST.
  destruct (checkRateLimit _ _ _ _) as [rl store].
  destruct (negb (allowed rl)); [done |]. rewrite Htext.
  destruct (negb (truthy (trim text))); [done |].
  destruct (getIndex _ _) as [ix|e0]; [|done].
  destruct (embedLoop_fails env w (name file) _ n e Hn Hn'
              (length (Chunker.chunkText text 2000)) 0 [] ltac:(lia) ltac:(lia))
    as [e' ->].
  done.
Qed.

End UploadFacts.

Section RouteFacts.
Import RateLimit Embeddings Pinecone.
Context {Embedding : Type} `{!VectorIndex Embedding}.
Implicit Types (st : gmap JSString (gmap JSString (StoredRecord Embedding)))
  (s : Server Embedding) (h : Headers) (env : Env).

Lemma query_length ix vector topK (flt : option JSString) st :
  length (query ix vector topK flt st)
  = topK `min` length (List.filter (passes flt)
                         (map_to_list (partition st (target ix)))).
Proof.
  unfold query. rewrite length_fmap, length_take.
  by rewrite (Permutation_length (rank_perm _ _)).
Qed.

Lemma query_ids ix vector topK (flt : option JSString) st :
  length (List.filter (passes flt) (map_to_list (partition st (target ix)))) ≤ topK →
  m_id <$> query ix vector topK flt st
  ≡ₚ (List.filter (passes flt) (map_to_list (partition st (target ix)))).*1.
Proof.
  intros Hle. unfold query. rewrite take_ge.
  - rewrite <- list_fmap_compose. simpl.
    apply fmap_Permutation, rank_perm.
  - by rewrite (Permutation_length (rank_perm _ _)).
Qed.

(** *** What each route writes *)

Lemma POST_partition_other env w h file s ns :
  namespaceKey ns ≠ namespaceKey (getClientIP h) →
  partition (index (Documents.POST env w h file s).2) ns = partition (index s) ns.
Proof.
  intros Hne. unfold Documents.POST.
  destruct (checkRateLimit _ _ _ _) as [rl store].
  repeat case_match; simpl; try done.
  apply partition_upsert_ne. by erewrite getIndex_target.
Qed.

(** The bulk delete of [DELETE] is handed the array of ids itself: it
    removes nothing, so no path of the route changes the index. *)
Lemma DELETE_index env now h name s :
  index (Documents.DELETE env now h name s).2 = index s.
Proof.
  unfold Documents.DELETE. destruct (checkRateLimit _ _ _ _) as [rl store].
  by repeat case_match.
Qed.

Lemma GET_index env now h s : index (Documents.GET env now h s).2 = index s.
Proof.
  unfold Documents.GET. destruct (checkRateLimit _ _ _ _) as [rl store].
  by repeat case_match.
Qed.

Lemma Ask_index env w h question s : index (Ask.POST env w h question s).2 = index s.
Proof.
  unfold Ask.POST. destruct (checkRateLimit _ _ _ _) as [rl store].
  by repeat case_match.
Qed.

(** *** What each route reads *)

Lemma GET_reads_own_partition env now h s1 s2 :
  rateLimitStore s1 = rateLimitStore s2 →
  partition (index s1) (getClientIP h) = partition (index s2) (getClientIP h) →
  mapBody Documents.documents (Documents.GET env now h s1).1
  = mapBody Documents.documents (Documents.GET env now h s2).1.
Proof.
  intros Hstore Hpart. unfold Documents.GET. rewrite Hstore.
  destruct (checkRateLimit _ _ _ _) as [rl store].
  destruct (negb (allowed rl)); [done |].
  destruct (getIndex _ _) as [ix|e] eqn:Hix; [|done]. simpl.
  rewrite <- !(getIndex_partition _ _ _ _ Hix) in Hpart.
  by rewrite (query_partition _ _ _ _ _ _ Hpart).
Qed.

Lemma Ask_reads_own_partition env w h question s1 s2 :
  rateLimitStore s1 = rateLimitStore s2 →
  partition (index s1) (getClientIP h) = partition (index s2) (getClientIP h) →
  (Ask.POST env w h question s1).1 = (Ask.POST env w h question s2).1.
Proof.
  intros Hstore Hpart. unfold Ask.POST. rewrite Hstore.
  destruct (checkRateLimit _ _ _ _) as [rl store].
  destruct (negb (allowed rl)); [done |].
  destruct question as [question|]; [|done].
  destruct (negb (truthy question)); [done |].
  destruct (negb (truthy (trim question))); [done |].
  destruct (1000 <? length (trim question)); [done |].
  destruct (getEmbedding _ _).1 as [v|e]; [|done].
  destruct (getIndex _ _) as [ix|e] eqn:Hix; [|done]. simpl.
  rewrite <- !(getIndex_partition _ _ _ _ Hix) in Hpart.
  rewrite (query_partition _ _ _ _ _ _ Hpart).
  by repeat case_match.
Qed.

Lemma DELETE_reads_own_partition env now h name s1 s2 :
  rateLimitStore s1 = rateLimitStore s2 →
  partition (index s1) (getClientIP h) = partition (index s2) (getClientIP h) →
  (Documents.DELETE env now h name s1).1 = (Documents.DELETE env now h name s2).1.
Proof.
  intros Hstore Hpart. unfold Documents.DELETE. rewrite Hstore.
  destruct (checkRateLimit _ _ _ _) as [rl store].
  destruct (negb (allowed rl)); [done |].
  destruct name as [name|]; [|done].
  destruct (negb (truthy name)); [done |].
  destruct (getIndex _ _) as [ix|e] eqn:Hix; [|done]. simpl.
  rewrite <- !(getIndex_partition _ _ _ _ Hix) in Hpart.
  rewrite (query_partition _ _ _ _ _ _ Hpart).
  by destruct (query _ _ _ _ _) as [|m matches].
Qed.

Lemma GET_totalVectors env now h s body :
  (Documents.GET env now h s).1 = Success body →
  Documents.totalVectors body = totalRecordCount (index s).
Proof.
  unfold Documents.GET. destruct (checkRateLimit _ _ _ _) as [rl store].
  destruct (negb (allowed rl)); [done |].
  destruct (getIndex _ _) as [ix|e]; [|done]. simpl. by intros [= <-].
Qed.

(** *** Deleting a document *)

(** The answer of an admitted delete: with [N] records of the caller's
    partition carrying the name, 404 for [N = 0] and otherwise a success
    that reports [N], or 1000 when [N] is larger. *)
Lemma DELETE_outcome env now h name s key :
  allowed (checkRateLimit now (getClientIP h) defaultConfig (rateLimitStore s)).1 = true →
  PINECONE_API_KEY env = Some key → truthy key = true → truthy name = true →
  let P := partition (index s) (getClientIP h) in
  let N := length (List.filter (passes (Some name)) (map_to_list P)) in
  let out := Documents.DELETE env now h (Some name) s in
  (N = 0 → out.1 = Failure 404 (js "Document not found"))
  ∧ (0 < N → out.1 = Success {| Documents.deletedChunks := 1000 `min` N |}).
Proof.
  intros Hallowed Hkey Hk Hname P N out. subst out. unfold Documents.DELETE.
  destruct (checkRateLimit _ _ _ _) as [rl store]. simpl in Hallowed.
  rewrite Hallowed, Hname. cbn [negb].
  change (index (Documents.withStore s store)) with (index s).
  destruct (getIndex _ _) as [ix|e] eqn:Hix.
  2: { unfold getIndex in Hix. by rewrite Hkey, Hk in Hix. }
  pose proof (query_length ix zeroVector 1000 (Some name) (index s)) as Hlen.
  rewrite (getIndex_partition _ _ _ _ Hix) in Hlen. fold P in Hlen. fold N in Hlen.
  destruct (query ix zeroVector 1000 (Some name) (index s)) as [|m matches].
  - cbn [length] in Hlen. split; [done |]. intros; lia.
  - rewrite length_fmap, Hlen. cbn [length fst snd] in *.
    split; [lia | done].
Qed.

End RouteFacts.

(* ===================================================================== *)
(** * The claims of the specification *)
(* ===================================================================== *)

Import RateLimit Embeddings Pinecone.

(** ** Chunker *)

(** C2, at the failing inputs.  Two paragraphs whose lengths add up to
    exactly [maxLength] are packed into one chunk, and the blank line that
    joins them takes the chunk two characters past the limit: with limit 4
    the text "ab", blank line, "cd" comes back as one chunk of 6
    characters, and with the limit 2000 of the upload route two paragraphs
    of 1000 characters come back as one chunk of 2002. *)
Theorem C2_packed_chunk_exceeds_limit :
  Chunker.chunkText (js "ab" ++ [LF; LF] ++ js "cd") 4
    = [js "ab" ++ [LF; LF] ++ js "cd"]
  ∧ length <$> Chunker.chunkText
                 (replicate 1000 97%N ++ [LF; LF] ++ replicate 1000 98%N) 2000
    = [2002].
Proof. split; vm_compute; reflexivity. Qed.

(** C8 as stated fails: for the whitespace-only text " " the only chunk
    returned is the empty string, and a whitespace-only paragraph that is
    pending when the next paragraph forces a flush is pushed as an empty
    chunk. *)
Lemma C8_counterexample :
  (js " " ≠ [] ∧ 1 ≤ 5
   ∧ ¬ Forall (λ c, c ≠ []) (Chunker.chunkText (js " ") 5))
  ∧ Chunker.chunkText (js " " ++ [LF; LF] ++ js "abcd") 4 = [[]; js "abcd"].
Proof.
  split; [|reflexivity]. split; [done |]. split; [lia |].
  change (Chunker.chunkText (js " ") 5) with [[] : JSString].
  by inversion 1.
Qed.

(** C8, amended.  For every [maxLength >= 1]: if the text shows a
    character that is not whitespace (the upload route rejects any other
    text before chunking) and each of its paragraphs is empty or shows
    such a character, no chunk is empty; and if the text is whitespace
    only, every string returned is empty. *)
Theorem C8_no_empty_chunk text maxLength :
  1 ≤ maxLength →
  (trim text ≠ [] → Forall solid (split_blank text) →
   Forall (λ c, c ≠ []) (Chunker.chunkText text maxLength))
  ∧ (blank text → Forall (λ c, c = []) (Chunker.chunkText text maxLength)).
Proof.
  intros Hmax. split.
  - by apply chunkText_nonempty.
  - apply chunkText_blank.
Qed.

Lemma C8_no_empty_chunk_witness :
  1 ≤ 5
  ∧ trim (js "one two" ++ [LF; LF] ++ js "three") ≠ []
  ∧ Forall solid (split_blank (js "one two" ++ [LF; LF] ++ js "three"))
  ∧ Forall (λ c, c ≠ [])
      (Chunker.chunkText (js "one two" ++ [LF; LF] ++ js "three") 5).
Proof.
  assert (trim (js "one two" ++ [LF; LF] ++ js "three") ≠ []) as Htext
    by (vm_compute; discriminate).
  assert (Forall solid (split_blank (js "one two" ++ [LF; LF] ++ js "three")))
    as Hparas
    by (constructor; [by apply solid_cons |];
        constructor; [by apply solid_cons | constructor]).
  split; [lia |]. split; [exact Htext |]. split; [exact Hparas |].
  apply (C8_no_empty_chunk (js "one two" ++ [LF; LF] ++ js "three") 5);
    [lia | exact Htext | exact Hparas].
Defined.

(** C10.  For every text and every [maxLength >= 1], each string returned
    by [chunkText] equals its own trim. *)
Theorem C10_chunks_are_trimmed text maxLength :
  1 ≤ maxLength →
  Forall (λ c, trim c = c) (Chunker.chunkText text maxLength).
Proof.
  intros _. unfold Chunker.chunkText.
  destruct (Chunker.chunkText_loop text maxLength) as [chunks cc] eqn:Hloop.
  pose proof (chunkText_loop_trimmed _ _ _ _ Hloop) as Hchunks.
  destruct (if truthy (trim cc) then chunks ++ [trim cc] else chunks)
    as [|c chunks'] eqn:Hfinal.
  - (* the fallback: nothing was pushed, so the text is whitespace only *)
    apply push_nil in Hfinal as [Ht ->]. apply truthy_false, trim_nil in Ht.
    pose proof (chunkText_loop_nil _ _ _ _ Hloop eq_refl Ht) as Hb.
    apply trim_nil in Hb. rewrite Hb. unfold slice. rewrite drop_nil, take_nil.
    by constructor.
  - (* the chunks pushed by the loop and by the final flush *)
    rewrite <- Hfinal. apply Forall_push; [done | intros _; apply trim_idemp].
Qed.

Lemma C10_chunks_are_trimmed_witness :
  1 ≤ 5 ∧ Forall (λ c, trim c = c) (Chunker.chunkText (js "  hello wonderful world ") 5).
Proof.
  split; [lia |]. apply (C10_chunks_are_trimmed (js "  hello wonderful world ") 5). lia.
Defined.

(** C9, at the failing input.  A plain-text file reaches the chunker as
    [file.text()] gives it: its CRLF pairs are kept, the blank line
    written as CRLF CRLF does not separate paragraphs, and the stored
    chunk carries the carriage returns.  The same content under a name
    ending in .pdf, .pptx or .docx is cleaned first. *)
Theorem C9_plain_text_is_not_normalized :
  let content := js "a" ++ [CR; LF; CR; LF] ++ js "b" in
  Documents.extractTextFromFile {| Documents.name := js "notes.txt";
                                   Documents.raw := Ok content |}
    = Ok content
  ∧ Chunker.chunkText content 2000 = [content]
  ∧ Documents.extractTextFromFile {| Documents.name := js "notes.docx";
                                     Documents.raw := Ok content |}
    = Ok (js "a" ++ [LF; LF] ++ js "b").
Proof. repeat split; vm_compute; reflexivity. Qed.

(** ** Rate governor *)

(** C1, at the failing input.  The table is keyed by the identity alone:
    ten health checks by one identity use up the ten requests the upload
    policy allows, and the upload that follows is refused, while the same
    upload on an empty table is admitted. *)
Theorem C1_policies_share_one_window :
  let ip := js "203.0.113.7" in
  let store := (checkMany ip healthRateLimit (replicate 10 0%Z) ∅).2 in
  (checkRateLimit 0 ip uploadRateLimit store).1
    = {| allowed := false; remaining := 0; resetIn := 60000 |}
  ∧ (checkRateLimit 0 ip uploadRateLimit ∅).1
    = {| allowed := true; remaining := 9; resetIn := 60000 |}.
Proof. split; vm_compute; reflexivity. Qed.

(** C5 as stated fails at the end of the window and for a limit of zero:
    with one request per second allowed, a second call made exactly at
    the stored window end is still counted in that window and is refused
    with [resetIn = 0]; and with [maxRequests = 0] the first call of a
    fresh key is admitted. *)
Lemma C5_counterexample :
  (checkMany (js "198.51.100.4") {| windowMs := 1000; maxRequests := 1 |}
             [0; 1000]%Z ∅).1
    = [{| allowed := true; remaining := 0; resetIn := 1000 |};
       {| allowed := false; remaining := 0; resetIn := 0 |}]
  ∧ allowed (checkRateLimit 0 (js "198.51.100.4")
               {| windowMs := 60000; maxRequests := 0 |} ∅).1 = true.
Proof. split; vm_compute; reflexivity. Qed.

(** C5, amended.  For a fresh key and a policy with [maxRequests = N >= 1]:
    the first call opens a window ending at [t0 + windowMs]; of the calls
    made no later than that end exactly the first [N] are admitted; a
    refused call reports [resetIn = windowEnd - now], which is never
    negative and is positive strictly before the end; the window end stays
    where the first call put it; and the first call made after the end
    opens a fresh window with count 1 and is admitted. *)
Theorem C5_fixed_window ip config store t0 times :
  store !! ip = None →
  (1 ≤ maxRequests config)%Z →
  Forall (λ t, t ≤ t0 + windowMs config)%Z times →
  let rs := (checkMany ip config (t0 :: times) store).1 in
  let store' := (checkMany ip config (t0 :: times) store).2 in
  length rs = S (length times)
  ∧ (∀ i r, rs !! i = Some r →
       allowed r = bool_decide (Z.of_nat i < maxRequests config)%Z)
  ∧ (∀ i r t, rs !! i = Some r → (t0 :: times) !! i = Some t → allowed r = false →
       resetIn r = (t0 + windowMs config - t)%Z
       ∧ (0 ≤ resetIn r)%Z
       ∧ ((t < t0 + windowMs config)%Z → (0 < resetIn r)%Z))
  ∧ (∃ e, store' !! ip = Some e
          ∧ resetTime e = (t0 + windowMs config)%Z
          ∧ count e = Z.min (Z.of_nat (S (length times))) (maxRequests config))
  ∧ (∀ now, (t0 + windowMs config < now)%Z →
       allowed (checkRateLimit now ip config store').1 = true
       ∧ (checkRateLimit now ip config store').2 !! ip
         = Some {| count := 1; resetTime := now + windowMs config |}).
Proof.
  intros Hfresh HN Hlive rs store'. subst rs store'. simpl.
  rewrite (checkRateLimit_fresh _ _ _ _ Hfresh).
  destruct (checkMany ip config times _) as [rs1 store2] eqn:Hrest.
  destruct (checkMany_live ip config times _
              {| count := 1; resetTime := t0 + windowMs config |} _ _
              (lookup_insert_eq _ _ _) Hlive Hrest)
    as (Hlen & Hallow & Hreset & e' & He' & Hre' & Hce').
  simpl in *. split; [by rewrite Hlen |]. split; [|split; [|split]].
  - intros [|i] r Hr; simpl in Hr.
    + injection Hr as <-. simpl. rewrite bool_decide_eq_true_2; [done | lia].
    + rewrite (Hallow _ _ Hr). apply bool_decide_ext. lia.
  - intros [|i] r t Hr Ht Hdenied; simpl in Hr, Ht.
    + injection Hr as <-. done.
    + rewrite (Hreset _ _ _ Hr Ht).
      pose proof (proj1 (Forall_forall _ _) Hlive t
                    (list_elem_of_lookup_2 _ _ _ Ht)) as Hle.
      simpl in Hle. lia.
  - exists e'. split; [done |]. split; [done |]. lia.
  - intros now Hnow.
    rewrite (checkRateLimit_elapsed now ip config store2 e' He') by lia.
    simpl. split; [done |]. apply lookup_insert_eq.
Qed.

Lemma C5_fixed_window_witness :
  (∅ : gmap JSString RateLimitEntry) !! js "198.51.100.4" = None
  ∧ (1 ≤ maxRequests uploadRateLimit)%Z
  ∧ Forall (λ t, t ≤ 5 + windowMs uploadRateLimit)%Z [6; 7; 60005]%Z
  ∧ length (checkMany (js "198.51.100.4") uploadRateLimit [5; 6; 7; 60005]%Z ∅).1 = 4.
Proof.
  assert (Forall (λ t, t ≤ 5 + windowMs uploadRateLimit)%Z [6; 7; 60005]%Z) as Hlive.
  { repeat constructor; simpl; lia. }
  split; [reflexivity |]. split; [simpl; lia |]. split; [exact Hlive |].
  apply (C5_fixed_window (js "198.51.100.4") uploadRateLimit ∅ 5 [6; 7; 60005]%Z);
    [reflexivity | simpl; lia | exact Hlive].
Defined.

(** ** Embedding gateway *)

(** C4, at the failing input.  The key is set and the provider answers
    every request with status 503.  The call makes its five requests and
    sleeps 1 s, 2 s, 4 s and 8 s between them; after the fifth and last
    request has failed it sleeps once more, 16 s, and only then throws the
    error of that request: no attempt follows the last sleep. *)
Theorem C4_sleeps_after_the_last_attempt :
  getEmbedding (Some (js "nvapi-key")) Sample.unavailable
  = (Err (apiError (js "unavailable")),
     [EvFetch 0; EvSleep 1000; EvFetch 1; EvSleep 2000; EvFetch 2; EvSleep 4000;
      EvFetch 3; EvSleep 8000; EvFetch 4; EvSleep 16000])
  ∧ last (getEmbedding (Some (js "nvapi-key")) Sample.unavailable).2
    = Some (EvSleep 16000).
Proof. split; reflexivity. Qed.

(** ** Document store *)

Section StoreClaims.
Context {Embedding : Type} `{!VectorIndex Embedding}.

(** C3.  If the embedding of any chunk of the uploaded document fails,
    the upload answers with an error and the index is left exactly as it
    was: no record of the document is written. *)
Theorem C3_ingest_is_atomic env (w : Documents.UploadWorld Embedding) h file s text n e :
  Documents.extractTextFromFile file = Ok text →
  n < length (Chunker.chunkText text 2000) →
  (getEmbedding (NVIDIA_API_KEY env) (Documents.provider w n)).1 = Err e →
  index (Documents.POST env w h (Some file) s).2 = index s
  ∧ ∀ body, (Documents.POST env w h (Some file) s).1 ≠ Success body.
Proof.
  intros Htext Hn Hfail. unfold Documents.POST.
  destruct (checkRateLimit _ _ _ _) as [rl store].
  destruct (negb (allowed rl)); [done |]. rewrite Htext.
  destruct (negb (truthy (trim text))); [done |].
  destruct (getIndex _ _) as [ix|e0]; [|done].
  destruct (embedLoop_fails env w (Documents.name file) _ n e Hn Hfail
              (length (Chunker.chunkText text 2000)) 0 [] ltac:(lia) ltac:(lia))
    as [e' ->].
  done.
Qed.

End StoreClaims.

Lemma C3_ingest_is_atomic_witness :
  Documents.extractTextFromFile Sample.notes = Ok (js "hello")
  ∧ 0 < length (Chunker.chunkText (js "hello") 2000)
  ∧ (getEmbedding (NVIDIA_API_KEY Sample.env)
       (Documents.provider Sample.refusing 0)).1
    = Err (apiError (js "bad request"))
  ∧ index (Documents.POST Sample.env Sample.refusing Sample.alice
             (Some Sample.notes) Sample.emptyServer).2
    = index Sample.emptyServer.
Proof.
  split; [reflexivity |]. split; [vm_compute; lia |]. split; [reflexivity |].
  apply (C3_ingest_is_atomic Sample.env Sample.refusing Sample.alice Sample.notes
           Sample.emptyServer (js "hello") 0 (apiError (js "bad request")));
    [reflexivity | vm_compute; lia | reflexivity].
Defined.

(** C7, at the failing input.  Alice and Bob are two callers with
    different identities and different namespaces.  Bob lists an empty
    index and is told of 0 vectors.  After Alice has uploaded one chunk
    Bob's partition is still empty and no document is listed for him, but
    he is told of 1 vector: [GET] takes [totalVectors] from
    [describeIndexStats], called on the handle it has just narrowed to
    Bob's namespace, and that call counts the records of every
    namespace. *)
Theorem C7_list_counts_other_namespaces :
  let uploaded := (Documents.POST Sample.env Sample.answering Sample.alice
                     (Some Sample.notes) Sample.emptyServer).2 in
  namespaceKey (getClientIP Sample.alice) ≠ namespaceKey (getClientIP Sample.bob)
  ∧ (Documents.GET Sample.env 0 Sample.bob Sample.emptyServer).1
    = Success {| Documents.documents := []; Documents.totalVectors := 0 |}
  ∧ partition (index uploaded) (getClientIP Sample.bob) = ∅
  ∧ (Documents.GET Sample.env 0 Sample.bob uploaded).1
    = Success {| Documents.documents := []; Documents.totalVectors := 1 |}.
Proof.
  split; [vm_compute; discriminate |]. repeat split; vm_compute; reflexivity.
Qed.

(** C6, at the failing input.  A namespace holds the 1001 records of one
    document.  Deleting that document collects 1000 ids, the [topK] of
    its query, and reports 1000 deleted chunks; the bulk delete is handed
    the array of ids itself, which the client does not read as ids, and
    all 1001 records of the document are still in the index. *)
Theorem C6_delete_stops_at_1000 :
  let out := Documents.DELETE Sample.env 0 Sample.alice (Some (js "big.txt"))
               Sample.bigServer in
  length (List.filter (passes (Some (js "big.txt"))) (map_to_list Sample.bigDocument))
    = 1001
  ∧ out.1 = Success {| Documents.deletedChunks := 1000 |}
  ∧ size (partition (index out.2) (getClientIP Sample.alice)) = 1001.
Proof. vm_compute. repeat split; reflexivity. Qed.

(* ===================================================================== *)
(** * Further properties of the code *)
(* ===================================================================== *)

(** ** Strings: what trimming and splitting keep *)

Section VisibleFacts.
Implicit Types (s t : JSString) (c : N).

Lemma visible_cons c s :
  visible (c :: s) = if is_space c then visible s else c :: visible s.
Proof.
  unfold visible. destruct (is_space c) eqn:Hc.
  - by rewrite filter_cons_False by congruence.
  - by rewrite filter_cons_True.
Qed.

Lemma visible_app s t : visible (s ++ t) = visible s ++ visible t.
Proof. apply filter_app. Qed.

Lemma visible_blank s : blank s → visible s = [].
Proof.
  induction 1 as [|c s Hc _ IH]; [done |]. by rewrite visible_cons, Hc.
Qed.

Lemma visible_trimStart s : visible (trimStart s) = visible s.
Proof.
  induction s as [|c s IH]; [done |]. simpl.
  destruct (is_space c) eqn:Hc; [|done]. by rewrite visible_cons, Hc.
Qed.

Lemma visible_trimEnd s : visible (trimEnd s) = visible s.
Proof.
  induction s as [|c s IH]; [done |]. simpl. rewrite (visible_cons c s), <- IH.
  destruct (trimEnd s) as [|d r].
  - destruct (is_space c) eqn:Hc; [done |]. by rewrite visible_cons, Hc.
  - by rewrite visible_cons.
Qed.

Lemma visible_trim s : visible (trim s) = visible s.
Proof. unfold trim. by rewrite visible_trimEnd, visible_trimStart. Qed.

Lemma concat_cons_head c (ps : list JSString) :
  concat (cons_head c ps) = c :: concat ps.
Proof. by destruct ps. Qed.

Lemma visible_split_ws_from b s : visible (concat (split_ws_from b s)) = visible s.
Proof.
  revert b. induction s as [|c s IH]; intros b; [done |]. simpl.
  rewrite (visible_cons c s). destruct (is_space c) eqn:Hc.
  - destruct b; simpl; apply IH.
  - by rewrite concat_cons_head, visible_cons, Hc, IH.
Qed.

Lemma visible_split_blank_from b s :
  visible (concat (split_blank_from b s)) = visible s.
Proof.
  revert b. induction s as [|c s IH]; intros b; [done |]. simpl.
  rewrite (visible_cons c s).
  destruct (is_LF c && b) eqn:H1.
  { apply andb_true_iff in H1 as [Hc _]. by rewrite (is_LF_space _ Hc), IH. }
  destruct (is_LF c && starts_with_LF s) eqn:H2.
  { apply andb_true_iff in H2 as [Hc _]. simpl. by rewrite (is_LF_space _ Hc), IH. }
  rewrite concat_cons_head, visible_cons, IH. done.
Qed.

Lemma trimStart_suffix s : ∃ pre, s = pre ++ trimStart s.
Proof. destruct (trimStart_blank_prefix s) as (pre & Hpre & _). eauto. Qed.

Lemma trimEnd_prefix s : ∃ post, s = trimEnd s ++ post.
Proof.
  induction s as [|c s [post Hpost]]; [by exists [] |]. simpl.
  destruct (trimEnd s) as [|d r].
  - destruct (is_space c).
    + by exists (c :: s).
    + exists s. done.
  - exists post. simpl in *. by rewrite <- Hpost.
Qed.

(** [trim s] is a stretch of [s]. *)
Lemma trim_infix s : ∃ pre post, s = pre ++ trim s ++ post.
Proof.
  destruct (trimStart_suffix s) as [pre Hpre].
  destruct (trimEnd_prefix (trimStart s)) as [post Hpost].
  exists pre, post. unfold trim. by rewrite <- Hpost.
Qed.

Lemma is_LF_eq c : is_LF c = true ↔ c = LF.
Proof. unfold is_LF. apply N.eqb_eq. Qed.

End VisibleFacts.

(** ** Chunker *)

Section ChunkerProperties.
Import Chunker.
Implicit Types (s t word para text current : JSString) (max : nat).

Lemma sliceLoop_length word max fuel i :
  1 ≤ max → length word - i ≤ fuel →
  length (sliceLoop fuel word max i) = (length word - i + max - 1) / max.
Proof.
  intros Hmax. revert i. induction fuel as [|fuel IH]; intros i Hf; simpl.
  - replace (length word - i + max - 1) with (max - 1) by lia.
    symmetry. apply Nat.div_small. lia.
  - destruct (Nat.ltb_spec i (length word)).
    + simpl. rewrite IH by lia.
      destruct (decide (max ≤ length word - i)) as [Hge|Hlt].
      * replace (length word - i + max - 1)
          with (length word - (i + max) + max - 1 + 1 * max) by lia.
        rewrite Nat.div_add by lia. lia.
      * replace (length word - (i + max) + max - 1) with (max - 1) by lia.
        rewrite (Nat.div_small (max - 1)) by lia.
        apply (Nat.div_unique _ _ 1 (length word - i - 1)); lia.
    + replace (length word - i + max - 1) with (max - 1) by lia.
      symmetry. apply Nat.div_small. lia.
Qed.

(** A word cut by the hard split: the pieces put together give the word
    back, each piece holds between 1 and [max] characters, and there are
    ceil(length / max) of them. *)
Theorem hardSplit_pieces word max :
  1 ≤ max →
  concat (hardSplit word max) = word
  ∧ Forall (λ p, 1 ≤ length p ≤ max) (hardSplit word max)
  ∧ length (hardSplit word max) = (length word + max - 1) / max.
Proof.
  intros Hmax. split; [by apply hardSplit_concat |]. split.
  - apply sliceLoop_Forall. intros i Hi. split; [|apply slice_length].
    pose proof (slice_nonempty word max i Hmax Hi) as Hne.
    destruct (slice word i (i + max)); [done | simpl; lia].
  - unfold hardSplit. rewrite sliceLoop_length by lia. f_equal. lia.
Qed.

Lemma hardSplit_pieces_witness :
  1 ≤ 4
  ∧ concat (hardSplit (js "abcdefghij") 4) = js "abcdefghij"
  ∧ Forall (λ p, 1 ≤ length p ≤ 4) (hardSplit (js "abcdefghij") 4)
  ∧ length (hardSplit (js "abcdefghij") 4) = (length (js "abcdefghij") + 4 - 1) / 4.
Proof. split; [lia |]. apply (hardSplit_pieces (js "abcdefghij") 4). lia. Defined.

Lemma visible_push (b : bool) (result : list JSString) current :
  (b = false → visible current = []) →
  visible (concat (if b then result ++ [trim current] else result))
  = visible (concat result) ++ visible current.
Proof.
  intros Hb. destruct b.
  - rewrite concat_app, visible_app. simpl. by rewrite app_nil_r, visible_trim.
  - by rewrite Hb, app_nil_r.
Qed.

Lemma visible_truthy current : truthy current = false → visible current = [].
Proof. by intros ->%truthy_false. Qed.

Lemma visible_truthy_trim current :
  truthy (trim current) = false → visible current = [].
Proof. intros H%truthy_false. by rewrite <- visible_trim, H. Qed.

Lemma splitByLength_visible str max :
  1 ≤ max → visible (concat (splitByLength str max)) = visible str.
Proof.
  intros Hmax. unfold splitByLength.
  pose proof (fold_left_inv (splitByLength_step max)
    (λ pre st, visible (concat st.1) ++ visible st.2 = visible (concat pre))
    (split_ws str) ([], [])) as Hinv.
  destruct (fold_left _ _ _) as [result current]. simpl in Hinv.
  rewrite (visible_push _ _ _ (visible_truthy_trim current)).
  rewrite Hinv; [apply visible_split_ws_from | done |]. clear -Hmax.
  intros pre word [result current] IH _. simpl in IH.
  rewrite concat_app, visible_app, <- IH. simpl. rewrite app_nil_r.
  unfold splitByLength_step.
  destruct (max <? length word); [|destruct (max <? _)]; simpl.
  - rewrite concat_app, visible_app, hardSplit_concat by done.
    rewrite (visible_push _ _ _ (visible_truthy current)).
    by rewrite app_nil_r.
  - by rewrite (visible_push _ _ _ (visible_truthy current)), <- app_assoc.
  - rewrite !visible_app, <- !app_assoc. do 2 f_equal.
    by destruct (truthy current).
Qed.

(** Word packing: every piece is trimmed, holds between 1 and [max]
    characters, and the pieces carry the non-whitespace characters of the
    input, all of them and in order. *)
Theorem splitByLength_pieces str max :
  1 ≤ max →
  Forall (λ c, trim c = c ∧ 1 ≤ length c ≤ max) (splitByLength str max)
  ∧ visible (concat (splitByLength str max)) = visible str.
Proof.
  intros Hmax. split; [|by apply splitByLength_visible].
  pose proof (splitByLength_trimmed str max) as Ht.
  pose proof (splitByLength_nonempty str max Hmax) as Hn.
  pose proof (splitByLength_length str max) as Hl.
  induction (splitByLength str max) as [|c l IH]; [constructor |].
  inversion Ht; inversion Hn; inversion Hl; subst.
  constructor; [|by apply IH]. split; [done |].
  split; [|done]. destruct c; [done | simpl; lia].
Qed.

Lemma splitByLength_pieces_witness :
  1 ≤ 5
  ∧ Forall (λ c, trim c = c ∧ 1 ≤ length c ≤ 5)
      (splitByLength (js " hello wonderful  world ") 5)
  ∧ visible (concat (splitByLength (js " hello wonderful  world ") 5))
    = visible (js " hello wonderful  world ").
Proof.
  split; [lia |]. apply (splitByLength_pieces (js " hello wonderful  world ") 5). lia.
Defined.

(** Chunking loses no text: the non-whitespace characters of the chunks
    are those of the input, all of them and in order. *)
Theorem chunkText_keeps_visible_text text maxLength :
  1 ≤ maxLength →
  visible (concat (chunkText text maxLength)) = visible text.
Proof.
  intros Hmax. unfold chunkText.
  destruct (chunkText_loop text maxLength) as [chunks cc] eqn:Hloop.
  assert (visible (concat chunks) ++ visible cc = visible text) as Hkeep.
  { unfold chunkText_loop in Hloop.
    pose proof (fold_left_inv (chunkText_step maxLength)
      (λ pre st, visible (concat st.1) ++ visible st.2 = visible (concat pre))
      (split_blank text) ([], [])) as Hinv.
    rewrite Hloop in Hinv. simpl in Hinv.
    rewrite Hinv; [apply visible_split_blank_from | done |]. clear -Hmax.
    intros pre para [chunks cc] IH _. simpl in IH.
    rewrite concat_app, visible_app, <- IH. simpl. rewrite app_nil_r.
    unfold chunkText_step.
    destruct (maxLength <? length para); [|destruct (_ && _) eqn:Hcond]; simpl.
    - rewrite concat_app, visible_app, splitByLength_visible by done.
      rewrite (visible_push _ _ _ (visible_truthy cc)).
      by rewrite app_nil_r.
    - rewrite concat_app, visible_app. simpl.
      by rewrite app_nil_r, visible_trim, <- app_assoc.
    - rewrite !visible_app, <- !app_assoc. do 2 f_equal.
      by destruct (truthy cc). }
  destruct (if truthy (trim cc) then chunks ++ [trim cc] else chunks)
    as [|c chunks'] eqn:Hfinal.
  - pose proof Hfinal as [Ht ->]%push_nil.
    apply truthy_false, trim_nil in Ht.
    pose proof (chunkText_loop_nil _ _ _ _ Hloop eq_refl Ht) as Hb.
    rewrite (visible_blank _ Hb). apply trim_nil in Hb. rewrite Hb.
    unfold slice. by rewrite drop_nil, take_nil.
  - rewrite <- Hfinal, <- Hkeep.
    apply (visible_push _ _ _ (visible_truthy_trim cc)).
Qed.

Lemma chunkText_keeps_visible_text_witness :
  1 ≤ 6
  ∧ visible (concat (chunkText (js "aaa bbb" ++ [LF; LF] ++ js "cc dddddddddd") 6))
    = visible (js "aaa bbb" ++ [LF; LF] ++ js "cc dddddddddd").
Proof.
  split; [lia |].
  apply (chunkText_keeps_visible_text (js "aaa bbb" ++ [LF; LF] ++ js "cc dddddddddd") 6).
  lia.
Defined.

Lemma split_blank_from_single s :
  ¬ has_blank_line s → split_blank_from false s = [s].
Proof.
  induction s as [|c s IH]; intros Hno; [done |]. simpl.
  rewrite andb_false_r.
  destruct (is_LF c && starts_with_LF s) eqn:Hsep.
  - exfalso. apply andb_true_iff in Hsep as [Hc%is_LF_eq Hs]. apply Hno.
    destruct s as [|d s]; [done |]. simpl in Hs. apply is_LF_eq in Hs. subst.
    by exists [], s.
  - rewrite IH; [done |]. intros (pre & post & ->). apply Hno.
    by exists (c :: pre), post.
Qed.

(** A text that fits in one chunk and holds no blank line comes back as one
    chunk, its trimmed text. *)
Theorem chunkText_short_text text maxLength :
  length text ≤ maxLength → ¬ has_blank_line text → trim text ≠ [] →
  chunkText text maxLength = [trim text].
Proof.
  intros Hlen Hno Htrim. unfold chunkText, chunkText_loop, split_blank.
  rewrite (split_blank_from_single _ Hno). simpl.
  destruct (Nat.ltb_spec maxLength (length text)); [lia |]. simpl.
  by destruct (trim text).
Qed.

Lemma chunkText_short_text_witness :
  length (js " a short note ") ≤ 2000
  ∧ chunkText (js " a short note ") 2000 = [js "a short note"].
Proof.
  assert (length (js " a short note ") ≤ 2000) as Hlen by (vm_compute; lia).
  split; [exact Hlen |].
  apply (chunkText_short_text (js " a short note ") 2000 Hlen).
  - intros (pre & post & Heq).
    assert (Forall (λ c, c ≠ LF) (js " a short note ")) as Hall
      by (repeat constructor; discriminate).
    rewrite Heq in Hall. apply Forall_app in Hall as [_ Hall].
    by inversion Hall.
  - vm_compute. discriminate.
Defined.

End ChunkerProperties.

(** ** Text extraction *)

Section ExtractionProperties.
Import Documents.
Implicit Types (s t : JSString) (c : N).

Lemma replace_crlf_cons2 c d s :
  replace_crlf (c :: d :: s)
  = if (c =? CR)%N && (d =? LF)%N then LF :: replace_crlf s
    else c :: replace_crlf (d :: s).
Proof. reflexivity. Qed.

Lemma visible_replace_crlf s : visible (replace_crlf s) = visible s.
Proof.
  assert (∀ n s, length s ≤ n → visible (replace_crlf s) = visible s) as Hall.
  { clear s. induction n as [|n IH]; intros [|c [|d s]] Hlen;
      try done; try (simpl in Hlen; lia).
    rewrite replace_crlf_cons2.
    destruct ((c =? CR)%N && (d =? LF)%N) eqn:Hcrlf.
    - apply andb_true_iff in Hcrlf as [->%N.eqb_eq ->%N.eqb_eq].
      rewrite !visible_cons. simpl. apply IH. simpl in Hlen. lia.
    - rewrite (visible_cons c (replace_crlf _)), (visible_cons c (d :: s)).
      rewrite (IH (d :: s)) by (simpl in *; lia). done. }
  by apply (Hall (length s)).
Qed.

Lemma collapse_from_cons run c s :
  collapse_from run (c :: s)
  = if is_LF c
    then (if 2 <=? run then collapse_from (S run) s
          else LF :: collapse_from (S run) s)
    else c :: collapse_from 0 s.
Proof. reflexivity. Qed.

Lemma visible_collapse_from run s : visible (collapse_from run s) = visible s.
Proof.
  revert run. induction s as [|c s IH]; intros run; [done |].
  rewrite collapse_from_cons, (visible_cons c s). destruct (is_LF c) eqn:Hc.
  - rewrite (is_LF_space _ Hc). destruct (2 <=? run); [apply IH |].
    rewrite visible_cons. simpl. apply IH.
  - by rewrite visible_cons, IH.
Qed.

Lemma triple_LF_cons c s :
  has_triple_LF (c :: s) → has_triple_LF s ∨ (c = LF ∧ 2 ≤ leadingLF s).
Proof.
  intros ([|c' pre] & post & Heq); simpl in Heq.
  - injection Heq as -> ->. right. split; [done |]. cbn. lia.
  - injection Heq as -> ->. left. by exists pre, post.
Qed.

(** After the collapse no three line feeds stand in a row; after [run]
    line feeds the output starts with at most [2 - run] more. *)
Lemma collapse_from_no_triple run s :
  ¬ has_triple_LF (collapse_from run s)
  ∧ leadingLF (collapse_from run s) ≤ 2 - run.
Proof.
  revert run. induction s as [|c s IH]; intros run.
  - simpl. split; [|lia]. intros ([|? ?] & post & Heq); discriminate.
  - rewrite collapse_from_cons. destruct (is_LF c) eqn:Hc.
    + destruct (Nat.leb_spec 2 run) as [Hrun|Hrun].
      * destruct (IH (S run)) as [Hno Hlead]. split; [done | lia].
      * destruct (IH (S run)) as [Hno Hlead]. split.
        -- intros [Ht | [_ Hl]]%triple_LF_cons; [done | lia].
        -- simpl. lia.
    + destruct (IH 0) as [Hno Hlead]. split.
      * intros [Ht | [-> _]]%triple_LF_cons; [done | discriminate].
      * simpl. rewrite Hc. lia.
Qed.

Lemma triple_LF_infix pre s post :
  has_triple_LF s → has_triple_LF (pre ++ s ++ post).
Proof.
  intros (a & b & ->). exists (pre ++ a), (b ++ post).
  by rewrite <- !app_assoc.
Qed.

Lemma cleaned_Ok prefix emptyMessage r t :
  cleaned prefix emptyMessage r = Ok t →
  ∃ text, r = Ok text ∧ t = trim (collapse_newlines (replace_crlf text)) ∧ t ≠ [].
Proof.
  unfold cleaned. destruct r as [text|e]; [|done].
  destruct (truthy _) eqn:Ht; [|done]. intros [= <-].
  exists text. split; [done |]. split; [done |]. by apply truthy_true.
Qed.

(** What the PDF, PowerPoint and Word branches hand on: a text that is not
    empty, has no whitespace at either end and no three line feeds in a
    row, and carries the non-whitespace characters the parser produced,
    all of them and in order. *)
Theorem extractTextFromFile_parsed_is_clean file t :
  parsedKind (name file) = true →
  extractTextFromFile file = Ok t →
  ∃ text, raw file = Ok text
          ∧ t ≠ [] ∧ trim t = t ∧ ¬ has_triple_LF t
          ∧ visible t = visible text.
Proof.
  intros Hkind Hok.
  assert (∃ prefix emptyMessage, cleaned prefix emptyMessage (raw file) = Ok t)
    as (prefix & emptyMessage & Hclean).
  { unfold extractTextFromFile in Hok. unfold parsedKind in Hkind.
    destruct (endsWith _ (js ".pdf")); [eauto |].
    destruct (endsWith _ (js ".pptx")); [eauto |].
    destruct (endsWith _ (js ".docx")); [eauto | done]. }
  apply cleaned_Ok in Hclean as (text & Hraw & -> & Hne).
  exists text. split; [done |]. split; [done |]. split; [apply trim_idemp |].
  split.
  - intros Ht.
    destruct (trim_infix (collapse_newlines (replace_crlf text))) as (pre & post & Heq).
    apply (triple_LF_infix pre _ post) in Ht. rewrite <- Heq in Ht.
    by apply (collapse_from_no_triple 0 (replace_crlf text)).
  - unfold collapse_newlines.
    by rewrite visible_trim, visible_collapse_from, visible_replace_crlf.
Qed.

Lemma extractTextFromFile_parsed_is_clean_witness :
  let file := {| name := js "Report.PDF";
                 raw := Ok ([LF] ++ js "one" ++ [CR; LF; CR; LF; LF; LF]
                            ++ js "two " ++ [LF]) |} in
  parsedKind (name file) = true
  ∧ extractTextFromFile file = Ok (js "one" ++ [LF; LF] ++ js "two")
  ∧ ¬ has_triple_LF (js "one" ++ [LF; LF] ++ js "two").
Proof.
  intros file.
  assert (parsedKind (name file) = true) as Hkind by reflexivity.
  assert (extractTextFromFile file = Ok (js "one" ++ [LF; LF] ++ js "two")) as Hok
    by (vm_compute; reflexivity).
  split; [exact Hkind |]. split; [exact Hok |].
  destruct (extractTextFromFile_parsed_is_clean file _ Hkind Hok)
    as (text & _ & _ & _ & Hno & _).
  exact Hno.
Defined.

(** The PDF, PowerPoint and Word branches fail in two cases: when the
    parser fails, with the parser's message after "Failed to parse",
    the kind of file and a colon; and when the text is empty after the
    clean-up, which is the case of every text made of whitespace. *)
Theorem extractTextFromFile_parsed_failure file :
  parsedKind (name file) = true →
  (∀ e, raw file = Err e →
     ∃ kind, extractTextFromFile file
             = Err {| message := js "Failed to parse " ++ kind ++ js ": "
                                 ++ message e |})
  ∧ (∀ text, raw file = Ok text → blank text →
       ∃ kind reason,
         extractTextFromFile file
         = Err {| message := js "Failed to parse " ++ kind ++ js ": " ++ reason |}).
Proof.
  intros Hkind.
  assert (∀ kind emptyMessage,
            (∀ e, raw file = Err e →
               cleaned ("Failed to parse " +:+ kind +:+ ": ") emptyMessage (raw file)
               = Err {| message := js ("Failed to parse " +:+ kind +:+ ": ")
                                   ++ message e |})
            ∧ (∀ text, raw file = Ok text → blank text →
                 cleaned ("Failed to parse " +:+ kind +:+ ": ") emptyMessage (raw file)
                 = Err {| message := js ("Failed to parse " +:+ kind +:+ ": ")
                                     ++ js emptyMessage |})) as Hclean.
  { intros kind emptyMessage. split.
    - by intros e ->.
    - intros text -> Hb. unfold cleaned.
      assert (trim (collapse_newlines (replace_crlf text)) = []) as ->; [|done].
      apply trim_nil. unfold blank. apply Forall_forall. intros c Hc.
      destruct (is_space c) eqn:Hsp; [done |]. exfalso.
      assert (c ∈ visible (collapse_newlines (replace_crlf text))) as Hin.
      { unfold visible. by apply list_elem_of_filter. }
      unfold collapse_newlines in Hin.
      rewrite visible_collapse_from, visible_replace_crlf, (visible_blank _ Hb) in Hin.
      by apply elem_of_nil in Hin. }
  unfold extractTextFromFile. unfold parsedKind in Hkind.
  destruct (endsWith _ (js ".pdf")).
  { destruct (Hclean "PDF" "PDF appears to be empty or contains only images")
      as [Hfail Hempty].
    split.
    - intros e He. exists (js "PDF"). exact (Hfail e He).
    - intros text Ht Hb. eexists (js "PDF"), _. exact (Hempty text Ht Hb). }
  destruct (endsWith _ (js ".pptx")).
  { destruct (Hclean "PowerPoint"
                "PowerPoint appears to be empty or contains only images")
      as [Hfail Hempty].
    split.
    - intros e He. exists (js "PowerPoint"). exact (Hfail e He).
    - intros text Ht Hb. eexists (js "PowerPoint"), _. exact (Hempty text Ht Hb). }
  destruct (endsWith _ (js ".docx")); [|done].
  destruct (Hclean "Word document" "Word document appears to be empty")
    as [Hfail Hempty].
  split.
  - intros e He. exists (js "Word document"). exact (Hfail e He).
  - intros text Ht Hb. eexists (js "Word document"), _. exact (Hempty text Ht Hb).
Qed.

Lemma extractTextFromFile_parsed_failure_witness :
  parsedKind (js "slides.pptx") = true
  ∧ ∃ e', extractTextFromFile {| name := js "slides.pptx"; raw := Ok (js "  " ++ [CR; LF]) |}
          = Err e'.
Proof.
  split; [reflexivity |].
  destruct (proj2 (extractTextFromFile_parsed_failure
                     {| name := js "slides.pptx"; raw := Ok (js "  " ++ [CR; LF]) |}
                     eq_refl) (js "  " ++ [CR; LF])) as (kind & reason & Hfail).
  - reflexivity.
  - by repeat constructor.
  - eexists. exact Hfail.
Defined.

End ExtractionProperties.

(** ** Rate governor *)

Section RateLimitProperties.
Implicit Types (store : gmap JSString RateLimitEntry) (ip : JSString)
  (config : RateLimitConfig) (now : Z) (e : RateLimitEntry).

Lemma checkRateLimit_lookup_ne now ip ip' config store :
  ip' ≠ ip →
  (checkRateLimit now ip config store).2 !! ip' = cleanup now store !! ip'.
Proof.
  intros Hne. unfold checkRateLimit.
  destruct (store !! ip) as [e|]; [|by simpl; rewrite lookup_insert_ne].
  destruct (_ <? _)%Z; [by simpl; rewrite lookup_insert_ne |].
  destruct (_ <=? _)%Z; [done |]. by simpl; rewrite lookup_insert_ne.
Qed.

Lemma cleanup_lookup now store ip :
  cleanup now store !! ip
  = if (10000 <? Z.of_nat (size store))%Z
    then match store !! ip with
         | Some e => if (resetTime e <? now)%Z then None else Some e
         | None => None
         end
    else store !! ip.
Proof.
  unfold cleanup. destruct (_ <? _)%Z; [|done].
  destruct (store !! ip) as [e|] eqn:Hip.
  - destruct (Z.ltb_spec (resetTime e) now).
    + apply map_lookup_filter_None. right. intros e' He'. simpl.
      assert (e' = e) as -> by congruence. lia.
    + apply map_lookup_filter_Some. split; [done | simpl; lia].
  - apply map_lookup_filter_None. by left.
Qed.

(** A call by one identity never alters the entry of another: a live
    entry stays as it is, nothing is created, and the only change there
    can be is the removal of an entry whose window has elapsed, which
    happens exactly when the table holds more than 10000 entries. *)
Theorem checkRateLimit_other_identities now ip ip' config store :
  ip' ≠ ip →
  let store' := (checkRateLimit now ip config store).2 in
  (∀ e, store !! ip' = Some e → (now ≤ resetTime e)%Z → store' !! ip' = Some e)
  ∧ (∀ e', store' !! ip' = Some e' → store !! ip' = Some e')
  ∧ ((Z.of_nat (size store) ≤ 10000)%Z → store' !! ip' = store !! ip')
  ∧ ((10000 < Z.of_nat (size store))%Z →
     ∀ e', store' !! ip' = Some e' → (now ≤ resetTime e')%Z).
Proof.
  intros Hne store'. subst store'.
  rewrite (checkRateLimit_lookup_ne _ _ _ _ _ Hne), cleanup_lookup.
  destruct (Z.ltb_spec 10000 (Z.of_nat (size store))).
  - split; [|split; [|split]].
    + intros e -> Hlive. by destruct (Z.ltb_spec (resetTime e) now); [lia |].
    + intros e'. destruct (store !! ip') as [e|]; [|done].
      by destruct (_ <? _)%Z.
    + lia.
    + intros _ e'. destruct (store !! ip') as [e|]; [|done].
      destruct (Z.ltb_spec (resetTime e) now); [done |]. intros [= <-]. lia.
  - split; [done |]. split; [done |]. split; [done | lia].
Qed.

Lemma checkRateLimit_other_identities_witness :
  js "198.51.100.4" ≠ js "203.0.113.7"
  ∧ (checkRateLimit 5 (js "203.0.113.7") uploadRateLimit
       {[ js "198.51.100.4" := {| count := 3; resetTime := 9 |} ]}).2
      !! js "198.51.100.4"
    = Some {| count := 3; resetTime := 9 |}.
Proof.
  assert (js "198.51.100.4" ≠ js "203.0.113.7") as Hne by (vm_compute; discriminate).
  split; [exact Hne |].
  apply (checkRateLimit_other_identities 5 (js "203.0.113.7") (js "198.51.100.4")
           uploadRateLimit _ Hne); first [reflexivity | simpl; lia].
Defined.

Lemma checkRateLimit_reports_stored_entry_aux now ip config store :
  ∃ e', (checkRateLimit now ip config store).2 !! ip = Some e'
        ∧ resetIn (checkRateLimit now ip config store).1 = (resetTime e' - now)%Z
        ∧ (allowed (checkRateLimit now ip config store).1 = true →
           remaining (checkRateLimit now ip config store).1
           = (maxRequests config - count e')%Z)
        ∧ (allowed (checkRateLimit now ip config store).1 = false →
           store !! ip = Some e'
           ∧ remaining (checkRateLimit now ip config store).1 = 0%Z
           ∧ (maxRequests config ≤ count e')%Z ∧ (now ≤ resetTime e')%Z).
Proof.
  destruct (store !! ip) as [e|] eqn:Hip.
  - destruct (Z_lt_le_dec (resetTime e) now) as [Hold|Hlive].
    + rewrite (checkRateLimit_elapsed _ _ _ _ _ Hip Hold). eexists.
      split; [apply lookup_insert_eq |]. simpl. split; [lia |]. by split.
    + destruct (Z_lt_le_dec (count e) (maxRequests config)) as [Hroom|Hfull].
      * rewrite (checkRateLimit_counted _ _ _ _ _ Hip Hlive Hroom). eexists.
        split; [apply lookup_insert_eq |]. simpl. split; [lia |]. by split.
      * rewrite (checkRateLimit_denied _ _ _ _ _ Hip Hlive Hfull). exists e.
        split; [by apply cleanup_lookup_live |]. simpl. split; [done |].
        by split.
  - rewrite (checkRateLimit_fresh _ _ _ _ Hip). eexists.
    split; [apply lookup_insert_eq |]. simpl. split; [lia |]. by split.
Qed.

(** What a call reports is what it stored: the caller always ends up with
    an entry, [resetIn] is the time from now to that entry's window end,
    an admitted call reports the quota left after counting itself, and a
    refused call leaves the entry exactly as it was. *)
Theorem checkRateLimit_reports_stored_entry now ip config store :
  let r := (checkRateLimit now ip config store).1 in
  let store' := (checkRateLimit now ip config store).2 in
  ∃ e', store' !! ip = Some e'
        ∧ resetIn r = (resetTime e' - now)%Z
        ∧ (allowed r = true → remaining r = (maxRequests config - count e')%Z)
        ∧ (allowed r = false →
           store !! ip = Some e' ∧ remaining r = 0%Z
           ∧ (maxRequests config ≤ count e')%Z ∧ (now ≤ resetTime e')%Z).
Proof.
  intros r store'. subst r store'.
  destruct (checkRateLimit_reports_stored_entry_aux now ip config store)
    as (e' & He' & Hreset & Hadmit & Hrefuse).
  exists e'. split; [done |]. split; [done |]. split; [done |].
  intros Hd. by apply Hrefuse.
Qed.

Lemma retryAfter_ceil (resetIn : Z) :
  (resetIn ≤ 1000 * retryAfter resetIn < resetIn + 1000)%Z.
Proof.
  unfold retryAfter.
  pose proof (Z.div_mod (- resetIn) 1000 ltac:(lia)).
  pose proof (Z.mod_pos_bound (- resetIn) 1000 ltac:(lia)). lia.
Qed.

(** The [Retry-After] of a refusal is enough: it is the time to the window
    end rounded up to whole seconds, and any call the caller makes later
    than that many seconds after the refusal opens a fresh window and is
    admitted, under whichever policy. *)
Theorem retry_after_is_enough now ip config store :
  allowed (checkRateLimit now ip config store).1 = false →
  let r := (checkRateLimit now ip config store).1 in
  let store' := (checkRateLimit now ip config store).2 in
  (resetIn r ≤ 1000 * retryAfter (resetIn r) < resetIn r + 1000)%Z
  ∧ ∀ now' config',
      (now + 1000 * retryAfter (resetIn r) < now')%Z →
      (checkRateLimit now' ip config' store').1
      = {| allowed := true; remaining := maxRequests config' - 1;
           resetIn := windowMs config' |}.
Proof.
  intros Hdenied r store'. split; [apply retryAfter_ceil |].
  intros now' config' Hlater.
  pose proof (retryAfter_ceil (resetIn r)) as Hceil.
  destruct (checkRateLimit_reports_stored_entry_aux now ip config store)
    as (e' & He' & Hreset & _ & Hd).
  fold r in Hreset. fold store' in He'.
  rewrite (checkRateLimit_elapsed now' ip config' store' e' He'); [done | lia].
Qed.

Lemma retry_after_is_enough_witness :
  let store := (checkMany (js "203.0.113.7") uploadRateLimit (replicate 10 0%Z) ∅).2 in
  allowed (checkRateLimit 500 (js "203.0.113.7") uploadRateLimit store).1 = false
  ∧ retryAfter (resetIn (checkRateLimit 500 (js "203.0.113.7") uploadRateLimit store).1)
    = 60%Z
  ∧ allowed (checkRateLimit 60501 (js "203.0.113.7") askRateLimit
               (checkRateLimit 500 (js "203.0.113.7") uploadRateLimit store).2).1
    = true.
Proof.
  intros store.
  assert (allowed (checkRateLimit 500 (js "203.0.113.7") uploadRateLimit store).1
          = false) as Hdenied by (vm_compute; reflexivity).
  split; [exact Hdenied |]. split; [vm_compute; reflexivity |].
  rewrite (proj2 (retry_after_is_enough 500 (js "203.0.113.7") uploadRateLimit store
                    Hdenied) 60501%Z askRateLimit); [reflexivity |].
  vm_compute. reflexivity.
Defined.

Lemma before_comma_no_comma (s : JSString) : 44%N ∉ before_comma s.
Proof.
  induction s as [|c s IH]; [apply not_elem_of_nil |].
  change (before_comma (c :: s))
    with (if (c =? 44)%N then [] else c :: before_comma s).
  destruct (N.eqb_spec c 44); [apply not_elem_of_nil |].
  intros [?|?]%elem_of_cons; done.
Qed.

(** The identity read from a non-empty [x-forwarded-for] header is the
    text before its first comma, trimmed, whatever [x-real-ip] says: it
    holds no comma and no whitespace at either end. *)
Theorem getClientIP_forwarded h f :
  x_forwarded_for h = Some f → f ≠ [] →
  getClientIP h = trim (before_comma f)
  ∧ (44%N ∉ getClientIP h)
  ∧ trim (getClientIP h) = getClientIP h.
Proof.
  intros Hf Hne. unfold getClientIP. rewrite Hf.
  destruct f as [|c f]; [done |]. cbn [truthy].
  split; [done |]. split; [|apply trim_idemp].
  destruct (trim_infix (before_comma (c :: f))) as (pre & post & Heq).
  intros Hin. apply (before_comma_no_comma (c :: f)). rewrite Heq.
  apply elem_of_app. right. apply elem_of_app. by left.
Qed.

Lemma getClientIP_forwarded_witness :
  x_forwarded_for Sample.alice = Some (js "203.0.113.7, 10.0.0.1")
  ∧ js "203.0.113.7, 10.0.0.1" ≠ []
  ∧ getClientIP Sample.alice = js "203.0.113.7".
Proof.
  split; [reflexivity |]. split; [discriminate |].
  rewrite (proj1 (getClientIP_forwarded Sample.alice (js "203.0.113.7, 10.0.0.1")
                    eq_refl ltac:(discriminate))).
  reflexivity.
Defined.

(** The identity is the empty string in one case only: a non-empty
    [x-forwarded-for] header with nothing but whitespace before its first
    comma.  That is also the only case in which [getIndex] hands the
    routes the bare index instead of a namespace. *)
Theorem getClientIP_empty_iff h key :
  truthy key = true →
  (getClientIP h = []
   ↔ ∃ f, x_forwarded_for h = Some f ∧ f ≠ [] ∧ blank (before_comma f))
  ∧ (getIndex (Some key) (getClientIP h) = Ok WholeIndex ↔ getClientIP h = []).
Proof.
  intros Hkey. split.
  - unfold getClientIP. split.
    + destruct (x_forwarded_for h) as [[|c f]|]; cbn [truthy].
      * destruct (x_real_ip h) as [[|d r]|]; by cbn [truthy].
      * intros Hnil%trim_nil. by exists (c :: f).
      * destruct (x_real_ip h) as [[|d r]|]; by cbn [truthy].
    + intros (f & -> & Hne & Hb). destruct f as [|c f]; [done |]. cbn [truthy].
      by apply trim_nil.
  - unfold getIndex. rewrite Hkey. destruct (getClientIP h); cbn [truthy]; split; done.
Qed.

Lemma getClientIP_empty_iff_witness :
  truthy (js "pc-key") = true
  ∧ getIndex (Some (js "pc-key"))
      (getClientIP {| x_forwarded_for := Some (js " , 10.0.0.1");
                      x_real_ip := Some (js "198.51.100.4") |})
    = Ok WholeIndex.
Proof.
  split; [reflexivity |].
  apply (proj2 (getClientIP_empty_iff
                  {| x_forwarded_for := Some (js " , 10.0.0.1");
                     x_real_ip := Some (js "198.51.100.4") |} (js "pc-key") eq_refl)).
  apply (proj1 (getClientIP_empty_iff
                  {| x_forwarded_for := Some (js " , 10.0.0.1");
                     x_real_ip := Some (js "198.51.100.4") |} (js "pc-key") eq_refl)).
  exists (js " , 10.0.0.1"). split; [reflexivity |]. split; [discriminate |].
  by repeat constructor.
Defined.

End RateLimitProperties.

(** ** Embedding gateway *)

Section GatewayProperties.
Context {Embedding : Type}.
Implicit Types (fetch : nat → FetchResult Embedding) (r : Response Embedding).

Lemma attempts_fetch attempt (evs : list (@Event)) :
  attempts (EvFetch attempt :: evs) = S (attempts evs).
Proof. reflexivity. Qed.

Lemma attempts_sleep ms (evs : list (@Event)) :
  attempts (EvSleep ms :: evs) = attempts evs.
Proof. reflexivity. Qed.

Lemma sleeps_fetch attempt (evs : list (@Event)) :
  sleeps (EvFetch attempt :: evs) = sleeps evs.
Proof. reflexivity. Qed.

Lemma sleeps_sleep ms (evs : list (@Event)) :
  sleeps (EvSleep ms :: evs) = ms :: sleeps evs.
Proof. reflexivity. Qed.

Lemma retryLoop_bounded fetch remaining :
  ∀ attempt lastError,
    attempts (retryLoop fetch remaining attempt lastError).2 ≤ remaining
    ∧ sleeps (retryLoop fetch remaining attempt lastError).2
      `prefix_of` ((λ i, 1000 * 2 ^ Z.of_nat (attempt + i))%Z <$> seq 0 remaining).
Proof.
  induction remaining as [|remaining IH]; intros attempt lastError.
  - split; [cbn; lia | done].
  - cbn [retryLoop]. destruct (fetch attempt) as [r|e].
    + destruct (ok r); [split; [cbn; lia | apply prefix_nil] |].
      destruct (errorText r) as [text|e]; [|split; [cbn; lia | apply prefix_nil]].
      destruct (retryable r); [|split; [cbn; lia | apply prefix_nil]].
      destruct (IH (S attempt) (Some (apiError text))) as [Ha Hs].
      destruct (retryLoop fetch remaining (S attempt) _) as [res evs].
      cbn [snd] in *. split.
      * rewrite attempts_fetch, attempts_sleep. lia.
      * rewrite sleeps_fetch, sleeps_sleep.
        cbn [seq fmap list_fmap]. rewrite Nat.add_0_r.
        apply prefix_cons.
        rewrite <- seq_shift, <- list_fmap_compose.
        erewrite list_fmap_ext; [exact Hs |].
        intros _ i _. simpl. by rewrite Nat.add_succ_r.
    + split; [cbn; lia | apply prefix_nil].
Qed.

Lemma sum_prefix (l1 l2 : list Z) :
  l1 `prefix_of` l2 → Forall (λ z, 0 ≤ z)%Z l2 →
  (foldr Z.add 0 l1 ≤ foldr Z.add 0 l2)%Z.
Proof.
  intros [k ->] Hpos. apply Forall_app in Hpos as [_ Hk].
  rewrite foldr_app.
  assert (0 ≤ foldr Z.add 0 k)%Z as Hk0.
  { induction Hk; simpl; lia. }
  revert Hk0. generalize (foldr Z.add 0%Z k). intros z Hz.
  induction l1 as [|a l1 IH]; simpl; lia.
Qed.

(** Whatever the provider does, one call makes at most five requests, its
    sleeps are an initial stretch of 1 s, 2 s, 4 s, 8 s, 16 s, and it
    sleeps 31 s at most in total; without an API key it makes no request
    at all. *)
Theorem getEmbedding_bounded_effort (apiKey : option JSString) fetch :
  let evs := (getEmbedding apiKey fetch).2 in
  attempts evs ≤ 5
  ∧ sleeps evs `prefix_of` [1000; 2000; 4000; 8000; 16000]%Z
  ∧ (foldr Z.add 0 (sleeps evs) ≤ 31000)%Z
  ∧ (apiKey = None ∨ apiKey = Some [] → evs = []).
Proof.
  intros evs. subst evs.
  assert (attempts (getEmbedding apiKey fetch).2 ≤ 5
          ∧ sleeps (getEmbedding apiKey fetch).2
            `prefix_of` [1000; 2000; 4000; 8000; 16000]%Z) as [Ha Hs].
  { unfold getEmbedding. destruct apiKey as [[|c k]|]; cbn [truthy].
    - split; [unfold attempts; simpl; lia | apply prefix_nil].
    - apply (retryLoop_bounded fetch MAX_RETRIES 0 None).
    - split; [unfold attempts; simpl; lia | apply prefix_nil]. }
  split; [done |]. split; [done |]. split.
  - apply (sum_prefix _ _ Hs). repeat constructor; lia.
  - by intros [-> | ->].
Qed.

Lemma transient_run_S fetch attempt k r :
  fetch attempt = Resolved r → transient r →
  transient_run fetch (S attempt) k → transient_run fetch attempt (S k).
Proof.
  intros Hr Ht Hrun [|i] Hi.
  - exists r. by rewrite Nat.add_0_r.
  - destruct (Hrun i ltac:(lia)) as (r' & Hr' & Ht').
    exists r'. by rewrite Nat.add_succ_r.
Qed.

Lemma not_ok_status r : ok r = false → (status r < 200 ∨ 299 < status r)%Z.
Proof.
  unfold ok. intros [H%Z.leb_gt | H%Z.leb_gt]%andb_false_iff; lia.
Qed.

Lemma not_retryable_status r :
  retryable r = false → (status r ≠ 429 ∧ status r < 500)%Z.
Proof.
  unfold retryable. intros [H1%Z.eqb_neq H2%Z.leb_gt]%orb_false_iff. done.
Qed.

Lemma retryLoop_ending fetch remaining :
  ∀ attempt lastError,
    Ending fetch attempt remaining lastError
      (retryLoop fetch remaining attempt lastError).1.
Proof.
  induction remaining as [|remaining IH]; intros attempt lastError.
  - by apply NoAttempt.
  - cbn [retryLoop]. destruct (fetch attempt) as [r|e] eqn:Hf.
    2: { apply (Unreachable _ _ _ _ 0 e); [lia | intros i; lia |].
         by rewrite Nat.add_0_r. }
    destruct (ok r) eqn:Hok.
    { apply (Answered _ _ _ _ 0 r); [lia | intros i; lia | | by apply ok_iff].
      by rewrite Nat.add_0_r. }
    apply not_ok_status in Hok.
    destruct (errorText r) as [text|e] eqn:Htext.
    2: { apply (Unreadable _ _ _ _ 0 r e); [lia | intros i; lia | | done..].
         by rewrite Nat.add_0_r. }
    destruct (retryable r) eqn:Hretry.
    2: { apply not_retryable_status in Hretry as [Hne Hlt].
         apply (Refused _ _ _ _ 0 r text); [lia | intros i; lia | | lia | done..].
         by rewrite Nat.add_0_r. }
    assert (transient r) as Ht.
    { split; [by apply retryable_iff | by exists text]. }
    specialize (IH (S attempt) (Some (apiError text))).
    destruct (retryLoop fetch remaining (S attempt) _) as [res evs].
    cbn [fst] in *.
    destruct IH as [k r' Hk Hrun Hr' Hok'|k r' text' Hk Hrun Hr' Hst' Hne' Htext'
                   |k r' e Hk Hrun Hr' Hst' Htext'|k e Hk Hrun He
                   |r' text' Hpos Hrun Hr' Htext'|Hzero].
    + apply (Answered _ _ _ _ (S k) r'); [lia | | | done].
      * by eapply transient_run_S.
      * by rewrite Nat.add_succ_r.
    + apply (Refused _ _ _ _ (S k) r' text'); [lia | | | done..].
      * by eapply transient_run_S.
      * by rewrite Nat.add_succ_r.
    + apply (Unreadable _ _ _ _ (S k) r' e); [lia | | | done..].
      * by eapply transient_run_S.
      * by rewrite Nat.add_succ_r.
    + apply (Unreachable _ _ _ _ (S k) e); [lia | |].
      * by eapply transient_run_S.
      * by rewrite Nat.add_succ_r.
    + apply (Exhausted _ _ _ _ r' text'); [lia | by eapply transient_run_S | | done].
      rewrite <- Hr'. f_equal. lia.
    + subst remaining. cbn [default].
      apply (Exhausted _ _ _ _ r text); [lia | | | done].
      * eapply transient_run_S; [done.. |]. intros i; lia.
      * rewrite <- Hf. f_equal. lia.
Qed.

(** Every outcome of [getEmbedding] with the key set arises in one of six
    ways.  It returns a vector: the one read from a response with a status
    from 200 to 299 that follows [k < 5] transient failures (status 429,
    or 500 and up, with a readable body).  It throws: what reading such a
    response threw; or the error made of the body of a response whose
    status is outside 200 to 299, is not 429 and is below 500, after
    [k < 5] transient failures; or what reading the body of a failed
    response threw; or the rejection of [fetch]; or, after five transient
    failures in a row, the error made of the body of the fifth. *)
Theorem getEmbedding_outcome (key : JSString) fetch :
  truthy key = true →
  match (getEmbedding (Some key) fetch).1 with
  | Ok v =>
      ∃ k r, k < 5 ∧ transient_run fetch 0 k ∧ fetch k = Resolved r
             ∧ (200 ≤ status r ≤ 299)%Z ∧ embedding r = Ok v
  | Err e =>
      (∃ k r, k < 5 ∧ transient_run fetch 0 k ∧ fetch k = Resolved r
              ∧ (200 ≤ status r ≤ 299)%Z ∧ embedding r = Err e)
      ∨ (∃ k r text, k < 5 ∧ transient_run fetch 0 k ∧ fetch k = Resolved r
                     ∧ (status r < 200 ∨ 299 < status r < 500)%Z
                     ∧ status r ≠ 429%Z
                     ∧ errorText r = Ok text ∧ e = apiError text)
      ∨ (∃ k r, k < 5 ∧ transient_run fetch 0 k ∧ fetch k = Resolved r
                ∧ (status r < 200 ∨ 299 < status r)%Z ∧ errorText r = Err e)
      ∨ (∃ k, k < 5 ∧ transient_run fetch 0 k ∧ fetch k = Rejected e)
      ∨ (∃ r text, transient_run fetch 0 5 ∧ fetch 4 = Resolved r
                   ∧ errorText r = Ok text ∧ e = apiError text)
  end.
Proof.
  intros Hkey. unfold getEmbedding. rewrite Hkey.
  destruct (retryLoop_ending fetch MAX_RETRIES 0 None)
    as [k r Hk Hrun Hr Hok|k r text Hk Hrun Hr Hst Hne Htext
       |k r e Hk Hrun Hr Hst Htext|k e Hk Hrun He
       |r text Hpos Hrun Hr Htext|Hzero].
  - destruct (embedding r) as [v|e] eqn:Hbody.
    + exists k, r. done.
    + left. exists k, r. done.
  - right. left. exists k, r, text. done.
  - right. right. left. exists k, r. done.
  - right. right. right. left. exists k. done.
  - right. right. right. right. exists r, text. done.
  - done.
Qed.

(** The retry schedule.  With the key set, after [k < 5] transient
    failures (status 429, or 500 and up, with a readable body): a response
    with a status from 200 to 299 whose body reads as a vector makes the
    call return that vector; a response whose status is outside 200 to
    299, is not 429 and is below 500 makes it throw the error made of its
    body; a rejected [fetch] makes it throw the rejection.  In each case
    the call has made [k + 1] requests and slept [k] times, 1000 * 2^i ms
    after the [i]-th failure, nothing following the last request.  After
    five transient failures in a row the call has made five requests and
    slept five times, 1 s, 2 s, 4 s, 8 s and 16 s, the last sleep after
    the fifth request, and throws the error made of the fifth body. *)
Theorem getEmbedding_retry_schedule (key : JSString) fetch :
  truthy key = true →
  let res := (getEmbedding (Some key) fetch).1 in
  let evs := (getEmbedding (Some key) fetch).2 in
  (∀ k r v, k < 5 → transient_run fetch 0 k → fetch k = Resolved r →
     (200 ≤ status r ≤ 299)%Z → embedding r = Ok v →
     res = Ok v
     ∧ evs = backoffTrace 0 k ++ [EvFetch k]
     ∧ attempts evs = S k
     ∧ sleeps evs = (λ i, 1000 * 2 ^ Z.of_nat i)%Z <$> seq 0 k)
  ∧ (∀ r text, transient_run fetch 0 5 → fetch 4 = Resolved r →
       errorText r = Ok text →
       res = Err (apiError text)
       ∧ evs = backoffTrace 0 5
       ∧ attempts evs = 5
       ∧ sleeps evs = [1000; 2000; 4000; 8000; 16000]%Z)
  ∧ (∀ k r text, k < 5 → transient_run fetch 0 k → fetch k = Resolved r →
       (status r < 200 ∨ 299 < status r < 500)%Z → status r ≠ 429%Z →
       errorText r = Ok text →
       res = Err (apiError text)
       ∧ evs = backoffTrace 0 k ++ [EvFetch k]
       ∧ attempts evs = S k
       ∧ sleeps evs = (λ i, 1000 * 2 ^ Z.of_nat i)%Z <$> seq 0 k)
  ∧ (∀ k e, k < 5 → transient_run fetch 0 k → fetch k = Rejected e →
       res = Err e
       ∧ evs = backoffTrace 0 k ++ [EvFetch k]
       ∧ attempts evs = S k
       ∧ sleeps evs = (λ i, 1000 * 2 ^ Z.of_nat i)%Z <$> seq 0 k).
Proof.
  intros Hkey res evs. subst res evs. unfold getEmbedding. rewrite Hkey.
  assert (∀ k, k < 5 → transient_run fetch 0 k →
            ∀ out, (∀ lastError, retryLoop fetch (S (4 - k)) k lastError = (out, [EvFetch k])) →
            (retryLoop fetch MAX_RETRIES 0 None).1 = out
            ∧ (retryLoop fetch MAX_RETRIES 0 None).2 = backoffTrace 0 k ++ [EvFetch k]
            ∧ attempts (retryLoop fetch MAX_RETRIES 0 None).2 = S k
            ∧ sleeps (retryLoop fetch MAX_RETRIES 0 None).2
              = (λ i, 1000 * 2 ^ Z.of_nat i)%Z <$> seq 0 k) as Hends.
  { intros k Hk Hrun out Hout.
    destruct (retryLoop_transient_run fetch k (S (4 - k)) 0 None Hrun)
      as (lastError' & _ & _ & Heq).
    replace (k + S (4 - k)) with MAX_RETRIES in Heq by (unfold MAX_RETRIES; lia).
    rewrite Heq. simpl (0 + k). rewrite Hout. cbn [fst snd].
    split; [done |]. split; [done |].
    rewrite attempts_backoffTrace, sleeps_backoffTrace.
    split; [unfold attempts; simpl; lia |].
    unfold sleeps. simpl. by rewrite app_nil_r. }
  split; [|split; [|split]].
  - intros k r v Hk Hrun Hr Hok Hbody. apply Hends; [done.. |].
    intros lastError. simpl. apply ok_iff in Hok. by rewrite Hr, Hok, Hbody.
  - intros r text Hrun Hr Htext.
    destruct (retryLoop_transient_run fetch 5 0 0 None Hrun)
      as (lastError' & _ & Hlast & Heq).
    change (5 + 0) with MAX_RETRIES in Heq. rewrite Heq.
    rewrite (Hlast r text) by (done || lia). cbn [retryLoop fst snd default].
    rewrite app_nil_r. split; [done |]. split; [done |].
    split; reflexivity.
  - intros k r text Hk Hrun Hr Hstatus Hne Htext. apply Hends; [done.. |].
    intros lastError. simpl. rewrite Hr, Htext.
    assert (ok r = false) as -> by (unfold ok; apply andb_false_iff;
      rewrite !Z.leb_gt; lia).
    assert (retryable r = false) as ->; [|done].
    unfold retryable. apply orb_false_iff. rewrite Z.eqb_neq, Z.leb_gt. lia.
  - intros k e Hk Hrun He. apply Hends; [done.. |].
    intros lastError. simpl. by rewrite He.
Qed.

Lemma all_Ok_iff (rs : list (Result Embedding)) vs : all rs = Ok vs ↔ rs = Ok <$> vs.
Proof.
  revert vs. induction rs as [|[v|e] rs IH]; intros vs; simpl.
  - split; [by intros [= <-] | by destruct vs].
  - destruct (all rs) as [vs'|e'] eqn:Hall.
    + split.
      * intros [= <-]. simpl. f_equal. by apply IH.
      * destruct vs as [|v0 vs0]; [done |]. intros [= -> Hrs]. do 2 f_equal.
        apply IH in Hrs. congruence.
    + split; [done |]. destruct vs as [|v0 vs0]; [done |]. intros [= -> Hrs].
      apply IH in Hrs. done.
  - split; [done |]. by destruct vs.
Qed.

Lemma all_Err_inv (rs : list (Result Embedding)) e :
  all rs = Err e → ∃ j, rs !! j = Some (Err e).
Proof.
  induction rs as [|[v|e0] rs IH]; simpl; [done | |].
  - destruct (all rs); [done |]. intros [= ->].
    destruct (IH eq_refl) as [j Hj]. by exists (S j).
  - intros [= ->]. by exists 0.
Qed.

(** A batch keeps the order of its texts: it succeeds exactly when every
    text is embedded, and then returns one vector per text, the [j]-th
    being the one obtained for the [j]-th text; when it fails, the error
    is the error of one of its texts. *)
Theorem getEmbeddingsBatch_order (apiKey : option JSString)
    (provider : nat → nat → FetchResult Embedding) (texts : list JSString) :
  match getEmbeddingsBatch apiKey provider texts with
  | Ok vs =>
      length vs = length texts
      ∧ ∀ j v, vs !! j = Some v → (getEmbedding apiKey (provider j)).1 = Ok v
  | Err e =>
      ∃ j, j < length texts ∧ (getEmbedding apiKey (provider j)).1 = Err e
  end.
Proof.
  unfold getEmbeddingsBatch.
  destruct (all _) as [vs|e] eqn:Hall.
  - apply all_Ok_iff in Hall.
    assert (length vs = length texts) as Hlen.
    { apply (f_equal length) in Hall. by rewrite length_imap, length_fmap in Hall. }
    split; [done |]. intros j v Hv.
    apply (f_equal (λ l, l !! j)) in Hall.
    rewrite list_lookup_imap, list_lookup_fmap, Hv in Hall.
    destruct (texts !! j); simpl in Hall; congruence.
  - apply all_Err_inv in Hall as [j Hj]. rewrite list_lookup_imap in Hj.
    destruct (texts !! j) as [t|] eqn:Ht; [|done]. simpl in Hj.
    exists j. split; [by eapply lookup_lt_Some | congruence].
Qed.

End GatewayProperties.

Lemma twiceBusy_transient_run : transient_run Sample.twiceBusy 0 2.
Proof.
  intros [|[|i]] Hi; [| |lia].
  - eexists. split; [reflexivity |]. split; [right; simpl; lia | by eexists].
  - eexists. split; [reflexivity |]. split; [left; reflexivity | by eexists].
Qed.

Lemma getEmbedding_outcome_witness :
  truthy (js "nvapi-key") = true
  ∧ ∃ k r, k < 5 ∧ transient_run Sample.twiceBusy 0 k
           ∧ Sample.twiceBusy k = Resolved r ∧ (200 ≤ status r ≤ 299)%Z
           ∧ embedding r = Ok [1; 2; 3]%Z.
Proof.
  split; [reflexivity |].
  exact (getEmbedding_outcome (js "nvapi-key") Sample.twiceBusy eq_refl).
Defined.

Lemma getEmbedding_retry_schedule_witness :
  truthy (js "nvapi-key") = true
  ∧ transient_run Sample.twiceBusy 0 2
  ∧ (getEmbedding (Some (js "nvapi-key")) Sample.twiceBusy).1 = Ok [1; 2; 3]%Z
  ∧ sleeps (getEmbedding (Some (js "nvapi-key")) Sample.twiceBusy).2 = [1000; 2000]%Z.
Proof.
  split; [reflexivity |]. split; [exact twiceBusy_transient_run |].
  destruct (getEmbedding_retry_schedule (js "nvapi-key") Sample.twiceBusy eq_refl)
    as [Hsuccess _].
  destruct (Hsuccess 2 {| status := 200; errorText := Ok []; embedding := Ok [1; 2; 3]%Z |}
              [1; 2; 3]%Z) as (Hres & _ & _ & Hsleeps).
  - lia.
  - exact twiceBusy_transient_run.
  - reflexivity.
  - simpl. lia.
  - reflexivity.
  - split; [exact Hres | exact Hsleeps].
Defined.

(** ** Vector index *)

Section IndexProperties.
Context {Embedding : Type} `{!VectorIndex Embedding}.
Implicit Types (st : gmap JSString (gmap JSString (StoredRecord Embedding)))
  (P : gmap JSString (StoredRecord Embedding)) (h : IndexHandle)
  (records : list (JSString * StoredRecord Embedding)) (ids : list JSString).

Lemma lookup_fold_insert_notin records P i :
  i ∉ records.*1 →
  fold_left (λ p r, <[r.1 := r.2]> p) records P !! i = P !! i.
Proof.
  revert P. induction records as [|[k r] records IH]; intros P Hnot; [done |].
  simpl in *. apply not_elem_of_cons in Hnot as [Hne Hnot].
  rewrite IH by done. by apply lookup_insert_ne.
Qed.

Lemma lookup_fold_insert_last l1 i r l2 P :
  i ∉ l2.*1 →
  fold_left (λ p r, <[r.1 := r.2]> p) (l1 ++ (i, r) :: l2) P !! i = Some r.
Proof.
  intros Hnot. rewrite fold_left_app. simpl.
  rewrite lookup_fold_insert_notin by done. apply lookup_insert_eq.
Qed.

Lemma partition_upsert_eq h records st :
  partition (upsert h records st) (target h)
  = fold_left (λ p r, <[r.1 := r.2]> p) records (partition st (target h)).
Proof. unfold partition at 1, upsert. by rewrite target_key, lookup_insert_eq. Qed.

Lemma partition_upsert_own apiKey ip ix records st :
  getIndex apiKey ip = Ok ix →
  partition (upsert ix records st) ip
  = fold_left (λ p r, <[r.1 := r.2]> p) records (partition st ip).
Proof.
  intros Hix. rewrite <- !(getIndex_partition _ _ _ _ Hix).
  apply partition_upsert_eq.
Qed.

(** Upsert and lookup: a record written is found under its id (the last
    one written under an id wins), every other id of the partition keeps
    what it had, and every other partition is left alone. *)
Theorem upsert_lookup h records st :
  (∀ l1 i r l2, records = l1 ++ (i, r) :: l2 → i ∉ l2.*1 →
     partition (upsert h records st) (target h) !! i = Some r)
  ∧ (∀ i, i ∉ records.*1 →
       partition (upsert h records st) (target h) !! i
       = partition st (target h) !! i)
  ∧ (∀ ns, namespaceKey ns ≠ target h →
       partition (upsert h records st) ns = partition st ns).
Proof.
  split; [|split].
  - intros l1 i r l2 -> Hnot. rewrite partition_upsert_eq.
    by apply lookup_fold_insert_last.
  - intros i Hnot. rewrite partition_upsert_eq.
    by apply lookup_fold_insert_notin.
  - intros ns Hne. by apply partition_upsert_ne.
Qed.

Lemma filter_fst_sublist {A B} (f : A * B → bool) (l : list (A * B)) :
  (List.filter f l).*1 `sublist_of` l.*1.
Proof.
  induction l as [|x l IH]; simpl; [done |].
  destruct (f x); simpl; [by apply sublist_skip | by apply sublist_cons].
Qed.

Lemma NoDup_sublist_of {A} (l1 l2 : list A) :
  l1 `sublist_of` l2 → NoDup l2 → NoDup l1.
Proof. intros Hsub Hnd. by eapply sublist_NoDup. Qed.

Lemma query_matches_inv h vector topK (flt : option JSString) st m :
  m ∈ query h vector topK flt st →
  ∃ r, partition st (target h) !! m_id m = Some r
       ∧ passes flt (m_id m, r) = true
       ∧ m_metadata m = metadata r
       ∧ m_score m = score vector (values r).
Proof.
  unfold query. intros ([i r] & -> & Hin)%list_elem_of_fmap.
  apply (subseteq_take _ _) in Hin. rewrite (rank_perm _ _) in Hin.
  apply list_elem_of_In, filter_In in Hin as [Hin%list_elem_of_In Hpass].
  apply elem_of_map_to_list in Hin. exists r. done.
Qed.

Lemma query_ids_NoDup h vector topK (flt : option JSString) st :
  NoDup (m_id <$> query h vector topK flt st).
Proof.
  unfold query. rewrite <- list_fmap_compose.
  change (NoDup ((take topK (rank vector
            (List.filter (passes flt) (map_to_list (partition st (target h)))))).*1)).
  rewrite fmap_take. eapply NoDup_sublist_of; [apply sublist_take |].
  rewrite (rank_perm _ _).
  eapply NoDup_sublist_of; [apply filter_fst_sublist |].
  apply NoDup_fst_map_to_list.
Qed.

(** What a query returns: at most [topK] matches, no id twice, each match
    the id, metadata and score of a record of the handle's partition that
    passes the filter; and when no more than [topK] records pass, every
    one of them is returned. *)
Theorem query_returns_records_of_the_partition h vector topK
    (flt : option JSString) st :
  length (query h vector topK flt st) ≤ topK
  ∧ NoDup (m_id <$> query h vector topK flt st)
  ∧ (∀ m, m ∈ query h vector topK flt st →
       ∃ r, partition st (target h) !! m_id m = Some r
            ∧ passes flt (m_id m, r) = true
            ∧ m_metadata m = metadata r
            ∧ m_score m = score vector (values r))
  ∧ (length (List.filter (passes flt) (map_to_list (partition st (target h)))) ≤ topK →
     ∀ i r, partition st (target h) !! i = Some r → passes flt (i, r) = true →
       i ∈ m_id <$> query h vector topK flt st).
Proof.
  split; [rewrite query_length; lia |]. split; [apply query_ids_NoDup |].
  split; [apply query_matches_inv |].
  intros Hle i r Hi Hpass. rewrite (query_ids _ _ _ _ _ Hle).
  apply list_elem_of_fmap. exists (i, r). split; [done |].
  apply list_elem_of_In, filter_In. split; [|done].
  by apply list_elem_of_In, elem_of_map_to_list.
Qed.

End IndexProperties.

(** ** Record ids *)

Section RecordIds.
Import Documents.

Lemma js_String a (s : string) : js (String a s) = N_of_ascii a :: js s.
Proof. reflexivity. Qed.

Lemma js_inj (s1 s2 : string) : js s1 = js s2 → s1 = s2.
Proof.
  revert s2. induction s1 as [|a s1 IH]; intros [|b s2]; try done.
  rewrite !js_String. intros [= Hab Hs]. f_equal; [|by apply IH].
  by rewrite <- (ascii_N_embedding a), <- (ascii_N_embedding b), Hab.
Qed.

Lemma digits_NilEmpty d : Forall digit (js (NilEmpty.string_of_uint d)).
Proof.
  induction d; simpl NilEmpty.string_of_uint; [constructor | ..];
    rewrite js_String; (constructor; [unfold digit; simpl; lia | done]).
Qed.

Lemma digits_NilZero d : Forall digit (js (NilZero.string_of_uint d)).
Proof.
  destruct d; try apply digits_NilEmpty.
  repeat constructor; unfold digit; simpl; lia.
Qed.

Lemma string_of_uint_inj d1 d2 :
  d1 ≠ Decimal.Nil → d2 ≠ Decimal.Nil →
  NilZero.string_of_uint d1 = NilZero.string_of_uint d2 → d1 = d2.
Proof.
  intros H1 H2 Heq. apply (f_equal NilZero.uint_of_string) in Heq.
  rewrite !NilZero.usu in Heq by done. congruence.
Qed.

Lemma Nat_to_uint_nonnil n : Nat.to_uint n ≠ Decimal.Nil.
Proof.
  rewrite <- (DecimalNat.Unsigned.of_to n) at 1.
  rewrite DecimalNat.Unsigned.to_of. unfold Decimal.unorm.
  by destruct (Decimal.nzhead (Nat.to_uint n)).
Qed.

Lemma decimal_digits n : Forall digit (decimal n).
Proof. apply digits_NilZero. Qed.

Lemma decimal_inj n1 n2 : decimal n1 = decimal n2 → n1 = n2.
Proof.
  intros Heq%js_inj. apply DecimalNat.Unsigned.to_uint_inj.
  apply string_of_uint_inj; [apply Nat_to_uint_nonnil.. | done].
Qed.

Lemma decimalZ_digits z : (0 ≤ z)%Z → Forall digit (decimalZ z).
Proof.
  intros Hz. unfold decimalZ. destruct z as [|p|p]; [| |lia]; apply digits_NilZero.
Qed.

Lemma decimalZ_inj z1 z2 :
  (0 ≤ z1)%Z → (0 ≤ z2)%Z → decimalZ z1 = decimalZ z2 → z1 = z2.
Proof.
  intros H1 H2 Heq%js_inj. apply DecimalZ.to_int_inj.
  assert (∀ z, (0 ≤ z)%Z → ∃ d, Z.to_int z = Decimal.Pos d ∧ d ≠ Decimal.Nil) as Hpos.
  { intros [|p|p] Hz; [| |lia].
    - by exists Decimal.zero.
    - exists (Pos.to_uint p). split; [done |].
      apply DecimalPos.Unsigned.to_uint_nonnil. }
  destruct (Hpos z1 H1) as (d1 & Hd1 & Hn1), (Hpos z2 H2) as (d2 & Hd2 & Hn2).
  rewrite Hd1, Hd2 in *. simpl in Heq. f_equal. by apply string_of_uint_inj.
Qed.

Lemma first_separator {A} (c : A) (x y a b : list A) :
  c ∉ x → c ∉ y → x ++ c :: a = y ++ c :: b → x = y ∧ a = b.
Proof.
  revert y. induction x as [|d x IH]; intros [|d' y] Hx Hy Heq; simpl in *.
  - by injection Heq as ->.
  - injection Heq as -> _. exfalso. apply Hy. by left.
  - injection Heq as -> _. exfalso. apply Hx. by left.
  - injection Heq as -> Heq. apply not_elem_of_cons in Hx as [_ Hx].
    apply not_elem_of_cons in Hy as [_ Hy].
    destruct (IH y Hx Hy Heq) as [-> ->]. done.
Qed.

Lemma last_separator {A} (c : A) (a b x y : list A) :
  c ∉ x → c ∉ y → a ++ c :: x = b ++ c :: y → a = b ∧ x = y.
Proof.
  intros Hx Hy Heq. apply (f_equal reverse) in Heq.
  rewrite !reverse_app, !reverse_cons, <- !app_assoc in Heq. simpl in Heq.
  apply first_separator in Heq as [Hxy Hab].
  - split; [by apply (inj reverse) | by apply (inj reverse)].
  - by rewrite elem_of_reverse.
  - by rewrite elem_of_reverse.
Qed.

Lemma digits_no_dash (s : JSString) : Forall digit s → 45%N ∉ s.
Proof.
  intros Hd Hin. apply (proj1 (Forall_forall _ _) Hd) in Hin.
  unfold digit in Hin. lia.
Qed.

Section Ids.
Context {Embedding : Type}.

(** The id of a record determines the document name, the upload time and
    the ordinal it was built from: two uploads of one name at different
    times, or two chunks of one upload, never share an id. *)
Theorem record_id_injective (w1 w2 : UploadWorld Embedding)
    name1 name2 ordinal1 ordinal2 text1 text2 v1 v2 :
  (0 ≤ uploadTimestamp w1)%Z → (0 ≤ uploadTimestamp w2)%Z →
  (record w1 name1 ordinal1 text1 v1).1 = (record w2 name2 ordinal2 text2 v2).1 →
  name1 = name2 ∧ uploadTimestamp w1 = uploadTimestamp w2 ∧ ordinal1 = ordinal2.
Proof.
  intros H1 H2. unfold record. cbn [fst].
  change (js "-") with [45%N]. rewrite !(app_assoc name1), !(app_assoc name2).
  rewrite !(app_assoc (_ ++ _) (decimalZ _)). simpl.
  intros [Hprefix Hord]%last_separator;
    [|apply digits_no_dash, decimal_digits..].
  rewrite <- !app_assoc in Hprefix. simpl in Hprefix.
  apply last_separator in Hprefix as [-> Hts];
    [|by apply digits_no_dash, decimalZ_digits..].
  split; [done |]. split; [by apply decimalZ_inj | by apply decimal_inj].
Qed.

Lemma record_id_ordinal (w : UploadWorld Embedding) name ordinal1 ordinal2
    text1 text2 v1 v2 :
  (record w name ordinal1 text1 v1).1 = (record w name ordinal2 text2 v2).1 →
  ordinal1 = ordinal2.
Proof.
  unfold record. cbn [fst]. rewrite !(app_assoc name), !(app_assoc _ (decimalZ _)).
  rewrite !(app_assoc _ (js "-") (decimal _)).
  intros Heq%app_inv_head. by apply decimal_inj.
Qed.

End Ids.

End RecordIds.

Lemma record_id_injective_witness :
  (0 ≤ Documents.uploadTimestamp Sample.answering)%Z
  ∧ (0 ≤ Documents.uploadTimestamp Sample.refusing)%Z
  ∧ (Documents.record Sample.answering (js "a-1") 20 (js "x") [1%Z]).1
    = (Documents.record Sample.refusing (js "a-1") 20 (js "y") [2%Z]).1
  ∧ 20 = 20.
Proof.
  assert (0 ≤ Documents.uploadTimestamp Sample.answering)%Z as H1 by (simpl; lia).
  assert (0 ≤ Documents.uploadTimestamp Sample.refusing)%Z as H2 by (simpl; lia).
  assert ((Documents.record Sample.answering (js "a-1") 20 (js "x") [1%Z]).1
          = (Documents.record Sample.refusing (js "a-1") 20 (js "y") [2%Z]).1) as Hid
    by reflexivity.
  split; [exact H1 |]. split; [exact H2 |]. split; [exact Hid |].
  exact (proj2 (proj2 (record_id_injective Sample.answering Sample.refusing
                         _ _ _ _ _ _ _ _ H1 H2 Hid))).
Defined.

(** ** Upload *)

Section UploadProperties.
Import Documents.
Context {Embedding : Type} `{!VectorIndex Embedding}.
Implicit Types (w : UploadWorld Embedding) (s : Server Embedding) (h : Headers)
  (env : Env) (chunks : list JSString).

Lemma chunkText_not_nil text maxLength : Chunker.chunkText text maxLength ≠ [].
Proof.
  unfold Chunker.chunkText. destruct (Chunker.chunkText_loop _ _) as [chunks cc].
  by destruct (if truthy (trim cc) then chunks ++ [trim cc] else chunks).
Qed.

Lemma getEmbeddingsBatch_Ok (apiKey : option JSString)
    (provider : nat → nat → FetchResult Embedding) (texts : list JSString) vs :
  getEmbeddingsBatch apiKey provider texts = Ok vs →
  length vs = length texts
  ∧ ∀ j v, vs !! j = Some v → (getEmbedding apiKey (provider j)).1 = Ok v.
Proof.
  unfold getEmbeddingsBatch. intros Hall%all_Ok_iff.
  assert (length vs = length texts) as Hlen.
  { apply (f_equal length) in Hall. by rewrite length_imap, length_fmap in Hall. }
  split; [done |]. intros j v Hv.
  apply (f_equal (λ l, l !! j)) in Hall.
  rewrite list_lookup_imap, list_lookup_fmap, Hv in Hall.
  destruct (texts !! j); simpl in Hall; congruence.
Qed.

(** What the embedding loop has collected when it ends well: after the
    records it started with, one record per remaining chunk, in order,
    each carrying the vector obtained for its chunk. *)
Lemma embedLoop_Ok env w fileName chunks fuel :
  ∀ i vectors out,
    length chunks - i ≤ fuel →
    embedLoop env w fileName chunks fuel i vectors = Ok out →
    ∃ vs, length vs = length chunks - i
          ∧ (∀ j v, vs !! j = Some v →
               (getEmbedding (NVIDIA_API_KEY env) (provider w (i + j))).1 = Ok v)
          ∧ out = vectors ++ imap (λ j cv, record w fileName (i + j) cv.1 cv.2)
                                  (zip (drop i chunks) vs).
Proof.
  induction fuel as [|fuel IH]; intros i vectors out Hfuel Hrun; simpl in Hrun.
  - injection Hrun as <-. exists []. split; [simpl; lia |]. split; [done |].
    rewrite drop_ge by lia. simpl. by rewrite app_nil_r.
  - destruct (Nat.ltb_spec i (length chunks)) as [Hi|Hi].
    2: { injection Hrun as <-. exists []. split; [simpl; lia |]. split; [done |].
         rewrite drop_ge by lia. simpl. by rewrite app_nil_r. }
    destruct (getEmbeddingsBatch _ _ _) as [embeddings|e] eqn:Hbatch; [|done].
    apply getEmbeddingsBatch_Ok in Hbatch as [Hlen Hemb].
    rewrite length_take, length_drop in Hlen.
    apply IH in Hrun as (vs' & Hlen' & Hvs' & ->); [|unfold BATCH_SIZE; lia].
    unfold BATCH_SIZE in *.
    exists (embeddings ++ vs'). split; [rewrite length_app; lia |]. split.
    + intros j v Hj. destruct (decide (j < length embeddings)) as [Hlt|Hge].
      * rewrite lookup_app_l in Hj by done. by apply Hemb.
      * rewrite lookup_app_r in Hj by lia.
        assert (length embeddings = 5) as Hfive.
        { apply lookup_lt_Some in Hj. lia. }
        rewrite <- (Hvs' _ _ Hj). do 3 f_equal. lia.
    + rewrite <- app_assoc. f_equal.
      rewrite <- (take_drop 5 (drop i chunks)) at 2.
      rewrite drop_drop.
      rewrite zip_with_app by (rewrite length_take, length_drop; lia).
      rewrite imap_app. f_equal.
      destruct (decide (length chunks - i ≤ 5)) as [Hshort|Hlong].
      * rewrite (drop_ge chunks (i + 5)) by lia. done.
      * apply imap_ext. intros j cv _. simpl.
        rewrite length_zip_with, length_take, length_drop.
        f_equal. lia.
Qed.

Lemma record_ids_later w fileName j c v
    (vectors : list (JSString * StoredRecord Embedding)) zs :
  vectors = imap (λ j cv, record w fileName j cv.1 cv.2) zs →
  (record w fileName j c v).1 ∉ (drop (S j) vectors).*1.
Proof.
  intros -> ([i r] & Hid & Hin)%list_elem_of_fmap.
  apply list_elem_of_lookup in Hin as [k Hk].
  rewrite lookup_drop, list_lookup_imap in Hk.
  destruct (zs !! (S j + k)) as [[c' v']|]; [|done].
  assert ((i, r) = record w fileName (S j + k) c' v') as Hrec.
  { change (Some (record w fileName (S j + k) c' v') = Some (i, r)) in Hk.
    symmetry. by apply (inj Some). }
  assert (j = S j + k) as Hsame; [|lia].
  apply (record_id_ordinal w fileName j (S j + k) c c' v v').
  by rewrite <- Hrec.
Qed.

(** A successful upload: the response counts the chunks of the text, at
    least one; every chunk is then found in the caller's partition under
    the id built from the file name, the upload time and the chunk's
    ordinal, with that chunk's text, its ordinal and the vector the
    provider returned for it; and every id that is not one of these keeps
    what it had. *)
Theorem POST_success_stores_every_chunk env w h file s body :
  (Documents.POST env w h (Some file) s).1 = Success body →
  ∃ text,
    extractTextFromFile file = Ok text
    ∧ body = {| u_documentName := name file;
                chunksCount := length (Chunker.chunkText text 2000) |}
    ∧ 1 ≤ length (Chunker.chunkText text 2000)
    ∧ (∀ j c, Chunker.chunkText text 2000 !! j = Some c →
         ∃ v, (getEmbedding (NVIDIA_API_KEY env) (provider w j)).1 = Ok v
              ∧ partition (index (Documents.POST env w h (Some file) s).2)
                          (getClientIP h) !! (record w (name file) j c v).1
                = Some (record w (name file) j c v).2)
    ∧ (∀ i, (∀ j c v, j < length (Chunker.chunkText text 2000) →
                      i ≠ (record w (name file) j c v).1) →
         partition (index (Documents.POST env w h (Some file) s).2)
                   (getClientIP h) !! i
         = partition (index s) (getClientIP h) !! i).
Proof.
  unfold Documents.POST.
  destruct (checkRateLimit _ _ _ _) as [rl store].
  destruct (negb (allowed rl)); [done |].
  destruct (extractTextFromFile file) as [text|e]; [|done].
  destruct (negb (truthy (trim text))); [done |].
  destruct (getIndex _ _) as [ix|e] eqn:Hix; [|done].
  destruct (embedLoop _ _ _ _ _ _ _) as [vectors|e] eqn:Hloop; [|done].
  cbn [fst snd index withIndex withStore]. intros [= <-].
  apply embedLoop_Ok in Hloop as (vs & Hlen & Hvs & Hvectors); [|lia].
  rewrite Nat.sub_0_r in Hlen. simpl in Hvectors. rewrite drop_0 in Hvectors.
  exists text. split; [done |]. split; [done |]. split.
  { pose proof (chunkText_not_nil text 2000).
    destruct (Chunker.chunkText text 2000); [done | simpl; lia]. }
  rewrite (partition_upsert_own _ _ _ _ _ Hix). split.
  - intros j c Hc.
    destruct (lookup_lt_is_Some_2 vs j) as [v Hv];
      [apply lookup_lt_Some in Hc; lia |].
    exists v. split; [by apply (Hvs j) |].
    assert (vectors !! j = Some (record w (name file) j c v)) as Hj.
    { rewrite Hvectors, list_lookup_imap.
      rewrite lookup_zip_with, Hc. simpl. by rewrite Hv. }
    rewrite <- (take_drop_middle _ _ _ Hj).
    destruct (record w (name file) j c v) as [i r] eqn:Hrec.
    apply lookup_fold_insert_last.
    replace i with (record w (name file) j c v).1 by by rewrite Hrec.
    by eapply record_ids_later.
  - intros i Hother. apply lookup_fold_insert_notin.
    intros ([i' r] & -> & Hin)%list_elem_of_fmap.
    apply list_elem_of_lookup in Hin as [j Hj].
    rewrite Hvectors, list_lookup_imap in Hj.
    destruct (zip _ vs !! j) as [[c v]|] eqn:Hz; [|done].
    change (Some (record w (name file) (0 + j) c v) = Some (i', r)) in Hj.
    apply (inj Some) in Hj. apply (Hother j c v).
    + apply lookup_lt_Some in Hz.
      rewrite length_zip_with in Hz. lia.
    + by rewrite <- Hj.
Qed.

(** An upload that does not answer with success leaves the index exactly
    as it was, whatever made it fail. *)
Theorem POST_failure_leaves_index env w h file s :
  (∀ body, (Documents.POST env w h file s).1 ≠ Success body) →
  index (Documents.POST env w h file s).2 = index s.
Proof.
  unfold Documents.POST.
  destruct (checkRateLimit _ _ _ _) as [rl store].
  destruct (negb (allowed rl)); [done |].
  destruct file as [file|]; [|done].
  destruct (extractTextFromFile file) as [text|e]; [|done].
  destruct (negb (truthy (trim text))); [done |].
  destruct (getIndex _ _) as [ix|e]; [|done].
  destruct (embedLoop _ _ _ _ _ _ _) as [vectors|e]; [|done].
  intros Hfail. by destruct (Hfail _ eq_refl).
Qed.

End UploadProperties.

Lemma POST_success_stores_every_chunk_witness :
  let out := Documents.POST Sample.env Sample.answering Sample.alice
               (Some Sample.notes) Sample.emptyServer in
  out.1 = Success {| Documents.u_documentName := js "notes.txt";
                     Documents.chunksCount := 1 |}
  ∧ ∃ text, Documents.extractTextFromFile Sample.notes = Ok text
            ∧ 1 ≤ length (Chunker.chunkText text 2000).
Proof.
  intros out.
  assert (out.1 = Success {| Documents.u_documentName := js "notes.txt";
                             Documents.chunksCount := 1 |}) as Hok
    by (vm_compute; reflexivity).
  split; [exact Hok |].
  destruct (POST_success_stores_every_chunk Sample.env Sample.answering Sample.alice
              Sample.notes Sample.emptyServer _ Hok)
    as (text & Htext & _ & Hlen & _).
  exists text. split; [exact Htext | exact Hlen].
Defined.

Lemma POST_failure_leaves_index_witness :
  (∀ body, (Documents.POST Sample.env Sample.refusing Sample.alice
              (Some Sample.notes) Sample.emptyServer).1 ≠ Success body)
  ∧ index (Documents.POST Sample.env Sample.refusing Sample.alice
             (Some Sample.notes) Sample.emptyServer).2
    = index Sample.emptyServer.
Proof.
  assert (∀ body, (Documents.POST Sample.env Sample.refusing Sample.alice
                     (Some Sample.notes) Sample.emptyServer).1 ≠ Success body) as Hfail.
  { intros body. vm_compute. discriminate. }
  split; [exact Hfail |].
  exact (POST_failure_leaves_index Sample.env Sample.refusing Sample.alice
           (Some Sample.notes) Sample.emptyServer Hfail).
Defined.

(** ** Deleting a document *)

Section DeleteProperties.
Import Documents.
Context {Embedding : Type} `{!VectorIndex Embedding}.
Implicit Types (s : Server Embedding) (h : Headers) (env : Env)
  (P : gmap JSString (StoredRecord Embedding)).

(** What a successful delete went through. *)
Lemma DELETE_success_inv env now h name s body :
  (Documents.DELETE env now h (Some name) s).1 = Success body →
  ∃ ix, truthy name = true
        ∧ getIndex (PINECONE_API_KEY env) (getClientIP h) = Ok ix
        ∧ query ix zeroVector 1000 (Some name) (index s) ≠ []
        ∧ body = {| deletedChunks :=
                      length (query ix zeroVector 1000 (Some name) (index s)) |}.
Proof.
  unfold Documents.DELETE.
  destruct (checkRateLimit _ _ _ _) as [rl store].
  destruct (negb (allowed rl)); [done |].
  destruct (truthy name); [|done]. cbn [negb].
  destruct (getIndex _ _) as [ix|e] eqn:Hix; [|done].
  change (index (withStore s store)) with (index s).
  destruct (query ix zeroVector 1000 (Some name) (index s)) as [|m matches] eqn:Hq;
    [done |].
  cbn [fst]. intros [= <-]. exists ix.
  split; [done |]. split; [done |]. rewrite Hq. split; [done |].
  by rewrite length_fmap.
Qed.

(** A successful delete reports the records of the caller's partition
    that carry the document name, at least one and at most 1000, and
    removes none of them: the index is exactly what it was, because the
    bulk delete is handed the array of ids where the client reads the
    field [ids] of an options object. *)
Theorem DELETE_reports_without_removing env now h name s body :
  (Documents.DELETE env now h (Some name) s).1 = Success body →
  let P := partition (index s) (getClientIP h) in
  let N := length (List.filter (passes (Some name)) (map_to_list P)) in
  deletedChunks body = 1000 `min` N
  ∧ 1 ≤ deletedChunks body
  ∧ index (Documents.DELETE env now h (Some name) s).2 = index s.
Proof.
  intros Hok P N.
  destruct (DELETE_success_inv _ _ _ _ _ _ Hok)
    as (ix & Hname & Hix & Hsome & ->).
  cbn [deletedChunks]. split; [|split].
  - rewrite query_length, (getIndex_partition _ _ _ _ Hix). done.
  - destruct (query ix zeroVector 1000 (Some name) (index s)); [done | simpl; lia].
  - unfold Documents.DELETE.
    destruct (checkRateLimit _ _ _ _) as [rl store].
    by repeat case_match.
Qed.

(** A successful delete asked for again: the second request, when the
    rate limiter lets it through, finds the same records, gives the same
    answer as the first and again leaves the index as it was. *)
Theorem DELETE_again_same_answer env now now' h name s body :
  (Documents.DELETE env now h (Some name) s).1 = Success body →
  allowed (checkRateLimit now' (getClientIP h) defaultConfig
             (rateLimitStore (Documents.DELETE env now h (Some name) s).2)).1 = true →
  (Documents.DELETE env now' h (Some name)
     (Documents.DELETE env now h (Some name) s).2).1
  = Success body
  ∧ index (Documents.DELETE env now' h (Some name)
             (Documents.DELETE env now h (Some name) s).2).2
    = index s.
Proof.
  intros Hok Hallowed.
  destruct (DELETE_success_inv _ _ _ _ _ _ Hok)
    as (ix & Hname & Hix & Hsome & ->).
  pose proof (DELETE_index env now h (Some name) s) as Hsame.
  set (s' := (Documents.DELETE env now h (Some name) s).2) in *. clearbody s'.
  unfold Documents.DELETE.
  destruct (checkRateLimit now' _ _ _) as [rl store]. simpl in Hallowed.
  rewrite Hallowed, Hname, Hix. cbn [negb].
  change (index (withStore s' store)) with (index s'). rewrite Hsame.
  destruct (query ix zeroVector 1000 (Some name) (index s)) as [|m matches];
    [done |].
  cbn [fst snd index withIndex deleteMany]. split; [|done].
  by rewrite length_fmap.
Qed.

End DeleteProperties.

Lemma DELETE_reports_without_removing_witness :
  let out := Documents.DELETE Sample.env 0 Sample.alice (Some (js "big.txt"))
               Sample.bigServer in
  out.1 = Success {| Documents.deletedChunks := 1000 |}
  ∧ index out.2 = index Sample.bigServer.
Proof.
  intros out.
  assert (out.1 = Success {| Documents.deletedChunks := 1000 |}) as Hok
    by (vm_compute; reflexivity).
  split; [exact Hok |].
  exact (proj2 (proj2
    (DELETE_reports_without_removing Sample.env 0 Sample.alice (js "big.txt")
       Sample.bigServer _ Hok))).
Defined.

Lemma DELETE_again_same_answer_witness :
  let uploaded := (Documents.POST Sample.env Sample.answering Sample.alice
                     (Some Sample.notes) Sample.emptyServer).2 in
  let deleted := Documents.DELETE Sample.env 0 Sample.alice (Some (js "notes.txt"))
                   uploaded in
  deleted.1 = Success {| Documents.deletedChunks := 1 |}
  ∧ (Documents.DELETE Sample.env 5 Sample.alice (Some (js "notes.txt")) deleted.2).1
    = Success {| Documents.deletedChunks := 1 |}.
Proof.
  intros uploaded deleted.
  assert (deleted.1 = Success {| Documents.deletedChunks := 1 |}) as Hok
    by (vm_compute; reflexivity).
  split; [exact Hok |].
  refine (proj1 (DELETE_again_same_answer Sample.env 0 5 Sample.alice
                   (js "notes.txt") uploaded _ Hok _)).
  vm_compute. reflexivity.
Defined.

(** ** Listing the documents *)

Section ListingProperties.
Import Documents.
Context {Embedding : Type} `{!VectorIndex Embedding}.
Implicit Types (s : Server Embedding) (h : Headers) (env : Env)
  (P : gmap JSString (StoredRecord Embedding)) (n : JSString)
  (ms : list (Match Embedding)) (acc : list DocumentSummary).

Lemma countNamed_snoc n ms m :
  countNamed n (ms ++ [m]) = countNamed n ms + (if mentions n m then 1 else 0).
Proof.
  unfold countNamed. rewrite List.filter_app, length_app. simpl.
  by destruct (mentions n m).
Qed.

Lemma List_filter_Permutation {A} (f : A → bool) (l l' : list A) :
  l ≡ₚ l' → List.filter f l ≡ₚ List.filter f l'.
Proof.
  induction 1 as [|x l l' _ IH|x y l|l l' l'' _ IH1 _ IH2]; simpl.
  - done.
  - destruct (f x); [by constructor | done].
  - destruct (f x), (f y); try done. apply perm_swap.
  - by etrans.
Qed.

Lemma List_filter_take_length {A} (f : A → bool) (l : list A) k :
  length (List.filter f (take k l)) ≤ length (List.filter f l).
Proof.
  revert k. induction l as [|x l IH]; intros [|k]; simpl; try lia.
  specialize (IH k). destruct (f x); simpl; lia.
Qed.

Lemma List_filter_all {A} (l : list A) : List.filter (λ _, true) l = l.
Proof. induction l as [|x l IH]; simpl; congruence. Qed.

Lemma countNamed_matches n (vector : Embedding)
    (l : list (JSString * StoredRecord Embedding)) :
  countNamed n ((λ r, {| m_id := r.1; m_score := score vector (values r.2);
                         m_metadata := metadata r.2 |}) <$> l)
  = length (List.filter (passes (Some n)) l).
Proof.
  unfold countNamed. induction l as [|[i r] l IH]; [done |].
  cbn [fmap list_fmap List.filter].
  change (mentions n _) with (passes (Some n) (i, r)).
  destruct (passes (Some n) (i, r)); simpl; by rewrite <- IH.
Qed.

(** The number of matches of an unfiltered query that carry a name never
    exceeds the number of records of that name in the partition, and is
    that number when the query can return the whole partition. *)
Lemma countNamed_query ix vector topK st n :
  countNamed n (query ix vector topK None st)
  ≤ length (List.filter (passes (Some n)) (map_to_list (partition st (target ix))))
  ∧ (size (partition st (target ix)) ≤ topK →
     countNamed n (query ix vector topK None st)
     = length (List.filter (passes (Some n))
                 (map_to_list (partition st (target ix))))).
Proof.
  unfold query. rewrite countNamed_matches.
  change (passes None) with (λ _ : JSString * StoredRecord Embedding, true).
  rewrite List_filter_all.
  assert (length (List.filter (passes (Some n))
                    (rank vector (map_to_list (partition st (target ix)))))
          = length (List.filter (passes (Some n))
                      (map_to_list (partition st (target ix))))) as Hrank
    by (apply Permutation_length, List_filter_Permutation, rank_perm).
  split.
  - rewrite <- Hrank. apply List_filter_take_length.
  - intros Hsize. rewrite take_ge; [done |].
    by rewrite (Permutation_length (rank_perm _ _)), length_map_to_list.
Qed.

(** The aggregation loop of [GET]: after any number of matches, the
    entries have distinct, non-empty names, each entry counts the matches
    seen so far that carry its name, and every non-empty name seen has an
    entry. *)
Lemma aggregate_counts ms :
  NoDup (d_name <$> fold_left aggregate_step ms [])
  ∧ (∀ d, d ∈ fold_left aggregate_step ms [] →
       truthy (d_name d) = true ∧ 1 ≤ chunks d
       ∧ chunks d = countNamed (d_name d) ms)
  ∧ (∀ n, truthy n = true → 0 < countNamed n ms →
       n ∈ d_name <$> fold_left aggregate_step ms []).
Proof.
  apply (fold_left_inv aggregate_step (λ pre acc,
    NoDup (d_name <$> acc)
    ∧ (∀ d, d ∈ acc → truthy (d_name d) = true ∧ 1 ≤ chunks d
                      ∧ chunks d = countNamed (d_name d) pre)
    ∧ (∀ n, truthy n = true → 0 < countNamed n pre → n ∈ d_name <$> acc))).
  { split; [constructor |]. split; [by intros d ?%elem_of_nil |].
    intros n _. unfold countNamed. simpl. lia. }
  intros pre m acc (Hnd & Hacc & Hseen) _.
  unfold aggregate_step.
  destruct (m_metadata m) as [md|] eqn:Hmd.
  2: { assert (∀ n, countNamed n (pre ++ [m]) = countNamed n pre) as Hsame.
       { intros n. rewrite countNamed_snoc. unfold mentions. rewrite Hmd. lia. }
       split; [done |]. split.
       - intros d Hd. rewrite Hsame. by apply Hacc.
       - intros n Hn. rewrite Hsame. by apply Hseen. }
  assert (∀ n, countNamed n (pre ++ [m])
               = countNamed n pre
                 + (if bool_decide (documentName md = n) then 1 else 0)) as Hsnoc.
  { intros n. rewrite countNamed_snoc. unfold mentions. by rewrite Hmd. }
  destruct (truthy (documentName md)) eqn:Hname.
  2: { assert (∀ n, truthy n = true → countNamed n (pre ++ [m]) = countNamed n pre)
         as Hsame.
       { intros n Hn. rewrite Hsnoc. rewrite bool_decide_eq_false_2; [lia |].
         intros <-. congruence. }
       split; [done |]. split.
       - intros d Hd. destruct (Hacc d Hd) as (Ht & H1 & Hc).
         by rewrite Hsame.
       - intros n Hn. rewrite Hsame by done. by apply Hseen. }
  destruct (bool_decide (documentName md ∈ d_name <$> acc)) eqn:Hin.
  - apply bool_decide_eq_true in Hin.
    set (bump := λ d : DocumentSummary,
           if bool_decide (d_name d = documentName md)
           then {| d_name := d_name d; d_uploadedAt := d_uploadedAt d;
                   chunks := S (chunks d) |}
           else d).
    assert (∀ d, d_name (bump d) = d_name d) as Hbump.
    { intros d. unfold bump. by destruct (bool_decide _). }
    assert (d_name <$> (bump <$> acc) = d_name <$> acc) as Hnames.
    { rewrite <- list_fmap_compose. apply list_fmap_ext. intros _ d _. apply Hbump. }
    rewrite Hnames. split; [done |]. split.
    + intros d' (d & -> & Hd)%list_elem_of_fmap.
      destruct (Hacc d Hd) as (Ht & H1 & Hc).
      rewrite Hbump, Hsnoc. split; [done |]. unfold bump.
      destruct (bool_decide_reflect (d_name d = documentName md)) as [Heq|Hne].
      * cbn [chunks]. rewrite bool_decide_eq_true_2 by done. lia.
      * rewrite bool_decide_eq_false_2 by congruence. lia.
    + intros n Hn. rewrite Hsnoc.
      destruct (bool_decide_reflect (documentName md = n)) as [<-|Hne]; [done |].
      intros Hpos. apply Hseen; [done | lia].
  - apply bool_decide_eq_false in Hin.
    assert (countNamed (documentName md) pre = 0) as Hzero.
    { destruct (countNamed (documentName md) pre) eqn:Hc; [done |].
      destruct Hin. apply Hseen; [done | lia]. }
    rewrite fmap_app. cbn [fmap list_fmap d_name]. split; [|split].
    + apply NoDup_app. split; [done |]. split; [|apply NoDup_singleton].
      intros n Hn ->%list_elem_of_singleton. done.
    + intros d [Hd| ->%list_elem_of_singleton]%elem_of_app.
      * destruct (Hacc d Hd) as (Ht & H1 & Hc).
        rewrite Hsnoc. rewrite bool_decide_eq_false_2; [split; [done | lia] |].
        intros Heq. apply Hin. rewrite Heq.
        apply list_elem_of_fmap. by exists d.
      * cbn [d_name chunks]. rewrite Hsnoc, Hzero.
        rewrite bool_decide_eq_true_2 by done. done.
    + intros n Hn. rewrite Hsnoc, elem_of_app, list_elem_of_singleton.
      destruct (bool_decide_reflect (documentName md = n)) as [<-|Hne]; [by right |].
      intros Hpos. left. apply Hseen; [done | lia].
Qed.

(** The listing: its entries have distinct, non-empty names; an entry
    counts at least one chunk and never more than the caller's partition
    holds for its name; and when the caller's partition holds at most 100
    records, the listing is exact: every document of the partition is
    listed, with the number of its records. *)
Theorem GET_listing env now h s body :
  (Documents.GET env now h s).1 = Success body →
  let P := partition (index s) (getClientIP h) in
  NoDup (d_name <$> documents body)
  ∧ (∀ d, d ∈ documents body →
       truthy (d_name d) = true
       ∧ 1 ≤ chunks d
         ≤ length (List.filter (passes (Some (d_name d))) (map_to_list P)))
  ∧ (size P ≤ 100 →
     (∀ d, d ∈ documents body →
        chunks d = length (List.filter (passes (Some (d_name d))) (map_to_list P)))
     ∧ (∀ n, truthy n = true →
          0 < length (List.filter (passes (Some n)) (map_to_list P)) →
          n ∈ d_name <$> documents body)).
Proof.
  unfold Documents.GET.
  destruct (checkRateLimit _ _ _ _) as [rl store].
  destruct (negb (allowed rl)); [done |].
  destruct (getIndex _ _) as [ix|e] eqn:Hix; [|done].
  change (index (withStore s store)) with (index s).
  cbn [fst]. intros [= <-]. cbn [documents].
  set (P := partition (index s) (getClientIP h)).
  set (ms := query ix zeroVector 100 None (index s)).
  destruct (aggregate_counts ms) as (Hnd & Hentries & Hseen).
  assert (∀ n, countNamed n ms
               ≤ length (List.filter (passes (Some n)) (map_to_list P))
               ∧ (size P ≤ 100 →
                  countNamed n ms
                  = length (List.filter (passes (Some n)) (map_to_list P))))
    as Hcount.
  { intros n. subst P. rewrite <- (getIndex_partition _ _ _ (index s) Hix).
    apply countNamed_query. }
  split; [done |]. split.
  - intros d Hd. destruct (Hentries d Hd) as (Ht & H1 & Hc).
    split; [done |]. destruct (Hcount (d_name d)) as [Hle _]. lia.
  - intros Hsize. split.
    + intros d Hd. destruct (Hentries d Hd) as (_ & _ & ->).
      by apply Hcount.
    + intros n Hn Hpos. apply Hseen; [done |].
      destruct (Hcount n) as [_ ->]; done.
Qed.

End ListingProperties.

Lemma GET_listing_witness :
  let uploaded := (Documents.POST Sample.env Sample.answering Sample.alice
                     (Some Sample.notes) Sample.emptyServer).2 in
  let body := {| Documents.documents :=
                   [{| Documents.d_name := js "notes.txt";
                       Documents.d_uploadedAt := js "2023-11-14T22:13:20.000Z";
                       Documents.chunks := 1 |}];
                 Documents.totalVectors := 1 |} in
  (Documents.GET Sample.env 0 Sample.alice uploaded).1 = Success body
  ∧ NoDup (Documents.d_name <$> Documents.documents body).
Proof.
  intros uploaded body.
  assert ((Documents.GET Sample.env 0 Sample.alice uploaded).1 = Success body) as Hok
    by (vm_compute; reflexivity).
  split; [exact Hok |].
  exact (proj1 (GET_listing Sample.env 0 Sample.alice uploaded body Hok)).
Defined.

(** ** Answering a question *)

Section AskProperties.
Import Ask.
Context {Embedding : Type} `{!VectorIndex Embedding}.
Implicit Types (w : AskWorld Embedding) (s : Server Embedding) (h : Headers)
  (env : Env).

Lemma length_omap_le {A B} (f : A → option B) (l : list A) :
  length (omap f l) ≤ length l.
Proof.
  induction l as [|x l IH]; [done |].
  change (omap f (x :: l))
    with (match f x with Some y => y :: omap f l | None => omap f l end).
  destruct (f x); simpl; lia.
Qed.

Lemma query_empty_partition (ix : IndexHandle) (vector : Embedding) (topK : nat)
    (flt : option JSString)
    (st : gmap JSString (gmap JSString (StoredRecord Embedding))) :
  partition st (target ix) = ∅ → query ix vector topK flt st = [].
Proof.
  intros Hempty. apply length_zero_iff_nil.
  rewrite query_length, Hempty, map_to_list_empty. simpl. lia.
Qed.

(** A question that is answered: its trimmed text is not empty and has
    at most 1000 characters; the provider returned a vector for it; at
    most five sources come back, each one the document name and text of a
    record of the caller's own partition, with the score of that record
    against the question's vector; and a caller whose partition is empty
    gets the fixed reply with no source. *)
Theorem Ask_answer_sources env w h question s body :
  (Ask.POST env w h (Some question) s).1 = Success body →
  truthy (trim question) = true
  ∧ length (trim question) ≤ 1000
  ∧ length (sources body) ≤ 5
  ∧ (∃ v, (getEmbedding (NVIDIA_API_KEY env) (fetch w)).1 = Ok v
          ∧ ∀ t, t ∈ sources body →
              ∃ i r md,
                partition (index s) (getClientIP h) !! i = Some r
                ∧ metadata r = Some md
                ∧ t_documentName t = documentName md
                ∧ t_chunk t = chunk md
                ∧ relevanceScore t = percent (score v (values r)))
  ∧ (partition (index s) (getClientIP h) = ∅ →
     body = {| answer := js "No documents found. Please upload some documents first.";
               sources := [] |}).
Proof.
  unfold Ask.POST.
  destruct (checkRateLimit _ _ _ _) as [rl store].
  destruct (negb (allowed rl)); [done |].
  destruct (truthy question); [|done]. cbn [negb].
  destruct (truthy (trim question)); [|done]. cbn [negb].
  destruct (Nat.ltb_spec 1000 (length (trim question))) as [|Hlen]; [done |].
  destruct (getEmbedding _ _).1 as [v|e]; [|done].
  destruct (getIndex _ _) as [ix|e] eqn:Hix; [|done].
  cbn [index].
  pose proof (query_length ix v 5 None (index s)) as Hfive.
  pose proof (query_matches_inv ix v 5 None (index s)) as Hinv.
  pose proof (query_empty_partition ix v 5 None (index s)) as Hnone.
  rewrite (getIndex_partition _ _ _ _ Hix) in Hinv, Hnone.
  destruct (query ix v 5 None (index s)) as [|m ms].
  { cbn [fst]. intros [= <-]. cbn [sources].
    split; [done |]. split; [done |]. split; [simpl; lia |].
    split; [|done]. exists v. split; [done |]. by intros t ?%elem_of_nil. }
  remember (m :: ms) as matches eqn:Hmatches.
  destruct (generateAnswer w _ _) as [text|e]; [|done].
  cbn [fst]. intros [= <-]. cbn [sources].
  split; [done |]. split; [done |]. split; [|split].
  - rewrite length_fmap. etrans; [apply length_omap_le |]. lia.
  - exists v. split; [done |].
    intros t (src & -> & (m' & Hm' & Hsrc)%list_elem_of_omap)%list_elem_of_fmap.
    destruct (Hinv m' Hm') as (r & Hr & _ & Hmeta & Hscore).
    destruct (m_metadata m') as [md|] eqn:Hmd; [|done].
    injection Hsrc as <-. cbn [t_documentName t_chunk relevanceScore
      s_documentName s_chunk s_score].
    exists (m_id m'), r, md. by rewrite Hscore.
  - intros Hempty. specialize (Hnone Hempty). congruence.
Qed.

End AskProperties.

Lemma Ask_answer_sources_witness :
  let uploaded := (Documents.POST Sample.env Sample.answering Sample.alice
                     (Some Sample.notes) Sample.emptyServer).2 in
  let world := {| Ask.now := 0; Ask.fetch := Sample.twiceBusy;
                  Ask.generateAnswer := λ _ _, Ok (js "hello [1]") |} in
  ∃ body,
    (Ask.POST Sample.env world Sample.alice (Some (js " what is it? ")) uploaded).1
    = Success body
    ∧ length (Ask.sources body) ≤ 5.
Proof.
  intros uploaded world.
  assert (∃ body,
            (Ask.POST Sample.env world Sample.alice (Some (js " what is it? "))
               uploaded).1 = Success body) as [body Hok]
    by (eexists; vm_compute; reflexivity).
  exists body. split; [exact Hok |].
  exact (proj1 (proj2 (proj2
    (Ask_answer_sources Sample.env world Sample.alice (js " what is it? ")
       uploaded body Hok)))).
Defined.

(** ** An upload followed by a delete or a listing *)

Section UploadRoundTrips.
Import Documents.
Context {Embedding : Type} `{!VectorIndex Embedding}.
Implicit Types (w : UploadWorld Embedding) (s : Server Embedding) (h : Headers)
  (env : Env) (P : gmap JSString (StoredRecord Embedding))
  (records : list (JSString * StoredRecord Embedding)).

Lemma getIndex_Ok_key apiKey ip ix :
  getIndex apiKey ip = Ok ix → ∃ key, apiKey = Some key ∧ truthy key = true.
Proof.
  unfold getIndex. destruct apiKey as [key|]; [|done].
  destruct (truthy key) eqn:Hkey; [|done]. intros _. by exists key.
Qed.

Lemma map_to_list_fold_insert records :
  ∀ P, NoDup records.*1 → (∀ i, i ∈ records.*1 → P !! i = None) →
       map_to_list (fold_left (λ p r, <[r.1 := r.2]> p) records P)
       ≡ₚ records ++ map_to_list P.
Proof.
  induction records as [|[k r] records IH]; intros P Hnd Hfresh; [done |].
  cbn [fmap list_fmap fst] in Hnd, Hfresh. apply NoDup_cons in Hnd as [Hk Hnd].
  cbn [fold_left fst snd]. rewrite IH; [| done |].
  - rewrite map_to_list_insert by (apply Hfresh; left).
    by rewrite <- Permutation_middle.
  - intros i Hi. rewrite lookup_insert_ne by (intros ->; done).
    apply Hfresh. by right.
Qed.

Lemma filter_all_passing {A} (f : A → bool) (l : list A) :
  (∀ x, x ∈ l → f x = true) → List.filter f l = l.
Proof.
  induction l as [|x l IH]; intros Hall; [done |]. simpl.
  rewrite (Hall x) by left. f_equal. apply IH. intros y Hy. apply Hall. by right.
Qed.

Lemma filter_nil_none_passing {A} (f : A → bool) (l : list A) x :
  length (List.filter f l) = 0 → x ∈ l → f x = false.
Proof.
  intros Hnil%length_zero_iff_nil Hx. destruct (f x) eqn:Hfx; [|done].
  assert (x ∈ List.filter f l) as Hin
    by (apply list_elem_of_In, filter_In; split; [by apply list_elem_of_In | done]).
  rewrite Hnil in Hin. by apply elem_of_nil in Hin.
Qed.

(** What a successful upload wrote, when its ids were not in use: the
    caller's partition then holds the records it held and one new record
    per chunk, each carrying the file's name. *)
Lemma upload_partition env w h file s body :
  (Documents.POST env w h (Some file) s).1 = Success body →
  (∀ j c v, partition (index s) (getClientIP h) !! (record w (name file) j c v).1
            = None) →
  ∃ records key,
    PINECONE_API_KEY env = Some key ∧ truthy key = true
    ∧ length records = chunksCount body
    ∧ 1 ≤ chunksCount body
    ∧ (∀ x, x ∈ records → passes (Some (name file)) x = true)
    ∧ map_to_list (partition (index (Documents.POST env w h (Some file) s).2)
                     (getClientIP h))
      ≡ₚ records ++ map_to_list (partition (index s) (getClientIP h)).
Proof.
  unfold Documents.POST.
  destruct (checkRateLimit _ _ _ _) as [rl store].
  destruct (negb (allowed rl)); [done |].
  destruct (extractTextFromFile file) as [text|e]; [|done].
  destruct (negb (truthy (trim text))); [done |].
  destruct (getIndex _ _) as [ix|e] eqn:Hix; [|done].
  destruct (getIndex_Ok_key _ _ _ Hix) as (key & Hkey & Hk).
  destruct (embedLoop _ _ _ _ _ _ _) as [vectors|e] eqn:Hloop; [|done].
  cbn [fst snd index withIndex withStore]. intros [= <-] Hfresh.
  apply embedLoop_Ok in Hloop as (vs & Hlen & _ & Hvectors); [|lia].
  rewrite Nat.sub_0_r in Hlen. simpl in Hvectors. rewrite drop_0 in Hvectors.
  assert (∀ j x, vectors !! j = Some x →
                 ∃ c v, x = record w (name file) j c v) as Hshape.
  { intros j x. rewrite Hvectors, list_lookup_imap.
    destruct (zip _ vs !! j) as [[c v]|]; [|done].
    intros Hx. exists c, v. symmetry. by apply (inj Some). }
  exists vectors, key. split; [done |]. split; [done |]. split.
  { rewrite Hvectors, length_imap, length_zip_with. cbn [chunksCount]. lia. }
  split.
  { cbn [chunksCount]. pose proof (chunkText_not_nil text 2000).
    destruct (Chunker.chunkText text 2000); [done | simpl; lia]. }
  split.
  { intros x [j Hj]%list_elem_of_lookup.
    destruct (Hshape j x Hj) as (c & v & ->).
    unfold passes, record. cbn [snd metadata documentName].
    by apply bool_decide_eq_true. }
  rewrite (partition_upsert_own _ _ _ _ _ Hix). apply map_to_list_fold_insert.
  - apply NoDup_alt. intros j k i.
    rewrite !list_lookup_fmap.
    destruct (vectors !! j) as [x|] eqn:Hj; [|done].
    destruct (vectors !! k) as [y|] eqn:Hk'; [|done].
    destruct (Hshape j x Hj) as (c & v & ->).
    destruct (Hshape k y Hk') as (c' & v' & ->).
    cbn [fmap option_fmap option_map]. intros [= <-] [= Hid].
    by apply (record_id_ordinal w (name file) j k c c' v v').
  - intros i ([i' x] & -> & [j Hj]%list_elem_of_lookup)%list_elem_of_fmap.
    destruct (Hshape j _ Hj) as (c & v & Hx). rewrite Hx. apply Hfresh.
Qed.

(** Upload, then delete by the file's name: when the ids of the upload
    were not in use, the delete answers with success and reports the
    chunks of the upload plus the records that already carried the name,
    1000 at most; the index, though, is exactly what the upload left,
    every chunk of the upload is still stored. *)
Theorem upload_then_delete env w now' h file s body :
  (Documents.POST env w h (Some file) s).1 = Success body →
  truthy (name file) = true →
  (∀ j c v, partition (index s) (getClientIP h) !! (record w (name file) j c v).1
            = None) →
  allowed (checkRateLimit now' (getClientIP h) defaultConfig
             (rateLimitStore (Documents.POST env w h (Some file) s).2)).1 = true →
  let P := partition (index s) (getClientIP h) in
  let N := length (List.filter (passes (Some (name file))) (map_to_list P)) in
  let out := Documents.DELETE env now' h (Some (name file))
               (Documents.POST env w h (Some file) s).2 in
  out.1 = Success {| deletedChunks := 1000 `min` (chunksCount body + N) |}
  ∧ index out.2 = index (Documents.POST env w h (Some file) s).2.
Proof.
  intros Hok Hname Hfresh Hallowed P N out.
  destruct (upload_partition _ _ _ _ _ _ Hok Hfresh)
    as (records & key & Hkey & Hk & Hlen & Hone & Hpass & Hperm).
  set (s' := (Documents.POST env w h (Some file) s).2) in *.
  subst N. fold P in Hperm.
  set (N := length (List.filter (passes (Some (name file))) (map_to_list P))) in *.
  assert (length (List.filter (passes (Some (name file)))
                    (map_to_list (partition (index s') (getClientIP h))))
          = chunksCount body + N) as Hcount.
  { rewrite (Permutation_length (List_filter_Permutation _ _ _ Hperm)).
    rewrite List.filter_app, length_app, filter_all_passing by done.
    by rewrite Hlen. }
  destruct (DELETE_outcome env now' h (name file) s' key Hallowed Hkey Hk Hname)
    as [_ Hsome].
  rewrite Hcount in Hsome. split.
  - apply Hsome. lia.
  - apply DELETE_index.
Qed.

(** Upload, then list: when the ids of the upload were not in use and
    the caller's partition holds at most 100 records after it, the listing
    shows the file's name exactly once, with the chunks of the upload plus
    the records that already carried the name. *)
Theorem upload_then_list env w now' h file s body listing :
  (Documents.POST env w h (Some file) s).1 = Success body →
  truthy (name file) = true →
  (∀ j c v, partition (index s) (getClientIP h) !! (record w (name file) j c v).1
            = None) →
  chunksCount body + size (partition (index s) (getClientIP h)) ≤ 100 →
  (Documents.GET env now' h (Documents.POST env w h (Some file) s).2).1
  = Success listing →
  ∃ d, d ∈ documents listing
       ∧ d_name d = name file
       ∧ chunks d
         = chunksCount body
           + length (List.filter (passes (Some (name file)))
                       (map_to_list (partition (index s) (getClientIP h))))
       ∧ ∀ d', d' ∈ documents listing → d_name d' = name file → d' = d.
Proof.
  intros Hok Hname Hfresh Hroom.
  destruct (upload_partition _ _ _ _ _ _ Hok Hfresh)
    as (records & key & Hkey & Hk & Hlen & Hone & Hpass & Hperm).
  set (s' := (Documents.POST env w h (Some file) s).2) in *. clearbody s'.
  unfold Documents.GET.
  destruct (checkRateLimit _ _ _ _) as [rl store].
  destruct (negb (allowed rl)); [done |].
  destruct (getIndex _ _) as [ix|e] eqn:Hix; [|done].
  change (index (withStore s' store)) with (index s').
  cbn [fst]. intros [= <-]. cbn [documents].
  set (ms := query ix zeroVector 100 None (index s')).
  destruct (aggregate_counts ms) as (Hnd & Hentries & Hseen).
  assert (countNamed (name file) ms
          = chunksCount body
            + length (List.filter (passes (Some (name file)))
                        (map_to_list (partition (index s) (getClientIP h)))))
    as Hcount.
  { destruct (countNamed_query ix zeroVector 100 (index s') (name file))
      as [_ Hexact].
    fold ms in Hexact. rewrite (getIndex_partition _ _ _ _ Hix) in Hexact.
    rewrite Hexact.
    - rewrite (Permutation_length (List_filter_Permutation _ _ _ Hperm)).
      rewrite List.filter_app, length_app, filter_all_passing by done.
      by rewrite Hlen.
    - rewrite <- length_map_to_list, (Permutation_length Hperm), length_app,
        length_map_to_list. lia. }
  destruct (proj1 (list_elem_of_fmap _ _ _)
              (Hseen (name file) Hname ltac:(rewrite Hcount; lia)))
    as (d & Hd & Hin).
  exists d. split; [done |]. split; [done |]. split.
  - destruct (Hentries d Hin) as (_ & _ & ->). by rewrite <- Hd.
  - intros d' Hin' Hd'.
    apply list_elem_of_lookup in Hin as [j Hj].
    apply list_elem_of_lookup in Hin' as [k Hk'].
    assert (k = j) as ->; [|congruence].
    apply (proj1 (NoDup_alt _) Hnd k j (name file)).
    + by rewrite list_lookup_fmap, Hk'; simpl; rewrite Hd'.
    + by rewrite list_lookup_fmap, Hj; simpl; rewrite <- Hd.
Qed.

End UploadRoundTrips.

Lemma upload_then_delete_witness :
  let uploaded := Documents.POST Sample.env Sample.answering Sample.alice
                    (Some Sample.notes) Sample.emptyServer in
  let out := Documents.DELETE Sample.env 5 Sample.alice (Some (js "notes.txt"))
               uploaded.2 in
  uploaded.1 = Success {| Documents.u_documentName := js "notes.txt";
                          Documents.chunksCount := 1 |}
  ∧ out.1 = Success {| Documents.deletedChunks := 1 |}
  ∧ index out.2 = index uploaded.2.
Proof.
  intros uploaded out.
  assert (uploaded.1 = Success {| Documents.u_documentName := js "notes.txt";
                                  Documents.chunksCount := 1 |}) as Hok
    by (vm_compute; reflexivity).
  split; [exact Hok |].
  destruct (upload_then_delete Sample.env Sample.answering 5
              Sample.alice Sample.notes Sample.emptyServer _ Hok)
    as [Hanswer Hindex].
  - vm_compute. reflexivity.
  - intros j c v. reflexivity.
  - vm_compute. reflexivity.
  - split; [|exact Hindex]. etrans; [exact Hanswer |]. vm_compute. reflexivity.
Defined.

Lemma upload_then_list_witness :
  let uploaded := Documents.POST Sample.env Sample.answering Sample.alice
                    (Some Sample.notes) Sample.emptyServer in
  let listing := {| Documents.documents :=
                      [{| Documents.d_name := js "notes.txt";
                          Documents.d_uploadedAt := js "2023-11-14T22:13:20.000Z";
                          Documents.chunks := 1 |}];
                    Documents.totalVectors := 1 |} in
  uploaded.1 = Success {| Documents.u_documentName := js "notes.txt";
                          Documents.chunksCount := 1 |}
  ∧ (Documents.GET Sample.env 5 Sample.alice uploaded.2).1 = Success listing
  ∧ ∃ d, d ∈ Documents.documents listing ∧ Documents.d_name d = js "notes.txt".
Proof.
  intros uploaded listing.
  assert (uploaded.1 = Success {| Documents.u_documentName := js "notes.txt";
                                  Documents.chunksCount := 1 |}) as Hok
    by (vm_compute; reflexivity).
  assert ((Documents.GET Sample.env 5 Sample.alice uploaded.2).1 = Success listing)
    as Hlist by (vm_compute; reflexivity).
  assert (size (partition (index Sample.emptyServer) (getClientIP Sample.alice)) = 0)
    as Hsize by (vm_compute; reflexivity).
  split; [exact Hok |]. split; [exact Hlist |].
  destruct (upload_then_list Sample.env Sample.answering 5 Sample.alice
              Sample.notes Sample.emptyServer _ listing Hok)
    as (d & Hd & Hname & _); [| | | exact Hlist |].
  - vm_compute. reflexivity.
  - intros j c v. reflexivity.
  - rewrite Hsize. cbn [Documents.chunksCount]. lia.
  - exists d. split; [exact Hd | exact Hname].
Defined.

(** ** Chunk sizes *)

Section ChunkSizes.
Import Chunker.

(** How long a chunk can be, for a limit of at least one character (with
    a limit of zero the hard split of the source does not terminate): a
    chunk never passes the limit by more than the two line feeds the
    paragraph packer joins with, and the chunks of a text without a blank
    line stay within the limit. *)
Theorem chunkText_chunk_bound text maxLength :
  1 ≤ maxLength →
  Forall (λ c, length c ≤ maxLength + 2) (chunkText text maxLength)
  ∧ (¬ has_blank_line text →
     Forall (λ c, length c ≤ maxLength) (chunkText text maxLength)).
Proof.
  intros Hmax. split; [apply chunkText_length |].
  intros Hno. unfold chunkText, chunkText_loop, split_blank.
  rewrite (split_blank_from_single _ Hno).
  cbn [fold_left chunkText_step].
  pose proof (slice_length (trim text) maxLength 0) as Hslice.
  destruct (Nat.ltb_spec maxLength (length text)) as [Hlong|Hshort].
  - cbn [truthy app trim trimStart trimEnd].
    pose proof (splitByLength_length text maxLength) as Hpieces.
    destruct (splitByLength text maxLength) as [|c pieces];
      [by constructor | done].
  - cbn [length Nat.add truthy app].
    destruct (Nat.ltb_spec maxLength (length text)) as [|_]; [lia |].
    cbn [andb app].
    pose proof (length_trim text) as Htrim.
    destruct (truthy (trim text)); cbn [app]; constructor;
      first [lia | done | constructor].
Qed.

End ChunkSizes.

Lemma chunkText_chunk_bound_witness :
  1 ≤ 6
  ∧ Forall (λ c, length c ≤ 6 + 2)
      (Chunker.chunkText (js "aaa bbb" ++ [LF; LF] ++ js "cc dddddddddd") 6).
Proof.
  split; [lia |].
  apply (chunkText_chunk_bound (js "aaa bbb" ++ [LF; LF] ++ js "cc dddddddddd") 6).
  lia.
Defined.

(** ** Namespaces *)

Section NamespaceProperties.
Context {Embedding : Type} `{!VectorIndex Embedding}.

(** The documents of callers with different namespaces are kept apart.
    The namespace of a caller is the identity itself, or the default
    namespace when the identity is empty.  An upload by one caller
    leaves the partition of a caller with another namespace as it was;
    list, ask and delete write nothing to the index; and the documents
    listed for a caller, the answer and sources returned to a caller and
    the answer of a delete are determined by the caller's own partition
    and the rate-limit table, whatever the other partitions hold. *)
Theorem namespace_isolation_of_documents env (hA hB : Headers) :
  namespaceKey (getClientIP hA) ≠ namespaceKey (getClientIP hB) →
  (∀ (w : Documents.UploadWorld Embedding) file (s : Server Embedding),
     partition (index (Documents.POST env w hA file s).2) (getClientIP hB)
     = partition (index s) (getClientIP hB))
  ∧ (∀ now name (s : Server Embedding),
       index (Documents.DELETE env now hA name s).2 = index s)
  ∧ (∀ now (s : Server Embedding), index (Documents.GET env now hA s).2 = index s)
  ∧ (∀ (w : Ask.AskWorld Embedding) question (s : Server Embedding),
       index (Ask.POST env w hA question s).2 = index s)
  ∧ (∀ now (s1 s2 : Server Embedding),
       rateLimitStore s1 = rateLimitStore s2 →
       partition (index s1) (getClientIP hB) = partition (index s2) (getClientIP hB) →
       mapBody Documents.documents (Documents.GET env now hB s1).1
       = mapBody Documents.documents (Documents.GET env now hB s2).1)
  ∧ (∀ (w : Ask.AskWorld Embedding) question (s1 s2 : Server Embedding),
       rateLimitStore s1 = rateLimitStore s2 →
       partition (index s1) (getClientIP hB) = partition (index s2) (getClientIP hB) →
       (Ask.POST env w hB question s1).1 = (Ask.POST env w hB question s2).1)
  ∧ (∀ now name (s1 s2 : Server Embedding),
       rateLimitStore s1 = rateLimitStore s2 →
       partition (index s1) (getClientIP hB) = partition (index s2) (getClientIP hB) →
       (Documents.DELETE env now hB name s1).1
       = (Documents.DELETE env now hB name s2).1).
Proof.
  intros Hne. split; [|split; [|split; [|split; [|split; [|split]]]]].
  - intros w file s. apply POST_partition_other. congruence.
  - intros now name s. apply DELETE_index.
  - intros now s. apply GET_index.
  - intros w question s. apply Ask_index.
  - intros now s1 s2 Hstore Hpart. by apply GET_reads_own_partition.
  - intros w question s1 s2 Hstore Hpart. by apply Ask_reads_own_partition.
  - intros now name s1 s2 Hstore Hpart. by apply DELETE_reads_own_partition.
Qed.

(** Different identities do not always have different namespaces: the
    empty identity and the identity [__default__] address one and the
    same partition, so each of the two callers reads and writes the
    documents of the other. *)
Lemma default_namespace_is_shared (hA hB : Headers)
    (st : gmap JSString (gmap JSString (StoredRecord Embedding))) :
  getClientIP hA = [] → getClientIP hB = DEFAULT_NAMESPACE →
  getClientIP hA ≠ getClientIP hB
  ∧ partition st (getClientIP hA) = partition st (getClientIP hB).
Proof. intros -> ->. split; [discriminate | reflexivity]. Qed.

End NamespaceProperties.

Lemma namespace_isolation_of_documents_witness :
  namespaceKey (getClientIP Sample.alice) ≠ namespaceKey (getClientIP Sample.bob)
  ∧ partition (index (Documents.POST Sample.env Sample.answering Sample.alice
                        (Some Sample.notes) Sample.emptyServer).2)
              (getClientIP Sample.bob)
    = partition (index Sample.emptyServer) (getClientIP Sample.bob).
Proof.
  assert (namespaceKey (getClientIP Sample.alice)
          ≠ namespaceKey (getClientIP Sample.bob)) as Hne
    by (vm_compute; discriminate).
  split; [exact Hne |].
  apply (namespace_isolation_of_documents Sample.env Sample.alice Sample.bob Hne).
Defined.
